(** * A miniature search engine: inverted index, PageRank and query matching

    Shallow embedding of [invertedIndex.c], [pagerank.c] and
    [searchPagerank.c].

    Conventions of the embedding.
    - A C string is a [string]. The line buffer of [processSection1]
      ([fgets] into 1000 bytes, which cuts a longer line into pieces) and the
      word buffer of [parseInvertedIndex] (a [strcpy] into 1000 bytes, with
      no defined outcome for a longer word) are modelled with their sizes;
      the other buffers are assumed large enough for the tokens read into
      them (the C code does not check).
    - An [int] is a [Z]; the counters of the program ([outDegree],
      [matchCount], [iteration]) are only ever incremented from 0 and are
      assumed to stay below 2^31.
    - The arithmetic of the scores is a parameter, the class [Arith], with
      two instances. [exact] is the arithmetic of the rationals [Q]: no
      rounding, no infinity, no NaN; the results about the values of the
      scores are stated with it. [ieee] is the type [double]: a rational, an
      infinity or a NaN, with the rules of IEEE 754 for the special values
      and for the comparisons (every ordered comparison with a NaN is false,
      [!=] with a NaN is true), the arithmetic of the finite values kept
      exact. What depends on how doubles compare (the test of the loop,
      the comparison functions of [qsort]) is stated on [double] or for any
      arithmetic.
    - A file is its content, a [string]; [fscanf_words], [fgets_lines] and
      [fgets_n] give what the reading primitives return from it: the words
      of [fscanf("%s")], the lines of [fgets] (each with its end of line),
      whole or cut at the size of the buffer. *)

From Stdlib Require Import ZArith QArith Qabs Lia Lqa Ascii.
From Stdlib Require DecimalString.
From stdpp Require Import list strings sorting.

(** ** C strings *)

Module CString.

Definition byte (c : ascii) : Z := Z.of_N (Ascii.N_of_ascii c).

(** [strcmp]: the difference of the first pair of bytes that differ, the
    bytes compared as [unsigned char]; only its sign is meaningful. A C
    string has no NUL inside, so a string that ends first is below the
    other one. *)
Fixpoint strcmp (s1 s2 : string) : Z :=
  match s1, s2 with
  | EmptyString, EmptyString => 0
  | EmptyString, String _ _ => -1
  | String _ _, EmptyString => 1
  | String c1 r1, String c2 r2 =>
      if Z.eqb (byte c1) (byte c2) then strcmp r1 r2 else byte c1 - byte c2
  end%Z.

(** Strictly ascending order of strings, as [strcmp] sees it. *)
Definition str_lt (s1 s2 : string) : Prop := (strcmp s1 s2 < 0)%Z.

(** [strncmp(s, lit, strlen lit) == 0]: [s] starts with [lit]. *)
Fixpoint starts_with (lit s : string) : bool :=
  match lit, s with
  | EmptyString, _ => true
  | String _ _, EmptyString => false
  | String a r, String b t => Ascii.eqb a b && starts_with r t
  end.

Definition in_range (lo hi c : ascii) : bool :=
  (Z.leb (byte lo) (byte c) && Z.leb (byte c) (byte hi))%Z.

Definition isupper (c : ascii) : bool := in_range "A" "Z" c.
Definition islower (c : ascii) : bool := in_range "a" "z" c.
Definition isalpha (c : ascii) : bool := isupper c || islower c.
Definition isdigit (c : ascii) : bool := in_range "0" "9" c.

(** [isspace] in the C locale: space, \t, \n, \v, \f, \r. *)
Definition isspace (c : ascii) : bool :=
  Z.eqb (byte c) 32 || in_range "009" "013" c.

Definition tolower (c : ascii) : ascii :=
  if isupper c then Ascii.ascii_of_N (Ascii.N_of_ascii c + 32) else c.

Fixpoint map_chars (f : ascii -> ascii) (s : string) : string :=
  match s with
  | EmptyString => EmptyString
  | String c r => String (f c) (map_chars f r)
  end.

(** The character at index [i], the terminating NUL past the end. *)
Definition char_at (s : string) (i : nat) : ascii :=
  match String.get i s with Some c => c | None => Ascii.zero end.

(** The buffer cut at index [len] (what [word[len] = '\0'] leaves). *)
Definition truncate (len : nat) (s : string) : string :=
  String.substring 0 len s.

(** Splitting at the delimiters, empty pieces dropped: the sequence of
    tokens that [strtok] (or [fscanf("%s")] for [isspace]) returns. *)
Fixpoint tokens_go (delim : ascii -> bool) (cur : string) (s : string)
  : list string :=
  match s with
  | EmptyString => if String.eqb cur "" then [] else [cur]
  | String c r =>
      if delim c
      then (if String.eqb cur "" then [] else [cur]) ++ tokens_go delim "" r
      else tokens_go delim (cur +:+ String c "") r
  end.

Definition tokens (delim : ascii -> bool) (s : string) : list string :=
  tokens_go delim "" s.

(** The lines of a file: its content cut after each newline. It is what
    [fgets] returns when every line fits the buffer ([fgets_n] below takes
    the size of the buffer into account). *)
Fixpoint fgets_go (cur : string) (s : string) : list string :=
  match s with
  | EmptyString => if String.eqb cur "" then [] else [cur]
  | String c r =>
      if Ascii.eqb c "010"
      then (cur +:+ String c "") :: fgets_go "" r
      else fgets_go (cur +:+ String c "") r
  end.

Definition fgets_lines (content : string) : list string := fgets_go "" content.

(** The sequence of words that repeated [fscanf(file, "%s", ...)] reads. *)
Definition fscanf_words (content : string) : list string :=
  tokens isspace content.

(** [fopen] for reading: the content of the file, if it can be opened. *)
Definition filesystem := string -> option string.

(** One call of [strtok] on what is left of the buffer: the delimiters in
    front are skipped; [None] when nothing else is left, otherwise the token
    up to the next delimiter and what follows that delimiter. *)
Fixpoint skip_delims (delim : ascii -> bool) (s : string) : string :=
  match s with
  | EmptyString => EmptyString
  | String c r => if delim c then skip_delims delim r else s
  end.

Fixpoint split_token (delim : ascii -> bool) (s : string) : string * string :=
  match s with
  | EmptyString => (EmptyString, EmptyString)
  | String c r =>
      if delim c then (EmptyString, r)
      else (String c (split_token delim r).1, (split_token delim r).2)
  end.

Definition strtok (delim : ascii -> bool) (s : string) : option (string * string) :=
  match skip_delims delim s with
  | EmptyString => None
  | String c r => Some (split_token delim (String c r))
  end.

(** [fgets] with a buffer of [size] bytes: at most [size - 1] characters per
    call, a call ending after a newline; [room] is what the call in
    progress may still read, [cur] what it has read. *)
Fixpoint fgets_n_go (size : nat) (cur : string) (room : nat) (s : string)
  : list string :=
  match s with
  | EmptyString => if String.eqb cur "" then [] else [cur]
  | String c r =>
      let full := Nat.eqb room 0 in
      let cur' := if full then EmptyString else cur in
      let room' := if full then (size - 1)%nat else room in
      (if full then [cur] else []) ++
      (if Ascii.eqb c "010"
       then (cur' +:+ String c "") :: fgets_n_go size "" (size - 1) r
       else fgets_n_go size (cur' +:+ String c "") (room' - 1) r)
  end.

Definition fgets_n (size : nat) (content : string) : list string :=
  fgets_n_go size "" (size - 1) content.

(** [x < y] on rationals. *)
Definition Qlt_bool (x y : Q) : bool := negb (Qle_bool y x).

(** What [qsort] promises for the comparison function [compar]: the array
    holds the same elements, each not after its successor. The order of
    elements that compare equal is left open. *)
Definition qsort_result {A : Type} (compar : A -> A -> Z) (base sorted : list A)
  : Prop :=
  sorted ≡ₚ base /\ Sorted (fun a b => (compar a b <= 0)%Z) sorted.

End CString.

Import CString.

(** ** The type [double] *)

Module Double.

(** The operations on [double] that the programs use: the conversion of an
    [int], the four operations, [fabs], and the comparisons [<], [>], [>=]
    and [!=]. The programs are written over any such arithmetic. *)
Class Arith (D : Type) : Type := {
  of_int : Z -> D;
  dadd : D -> D -> D;
  dsub : D -> D -> D;
  dmul : D -> D -> D;
  ddiv : D -> D -> D;
  fabs : D -> D;
  dlt : D -> D -> bool;
  dgt : D -> D -> bool;
  dge : D -> D -> bool;
  dne : D -> D -> bool
}.

(** Exact arithmetic: every value is a rational number. *)
#[export] Instance exact : Arith Q | 0 := {|
  of_int := inject_Z;
  dadd := Qplus;
  dsub := Qminus;
  dmul := Qmult;
  ddiv := Qdiv;
  fabs := Qabs;
  dlt := Qlt_bool;
  dgt := fun x y => Qlt_bool y x;
  dge := fun x y => Qle_bool y x;
  dne := fun x y => negb (Qeq_bool x y)
|}.

(** The values of a [double]: a number, an infinity, or a NaN. The numbers
    are rationals and the operations on them exact; the operations on the
    other values, and every comparison, are those of IEEE 754. Zero has no
    sign: a division by zero is a division by +0 (the programs divide by
    non-zero integers only). *)
Inductive double : Type :=
| Fin (q : Q)
| PInf
| NInf
| NaN.

Coercion Fin : Q >-> double.

Definition inf (positive : bool) : double := if positive then PInf else NInf.

Definition neg (x : double) : double :=
  match x with
  | Fin a => Fin (- a)
  | PInf => NInf
  | NInf => PInf
  | NaN => NaN
  end.

Definition add (x y : double) : double :=
  match x, y with
  | NaN, _ | _, NaN => NaN
  | PInf, NInf | NInf, PInf => NaN
  | PInf, _ | _, PInf => PInf
  | NInf, _ | _, NInf => NInf
  | Fin a, Fin b => Fin (a + b)
  end.

Definition sub (x y : double) : double := add x (neg y).

(** The sign of a value: [Some true] above zero, [Some false] below,
    [None] for zero and for a NaN. *)
Definition sign (x : double) : option bool :=
  match x with
  | Fin a => if Qlt_bool 0 a then Some true
             else if Qlt_bool a 0 then Some false else None
  | PInf => Some true
  | NInf => Some false
  | NaN => None
  end.

Definition mul (x y : double) : double :=
  match x, y with
  | NaN, _ | _, NaN => NaN
  | Fin a, Fin b => Fin (a * b)
  | _, _ =>
      match sign x, sign y with
      | Some s, Some t => inf (Bool.eqb s t)
      | _, _ => NaN
      end
  end.

Definition div (x y : double) : double :=
  match x, y with
  | NaN, _ | _, NaN => NaN
  | Fin a, Fin b =>
      if Qeq_bool b 0
      then match sign x with Some s => inf s | None => NaN end
      else Fin (a / b)
  | Fin _, _ => Fin 0
  | _, Fin b =>
      match sign x with
      | Some s => inf (Bool.eqb s (negb (Qlt_bool b 0)))
      | None => NaN
      end
  | _, _ => NaN
  end.

Definition abs (x : double) : double :=
  match x with
  | Fin a => Fin (Qabs a)
  | PInf | NInf => PInf
  | NaN => NaN
  end.

(** [x < y]: false when one of them is a NaN. *)
Definition lt (x y : double) : bool :=
  match x, y with
  | NaN, _ | _, NaN => false
  | Fin a, Fin b => Qlt_bool a b
  | NInf, NInf => false
  | NInf, _ => true
  | _, NInf => false
  | PInf, _ => false
  | _, PInf => true
  end.

(** [x >= y]: false when one of them is a NaN. *)
Definition ge (x y : double) : bool :=
  match x, y with
  | NaN, _ | _, NaN => false
  | _, _ => negb (lt x y)
  end.

(** [x != y]: true when one of them is a NaN. *)
Definition ne (x y : double) : bool :=
  match x, y with
  | NaN, _ | _, NaN => true
  | Fin a, Fin b => negb (Qeq_bool a b)
  | PInf, PInf | NInf, NInf => false
  | _, _ => true
  end.

#[export] Instance ieee : Arith double | 10 := {|
  of_int := fun z => Fin (inject_Z z);
  dadd := add;
  dsub := sub;
  dmul := mul;
  ddiv := div;
  fabs := abs;
  dlt := lt;
  dgt := fun x y => lt y x;
  dge := ge;
  dne := ne
|}.

(** What an array cell that was never written is read as (the programs
    never read one). *)
#[export] Instance Arith_inhabited {D : Type} `{!Arith D} : Inhabited D | 100 :=
  populate (of_int 0).

End Double.

Import Double.

(** ** invertedIndex.c *)

Module InvertedIndex.

Definition is_trailing_punct (c : ascii) : bool :=
  Ascii.eqb c "." || Ascii.eqb c "," || Ascii.eqb c ":" ||
  Ascii.eqb c ";" || Ascii.eqb c "?" || Ascii.eqb c "*".

(** The loop [while (len > 0 && punct(word[len-1])) { word[len-1] = 0; len--; }]:
    the value of [len] when it stops. *)
Fixpoint strip_len (word : string) (len : nat) : nat :=
  match len with
  | O => O
  | S n => if is_trailing_punct (char_at word n) then strip_len word n else S n
  end.

Definition normalizeWord (word : string) : string :=
  let len := String.length word in
  let word := map_chars tolower word in
  let len := strip_len word len in
  let word := truncate len word in
  if Nat.eqb len 0 || negb (isalpha (char_at word 0)) then "" else word.

(** [FileNode *]: a linked list of file names. [TreeNode *]: a binary
    tree, [NULL] the empty one. *)
Inductive TreeNode : Type :=
| NULL
| Node (word : string) (fileList : list string) (left right : TreeNode).

Definition createFileNode (filename : string) : list string := [filename].

Definition createTreeNode (word filename : string) : TreeNode :=
  Node word (createFileNode filename) NULL NULL.

(** The scan stops at the first name that is not below [filename]; an equal
    name there means nothing is added, otherwise the new node goes in
    front of it. *)
Fixpoint addFilename (head : list string) (filename : string) : list string :=
  match head with
  | [] => createFileNode filename
  | current :: next =>
      if (strcmp current filename <? 0)%Z
      then current :: addFilename next filename
      else if (strcmp current filename =? 0)%Z
           then head
           else filename :: head
  end.

Fixpoint insertWord (root : TreeNode) (word filename : string) : TreeNode :=
  match root with
  | NULL => createTreeNode word filename
  | Node w fl l r =>
      let cmp := strcmp word w in
      if (cmp <? 0)%Z then Node w fl (insertWord l word filename) r
      else if (cmp >? 0)%Z then Node w fl l (insertWord r word filename)
      else Node w (addFilename fl filename) l r
  end.

(** The lines written, in order: each is a word and the names after it. *)
Fixpoint printInvertedIndex (root : TreeNode) : list (string * list string) :=
  match root with
  | NULL => []
  | Node w fl l r => printInvertedIndex l ++ (w, fl) :: printInvertedIndex r
  end.

(** The text of one line: [fprintf "%s"], then [" %s"] per name, then a newline. *)
Definition line_text (line : string * list string) : string :=
  line.1 +:+ foldr (fun f acc => " " +:+ f +:+ acc) (String "010" "") line.2.

Definition is_metadata (word : string) : bool :=
  starts_with "#start" word || starts_with "#end" word ||
  (strcmp word "Section-1" =? 0)%Z || (strcmp word "Section-2" =? 0)%Z.

Definition looks_like_filename (word : string) : bool :=
  starts_with "url" word && isdigit (char_at word 3).

(** One turn of the reading loop of [parseFile]. *)
Definition parseWord (filename : string) (root : TreeNode) (word : string)
  : TreeNode :=
  if is_metadata word then root
  else if looks_like_filename word then root
  else
    let word := normalizeWord word in
    if (0 <? String.length word)%nat then insertWord root word filename
    else root.

Definition parseFile (fs : filesystem) (filename : string) (root : TreeNode)
  : TreeNode :=
  match fs (filename +:+ ".txt") with
  | None => root
  | Some content => fold_left (parseWord filename) (fscanf_words content) root
  end.

(** [main]: the exit status, and the lines written to [invertedIndex.txt];
    [writable] tells whether that file can be opened for writing. *)
Definition main (fs : filesystem) (writable : bool)
  : Z * list (string * list string) :=
  match fs "collection.txt" with
  | None => (1%Z, [])
  | Some collection =>
      let root :=
        fold_left (fun root filename => parseFile fs filename root)
                  (fscanf_words collection) NULL in
      if writable then (0%Z, printInvertedIndex root) else (1%Z, [])
  end.

End InvertedIndex.
(** ** pagerank.c *)

Module PageRank.

Definition MAX_URLS : nat := 1000.

(** What a stage of the program ends in: a diagnostic and an exit status,
    or its result. *)
Inductive outcome (A : Type) : Type :=
| Fatal (status : Z) (diagnostic : string)
| Done (result : A).
Arguments Fatal {A} status diagnostic.
Arguments Done {A} result.

Definition is_strtok_delim (c : ascii) : bool :=
  Ascii.eqb c " " || Ascii.eqb c "010".

Definition start_marker : string := "#start Section-1" +:+ String "010" "".
Definition end_marker : string := "#end Section-1" +:+ String "010" "".

(** The reading loop of [readCollection]: stops at [maxPages] names or at
    the end of the file, whichever comes first. *)
Fixpoint readNames (words : list string) (N maxPages : nat) : list string :=
  if (maxPages <=? N)%nat then []
  else match words with
       | [] => []
       | w :: rest => w :: readNames rest (S N) maxPages
       end.

Section Arithmetic.

Context {D : Type} `{!Arith D}.

Record Page : Type := mkPage {
  url : string;
  outDegree : Z;
  pageRank : D;
  links : list Z
}.

(** What an array cell that was never written is read as (the program
    never reads one). *)
#[global] Instance Page_inhabited : Inhabited Page :=
  populate (mkPage "" 0 (of_int 0) []).

Definition set_link (k : nat) (p : Page) : Page :=
  mkPage (url p) (outDegree p) (pageRank p) (<[k := 1%Z]> (links p)).
Definition incr_outDegree (p : Page) : Page :=
  mkPage (url p) (outDegree p + 1) (pageRank p) (links p).
Definition set_pageRank (r : D) (p : Page) : Page :=
  mkPage (url p) (outDegree p) r (links p).

Fixpoint findPageIndex_from (pages : list Page) (url0 : string) (i n : nat) : Z :=
  match n with
  | O => -1
  | S n' =>
      if (strcmp (url (pages !!! i)) url0 =? 0)%Z then Z.of_nat i
      else findPageIndex_from pages url0 (S i) n'
  end.

(** [for (i = 0; i < N; i++) if (strcmp(pages[i].url, url) == 0) return i;] *)
Definition findPageIndex (pages : list Page) (N : nat) (url0 : string) : Z :=
  findPageIndex_from pages url0 0 N.

(** The body of the [strtok] loop for one token. *)
Definition linkToken (N i : nat) (pages : list Page) (token : string)
  : list Page :=
  let linkedIndex := findPageIndex pages N token in
  if negb (linkedIndex =? -1)%Z && negb (linkedIndex =? Z.of_nat i)%Z
  then alter (fun p => incr_outDegree (set_link (Z.to_nat linkedIndex) p)) i pages
  else pages.

(** The body of the [fgets] loop for one piece of a line that [fgets]
    returns; the state is [inSection1] and the array. *)
Definition processLine (N i : nat) (st : bool * list Page) (line : string)
  : bool * list Page :=
  let '(inSection1, pages) := st in
  if (strcmp line start_marker =? 0)%Z then (true, pages)
  else if (strcmp line end_marker =? 0)%Z then (false, pages)
  else if inSection1
       then (inSection1,
             fold_left (linkToken N i) (tokens is_strtok_delim line) pages)
       else (inSection1, pages).

(** [processSection1]: the file is read through the buffer [line[1000]],
    so a line of 1000 bytes or more comes in several pieces. *)
Definition processSection1 (urlFile : string) (pages : list Page) (N i : nat)
  : list Page :=
  (fold_left (processLine N i) (fgets_n 1000 urlFile) (false, pages)).2.

Definition initPage (N : nat) (name : string) : Page :=
  mkPage name 0 (ddiv (of_int 1) (of_int (Z.of_nat N))) (replicate MAX_URLS 0%Z).

(** The loop that opens each [<url>.txt] in turn; a file that cannot be
    opened ends the program. *)
Fixpoint parseFiles (fs : filesystem) (N : nat) (todo : list nat)
  (pages : list Page) : outcome (list Page) :=
  match todo with
  | [] => Done pages
  | i :: rest =>
      match fs (url (pages !!! i) +:+ ".txt") with
      | None => Fatal 1 "Error opening URL file"
      | Some urlFile => parseFiles fs N rest (processSection1 urlFile pages N i)
      end
  end.

(** [readCollection]: the initialised prefix of the array; [N] is its length. *)
Definition readCollection (fs : filesystem) (maxPages : nat)
  : outcome (list Page) :=
  match fs "collection.txt" with
  | None => Fatal 1 "Error opening collection.txt"
  | Some file =>
      let names := readNames (fscanf_words file) 0 maxPages in
      let N := length names in
      parseFiles fs N (seq 0 N) (initPage N <$> names)
  end.

Definition initializePreviousRanks (pages : list Page) (prevPR : list D)
  (N : nat) : list D :=
  fold_left (fun prev i => <[i := pageRank (pages !!! i)]> prev) (seq 0 N) prevPR.

(** The body of the inner loop over [j]. *)
Definition addContribution (pages : list Page) (prevPR : list D) (N i : nat)
  (sum : D) (j : nat) : D :=
  if negb (((links (pages !!! j)) !!! i) =? 0)%Z then
    if negb (outDegree (pages !!! j) =? 0)%Z
    then dadd sum (ddiv (prevPR !!! j) (of_int (outDegree (pages !!! j))))
    else dadd sum (ddiv (prevPR !!! j) (of_int (Z.of_nat N)))
  else sum.

Definition incomingSum (pages : list Page) (prevPR : list D) (N i : nat) : D :=
  fold_left (addContribution pages prevPR N i) (seq 0 N) (of_int 0).

(** The body of the outer loop over [i]: it reads the array as it is at
    that point and writes [pages[i].pageRank]. *)
Definition updateRank (prevPR : list D) (N : nat) (d : D)
  (pages : list Page) (i : nat) : list Page :=
  let sum := incomingSum pages prevPR N i in
  alter (set_pageRank
           (dadd (ddiv (dsub (of_int 1) d) (of_int (Z.of_nat N))) (dmul d sum)))
        i pages.

Definition calculateNewRanks (pages : list Page) (prevPR : list D) (N : nat)
  (d : D) : list Page :=
  fold_left (updateRank prevPR N d) (seq 0 N) pages.

Definition computePageRankDiff (pages : list Page) (prevPR : list D) (N : nat)
  : D :=
  fold_left
    (fun diff i => dadd diff (fabs (dsub (pageRank (pages !!! i)) (prevPR !!! i))))
    (seq 0 N) (of_int 0).

(** The variables of [calculatePageRank]. *)
Record PRState : Type := mkPRState {
  st_pages : list Page;
  st_prevPR : list D;
  st_iteration : Z;
  st_diff : D
}.

(** The body of the do-while loop. *)
Definition iterate (N : nat) (d : D) (st : PRState) : PRState :=
  let prevPR := initializePreviousRanks (st_pages st) (st_prevPR st) N in
  let pages := calculateNewRanks (st_pages st) prevPR N d in
  let diff := computePageRankDiff pages prevPR N in
  mkPRState pages prevPR (st_iteration st + 1) diff.

(** The condition of the do-while loop:
    [iteration < maxIterations && diff >= diffPR]. *)
Definition continues (diffPR : D) (maxIterations : Z) (st : PRState) : bool :=
  (st_iteration st <? maxIterations)%Z && dge (st_diff st) diffPR.

(** The do-while loop, with a bound [fuel] on the number of turns; [None]
    when the bound is reached before the loop exits. *)
Fixpoint calculatePageRank_loop (fuel : nat) (N : nat) (d diffPR : D)
  (maxIterations : Z) (st : PRState) : option PRState :=
  match fuel with
  | O => None
  | S fuel' =>
      let st' := iterate N d st in
      if continues diffPR maxIterations st'
      then calculatePageRank_loop fuel' N d diffPR maxIterations st'
      else Some st'
  end.

(** The state on entry: [iteration = 0]; [prevPR] and [diff] are not yet
    written. *)
Definition initialState (pages : list Page) : PRState :=
  mkPRState pages (replicate MAX_URLS (of_int 0)) 0 (of_int 0).

Definition calculatePageRank (fuel : nat) (pages : list Page) (N : nat)
  (d diffPR : D) (maxIterations : Z) : option PRState :=
  calculatePageRank_loop fuel N d diffPR maxIterations (initialState pages).

(** [writePageRankToFile]: the table, which [qsort] then orders by
    descending score and [fprintf] prints, one line per document;
    [writable] tells whether [pagerankList.txt] can be opened for writing. *)
Definition writePageRankToFile (writable : bool) (pages : list Page)
  : outcome (list Page) :=
  if writable then Done pages else Fatal 1 "Error opening pagerankList.txt".

(** [main], for the command line [d diffPR maxIterations] already converted
    by [atof] and [atoi]; [Done] is a return with status 0. The loop is
    given more turns than it can take; [None] would be a run that never
    leaves it. *)
Definition main (fs : filesystem) (writable : bool) (argc : Z) (d diffPR : D)
  (maxIterations : Z) : option (outcome (list Page)) :=
  if negb (argc =? 4)%Z then Some (Fatal 1 "Usage: d diffPR maxIterations")
  else
    match readCollection fs MAX_URLS with
    | Fatal status diagnostic => Some (Fatal status diagnostic)
    | Done pages =>
        let N := length pages in
        match calculatePageRank (S (Z.to_nat maxIterations)) pages N d diffPR
                                maxIterations with
        | None => None
        | Some st => Some (writePageRankToFile writable (st_pages st))
        end
    end.

(** [diff = b->pageRank - a->pageRank; return (diff > 0) - (diff < 0);] *)
Definition comparePageRank (a b : Page) : Z :=
  let diff := dsub (pageRank b) (pageRank a) in
  (Z.b2z (dgt diff (of_int 0)) - Z.b2z (dlt diff (of_int 0)))%Z.

(** The rows that [writePageRankToFile] prints, in order: the array as
    [qsort] leaves it with [comparePageRank]. *)
Definition pagerankList_rows (pages rows : list Page) : Prop :=
  qsort_result comparePageRank pages rows.

End Arithmetic.

End PageRank.
(** ** searchPagerank.c *)

Module SearchPagerank.

Record URL : Type := mkURL {
  url : string;
  matchCount : Z;
  pageRank : double
}.

(** [urlCount] is the length of [urls]. *)
Record WordEntry : Type := mkWordEntry {
  word : string;
  urls : list string
}.

(** [PageRankList]: the entries [urls[0 .. urlCount-1]]. *)
Definition PageRankList := list URL.

Definition incr_matchCount (u : URL) : URL :=
  mkURL (url u) (matchCount u + 1) (pageRank u).

(** The loop over [l]: every entry of the rank table that carries the
    name [u] has its counter incremented. *)
Definition countURL (pageRankList : PageRankList) (u : string) : PageRankList :=
  map (fun e => if (strcmp u (url e) =? 0)%Z then incr_matchCount e else e)
      pageRankList.

(** The body of the loop over [j], for the entry [wordEntries[j]]. *)
Definition countEntry (term : string) (pageRankList : PageRankList)
  (entry : WordEntry) : PageRankList :=
  if (strcmp term (word entry) =? 0)%Z
  then fold_left countURL (urls entry) pageRankList
  else pageRankList.

(** The body of the loop over [i], for the term [searchTerms[i]]. *)
Definition countTerm (wordEntries : list WordEntry)
  (pageRankList : PageRankList) (term : string) : PageRankList :=
  fold_left (countEntry term) wordEntries pageRankList.

(** [findMatchingURLs]: the rank table with its counters, and [results]. *)
Definition findMatchingURLs (wordEntries : list WordEntry)
  (pageRankList : PageRankList) (searchTerms : list string)
  : PageRankList * list URL :=
  let pageRankList := fold_left (countTerm wordEntries) searchTerms pageRankList in
  (pageRankList, filter (fun e => (0 < matchCount e)%Z) pageRankList).

Definition MAX_URLS : nat := 1000.
Definition MAX_WORD_LENGTH : nat := 1000.

Definition is_blank (c : ascii) : bool := Ascii.eqb c " ".
Definition is_blank_or_newline (c : ascii) : bool :=
  Ascii.eqb c " " || Ascii.eqb c "010".

(** The body of the [fgets] loop of [parseInvertedIndex] for one line: the
    word is the first token cut at spaces, the names are the tokens of the
    rest cut at spaces and newlines. [None] where the C code has no defined
    behaviour: no token on the line ([strcpy] from [NULL]), a word of
    [MAX_WORD_LENGTH] characters or more ([strcpy] past the end of
    [word]), or more than [MAX_URLS] names for the array [urls]. *)
Definition parseIndexLine (line : string) : option WordEntry :=
  match strtok is_blank line with
  | None => None
  | Some (w, rest) =>
      if (MAX_WORD_LENGTH <=? String.length w)%nat then None
      else
        let names := tokens is_blank_or_newline rest in
        if (length names <=? MAX_URLS)%nat then Some (mkWordEntry w names) else None
  end.

(** The loop over the lines; [None] also when a line comes after the array
    of [MAX_URLS] entries is full. *)
Fixpoint parseIndexLines (lines : list string) (wordEntries : list WordEntry)
  : option (list WordEntry) :=
  match lines with
  | [] => Some wordEntries
  | line :: rest =>
      if (MAX_URLS <=? length wordEntries)%nat then None
      else match parseIndexLine line with
           | None => None
           | Some entry => parseIndexLines rest (wordEntries ++ [entry])
           end
  end.

(** [parseInvertedIndex]: the program stops when the file cannot be opened;
    the line buffer has [2 * MAX_WORD_LENGTH] bytes. *)
Definition parseInvertedIndex (fs : filesystem) (filename : string)
  : option (PageRank.outcome (list WordEntry)) :=
  match fs filename with
  | None => Some (PageRank.Fatal 1 "Error opening invertedIndex.txt")
  | Some content =>
      PageRank.Done <$> parseIndexLines (fgets_n (MAX_WORD_LENGTH * 2) content) []
  end.

(** The scores are compared as doubles: with a NaN among them [!=] is
    true and both [>] and [<] are false. *)
Definition compareURLs (urlA urlB : URL) : Z :=
  if negb (matchCount urlA =? matchCount urlB)%Z
  then (matchCount urlB - matchCount urlA)%Z
  else if dne (pageRank urlA) (pageRank urlB)
  then (Z.b2z (dgt (pageRank urlB) (pageRank urlA))
        - Z.b2z (dlt (pageRank urlB) (pageRank urlA)))%Z
  else strcmp (url urlA) (url urlB).

(** [rankAndPrintResults]: the lines printed are the names of the first 30
    entries of the array as [qsort] leaves it with [compareURLs]. *)
Definition rankAndPrintResults (results : list URL) (printed : list string) : Prop :=
  exists sorted,
    qsort_result compareURLs results sorted /\ printed = url <$> take 30 sorted.

End SearchPagerank.
(** ** Vocabulary of the properties of the index *)

Module IndexProps.
Import InvertedIndex.

(** The words of the lines written for a tree, in order. *)
Definition words (t : TreeNode) : list string := (printInvertedIndex t).*1.

(** The line of the word [w] lists the document [f]. *)
Definition lists (out : list (string * list string)) (w f : string) : Prop :=
  exists fl, (w, fl) ∈ out /\ f ∈ fl.

(** A sequence of insertions of (word, file name) pairs. *)
Definition insertAll (ops : list (string * string)) (root : TreeNode) : TreeNode :=
  fold_left (fun t op => insertWord t op.1 op.2) ops root.

(** What one word read by [parseFile] inserts, if anything. *)
Definition posting (filename word : string) : option (string * string) :=
  if is_metadata word then None
  else if looks_like_filename word then None
  else if (0 <? String.length (normalizeWord word))%nat
       then Some (normalizeWord word, filename)
       else None.

(** The insertions that [parseFile] makes for one file name. *)
Definition filePostings (fs : filesystem) (filename : string)
  : list (string * string) :=
  match fs (filename +:+ ".txt") with
  | None => []
  | Some content => omap (posting filename) (fscanf_words content)
  end.

(** The search-tree invariant: words strictly ascending from left to
    right, each file list strictly ascending and not empty. *)
Fixpoint tree_ok (t : TreeNode) : Prop :=
  match t with
  | NULL => True
  | Node w fl l r =>
      tree_ok l /\ tree_ok r /\
      (forall x, x ∈ words l -> str_lt x w) /\
      (forall x, x ∈ words r -> str_lt w x) /\
      StronglySorted str_lt fl /\ fl <> []
  end.

(** The same invariant on the lines written. *)
Definition index_ok (out : list (string * list string)) : Prop :=
  StronglySorted str_lt out.*1 /\
  Forall (fun line => StronglySorted str_lt line.2 /\ line.2 <> []) out.

(** Two collections with the same manifest whose document files hold the
    same words, in any order within each file. *)
Definition same_up_to_token_order (fs fs' : filesystem) : Prop :=
  fs' "collection.txt" = fs "collection.txt" /\
  forall name,
    match fs (name +:+ ".txt"), fs' (name +:+ ".txt") with
    | Some c, Some c' => fscanf_words c ≡ₚ fscanf_words c'
    | None, None => True
    | _, _ => False
    end.

End IndexProps.

(** ** Sections of a document file *)

Module Sections.
Import PageRank.

(** The tokens of the section [label] of a document file, delimited the way
    [processSection1] delimits Section-1: a line [#start <label>] opens it,
    a line [#end <label>] closes it, and the lines between are cut at
    spaces and newlines. *)
Definition sectionLine (label : string) (st : bool * list string)
  (line : string) : bool * list string :=
  if (strcmp line ("#start " +:+ label +:+ String "010" "") =? 0)%Z then (true, st.2)
  else if (strcmp line ("#end " +:+ label +:+ String "010" "") =? 0)%Z then (false, st.2)
  else if st.1 then (st.1, st.2 ++ tokens is_strtok_delim line)
  else st.

Definition sectionTokens (label content : string) : list string :=
  (fold_left (sectionLine label) (fgets_lines content) (false, [])).2.

(** The tokens of the link section as [processSection1] reads them: from
    the pieces that [fgets] returns with its buffer of 1000 bytes. *)
Definition linkTokens_read (content : string) : list string :=
  (fold_left (sectionLine "Section-1") (fgets_n 1000 content) (false, [])).2.

(** The link section is Section-1, the body section is Section-2. *)
Definition linkTokens (content : string) : list string :=
  sectionTokens "Section-1" content.
Definition bodyTokens (content : string) : list string :=
  sectionTokens "Section-2" content.

End Sections.

(** ** Vocabulary of the properties of the query engine *)

Module SearchProps.
Import SearchPagerank.

(** The document set that the index gives for [term] contains [name]. *)
Definition term_matches (wordEntries : list WordEntry) (term name : string) : Prop :=
  Exists (fun e => word e = term /\ name ∈ urls e) wordEntries.

#[export] Instance term_matches_dec wordEntries term name :
  Decision (term_matches wordEntries term name).
Proof. unfold term_matches. apply _. Defined.

(** The query terms, one per occurrence on the command line, whose document
    set contains [name]. *)
Definition matching_terms (wordEntries : list WordEntry)
  (searchTerms : list string) (name : string) : list string :=
  filter (fun t => term_matches wordEntries t name) searchTerms.

(** An index as [invertedIndex.c] writes it: one entry per word, no
    document twice in an entry. *)
Definition index_wf (wordEntries : list WordEntry) : Prop :=
  NoDup (word <$> wordEntries) /\ Forall (fun e => NoDup (urls e)) wordEntries.

(** The number of increments that the loops make for the name [name]. *)
Definition urlHits (name u : string) : Z := if decide (u = name) then 1 else 0.
Definition entryHits (term name : string) (e : WordEntry) : Z :=
  if decide (term = word e) then foldr (fun u n => urlHits name u + n)%Z 0%Z (urls e)
  else 0.
Definition termHits (wordEntries : list WordEntry) (name term : string) : Z :=
  foldr (fun e n => entryHits term name e + n)%Z 0%Z wordEntries.
Definition hits (wordEntries : list WordEntry) (searchTerms : list string)
  (name : string) : Z :=
  foldr (fun t n => termHits wordEntries name t + n)%Z 0%Z searchTerms.

(** The rank table with [n name] added to the counter of each entry. *)
Definition add_matches (n : string -> Z) (pageRankList : PageRankList)
  : PageRankList :=
  map (fun e => mkURL (url e) (matchCount e + n (url e)) (pageRank e)) pageRankList.

End SearchProps.

(** ** Vocabulary of the properties of the ranker *)

Module RankProps.
Import PageRank.

Section Arithmetic.

Context {D : Type} `{!Arith D}.

#[local] Abbreviation Page := (@PageRank.Page D).
#[local] Abbreviation PRState := (@PageRank.PRState D).

(** The state after [k] turns of the do-while loop. *)
Definition nthState (N : nat) (d : D) (pages : list Page) (k : nat) : PRState :=
  Nat.iter k (iterate N d) (initialState pages).

(** The score that a synchronous update gives the document [i]: it is
    computed from the scores, links and out-degrees that the array [pages]
    held before the update. *)
Definition synchronousScore (N : nat) (d : D) (pages : list Page) (i : nat) : D :=
  dadd (ddiv (dsub (of_int 1) d) (of_int (Z.of_nat N)))
       (dmul d (incomingSum pages (pageRank <$> pages) N i)).

(** The synchronous update: every document keeps its name, out-degree and
    links and has its score replaced by its synchronous score. *)
Definition syncUpdate (N : nat) (d : D) (pages : list Page) : list Page :=
  imap (fun i p =>
          mkPage (url p) (outDegree p) (synchronousScore N d pages i) (links p))
       pages.

(** The array as [readCollection] leaves it, when it does not stop the
    program. *)
Definition graphOf (fs : filesystem) : list Page :=
  match readCollection fs MAX_URLS with
  | Done pages => pages
  | Fatal _ _ => []
  end.

(** The number of documents that the page [p] has a link to. *)
Definition countLinks (p : Page) (N : nat) : nat :=
  length (filter (fun i => links p !!! i <> 0%Z) (seq 0 N)).

(** What the handling of the token [t] of the link section of the document
    [i] does to the page of [i]; [pages0] is the array of the names. *)
Definition linkPage (pages0 : list Page) (N i : nat) (p : Page) (t : string) : Page :=
  let linkedIndex := findPageIndex pages0 N t in
  if negb (linkedIndex =? -1)%Z && negb (linkedIndex =? Z.of_nat i)%Z
  then incr_outDegree (set_link (Z.to_nat linkedIndex) p)
  else p.

(** The token [t] names a document of the collection other than [i]. *)
Definition names_other (pages0 : list Page) (N i : nat) (t : string) : Prop :=
  findPageIndex pages0 N t <> (-1)%Z /\ findPageIndex pages0 N t <> Z.of_nat i.

#[export] Instance names_other_dec pages0 N i t : Decision (names_other pages0 N i t).
Proof. unfold names_other. apply _. Defined.

End Arithmetic.

(** The sum of the scores of the documents. *)
Definition totalRank (pages : list (@Page Q)) : Q :=
  foldr (fun p acc => (pageRank p + acc)%Q) 0%Q pages.

(** What the document [j] adds to the incoming sum of the document [i]. *)
Definition contribution (pages : list (@Page Q)) (prevPR : list Q) (N i j : nat) : Q :=
  addContribution pages prevPR N i 0%Q j.

(** The sum of [f i] over the indices [i] of a list. *)
Definition sumOver (f : nat -> Q) (l : list nat) : Q :=
  foldr (fun i acc => (f i + acc)%Q) 0%Q l.

(** Every document has a link, and its out-degree is the number of its links. *)
Definition outDegrees_exact (pages : list (@Page Q)) (N : nat) : Prop :=
  forall j, (j < N)%nat ->
    outDegree (pages !!! j) <> 0%Z /\
    outDegree (pages !!! j) = Z.of_nat (countLinks (pages !!! j) N).

End RankProps.

(** ** Concrete collections *)

Module Examples.

(** A file system given by its files. *)
Fixpoint files_of (files : list (string * string)) (name : string) : option string :=
  match files with
  | [] => None
  | (n, content) :: rest =>
      if String.eqb name n then Some content else files_of rest name
  end.

(** The text made of the given lines. *)
Definition text (lines : list string) : string :=
  foldr (fun l acc => l +:+ String "010" acc) "" lines.

(** One document, [alpha], whose link section names [beta]. *)
Definition alpha_doc : string :=
  text ["#start Section-1"; "beta"; "#end Section-1";
        "#start Section-2"; "hello world"; "#end Section-2"].
Definition alpha_fs : filesystem :=
  files_of [("collection.txt", text ["alpha"; "beta"]);
            ("alpha.txt", alpha_doc);
            ("beta.txt", text ["#start Section-2"; "world"; "#end Section-2"])].

(** The same collection with the words of [alpha] in another order. *)
Definition alpha_fs' : filesystem :=
  files_of [("collection.txt", text ["alpha"; "beta"]);
            ("alpha.txt",
             text ["#start Section-1"; "beta"; "#end Section-1";
                   "#start Section-2"; "world hello"; "#end Section-2"]);
            ("beta.txt", text ["#start Section-2"; "world"; "#end Section-2"])].

(** Two documents: [A] links to [B], and [B] links to nothing. *)
Definition ab_fs : filesystem :=
  files_of [("collection.txt", text ["A"; "B"]);
            ("A.txt", text ["#start Section-1"; "B"; "#end Section-1";
                            "#start Section-2"; "first page"; "#end Section-2"]);
            ("B.txt", text ["#start Section-1"; "#end Section-1";
                            "#start Section-2"; "second page"; "#end Section-2"])].

(** The same, with the link of [A] to [B] written twice. *)
Definition dup_doc : string :=
  text ["#start Section-1"; "B B"; "#end Section-1";
        "#start Section-2"; "first page"; "#end Section-2"].
Definition dup_fs : filesystem :=
  files_of [("collection.txt", text ["A"; "B"]);
            ("A.txt", dup_doc);
            ("B.txt", text ["#start Section-1"; "#end Section-1";
                            "#start Section-2"; "second page"; "#end Section-2"])].

(** A manifest of 1001 names, [doc0] to [doc1000]; every document file can
    be opened and is empty. *)
Definition doc_name (n : nat) : string :=
  "doc" +:+ DecimalString.NilZero.string_of_uint (Nat.to_uint n).
Definition big_manifest : string := text (doc_name <$> seq 0 1001).
Definition big_fs : filesystem :=
  fun name => if String.eqb name "collection.txt" then Some big_manifest else Some "".

(** An index with one term and a rank table with one document. *)
Definition cat_index : list SearchPagerank.WordEntry :=
  [SearchPagerank.mkWordEntry "cat" ["A"]].
Definition cat_ranks : SearchPagerank.PageRankList :=
  [SearchPagerank.mkURL "A" 0 (1 # 2)].

End Examples.

(** ** The claims that the code does not meet, as stated *)

Module Claimed.
Import InvertedIndex IndexProps Sections.

(** C7 as stated, for one document: every (term, document) pair that
    [parseFile] puts in the index comes from a token of the body section. *)
Definition only_body_tokens_indexed (fs : filesystem) (filename : string) : Prop :=
  forall w f,
    lists (printInvertedIndex (parseFile fs filename NULL)) w f ->
    exists content t,
      fs (filename +:+ ".txt") = Some content /\
      t ∈ bodyTokens content /\ normalizeWord t = w.

(** C5 as stated: the counter of every entry of the rank table ends as the
    number of distinct query terms whose document set contains it. *)
Definition counts_distinct_terms (wordEntries : list SearchPagerank.WordEntry)
  (pageRankList : SearchPagerank.PageRankList) (searchTerms : list string) : Prop :=
  forall e,
    e ∈ (SearchPagerank.findMatchingURLs wordEntries pageRankList searchTerms).1 ->
    SearchPagerank.matchCount e
    = Z.of_nat (length (remove_dups
                 (SearchProps.matching_terms wordEntries searchTerms
                                             (SearchPagerank.url e)))).

(** C1 as stated: a document without outgoing links adds [prev[j] / N] to
    the incoming sum of every document. *)
Definition dangling_mass_redistributed (pages : list PageRank.Page)
  (prevPR : list Q) (N : nat) : Prop :=
  forall i j sum, (i < N)%nat -> (j < N)%nat ->
    PageRank.outDegree (pages !!! j) = 0%Z ->
    (PageRank.addContribution pages prevPR N i sum j
     == sum + (prevPR !!! j) / inject_Z (Z.of_nat N))%Q.

(** C4 as stated, on doubles: with [maxIterations >= 1] and a threshold that
    is at least 0, the loop leaves within [maxIterations] turns, with a
    [diff] strictly below the threshold or after exactly [maxIterations]
    turns. *)
Definition exits_below_threshold_or_at_cap (pages : list (@PageRank.Page double))
  (N : nat) (d diffPR : double) (maxIterations : Z) : Prop :=
  (1 <= maxIterations)%Z -> dge diffPR (of_int 0) = true ->
  exists st,
    PageRank.calculatePageRank (Z.to_nat maxIterations) pages N d diffPR
                               maxIterations = Some st /\
    (dlt (PageRank.st_diff st) diffPR = true
     \/ PageRank.st_iteration st = maxIterations).

(** C3 as stated: the number of distinct documents, other than the document
    [i] itself, that the link section [content] of [i] names. *)
Definition distinctTargets (names : list string) (i : nat) (content : string) : nat :=
  length (remove_dups
            (filter (fun t => t ∈ names /\ names !! i <> Some t)
                    (linkTokens content))).

Definition outDegree_counts_distinct (fs : filesystem) : Prop :=
  forall i name content,
    (PageRank.url <$> RankProps.graphOf fs) !! i = Some name ->
    fs (name +:+ ".txt") = Some content ->
    PageRank.outDegree (RankProps.graphOf fs !!! i)
    = Z.of_nat (distinctTargets (PageRank.url <$> RankProps.graphOf fs) i content).

(** C8 as stated: a manifest of more than [MAX_URLS] names ends the rank
    stage with a diagnostic and a non-zero status. *)
Definition overflow_is_fatal (fs : filesystem) (d diffPR : Q)
  (maxIterations : Z) : Prop :=
  forall collection,
    fs "collection.txt" = Some collection ->
    (PageRank.MAX_URLS < length (fscanf_words collection))%nat ->
    exists status diagnostic,
      status <> 0%Z /\
      PageRank.main fs true 4 d diffPR maxIterations
      = Some (PageRank.Fatal status diagnostic).

End Claimed.

(** ** Vocabulary of the further properties *)

Module MoreProps.

(** No character of the string is an uppercase letter. *)
Fixpoint all_lower (s : string) : bool :=
  match s with
  | EmptyString => true
  | String c r => negb (isupper c) && all_lower r
  end.

(** No character of the string satisfies [bad]. *)
Fixpoint no_char (bad : ascii -> bool) (s : string) : bool :=
  match s with
  | EmptyString => true
  | String c r => negb (bad c) && no_char bad r
  end.

(** A name that can be written between separators and read back: it is not
    empty and holds no separator. *)
Definition separable (bad : ascii -> bool) (s : string) : Prop :=
  s <> "" /\ no_char bad s = true.

(** The text of [invertedIndex.txt]: the lines that [printInvertedIndex]
    writes, one after the other. *)
Definition index_text (out : list (string * list string)) : string :=
  foldr (fun line acc => InvertedIndex.line_text line +:+ acc) "" out.

(** A line of the index as an entry of the query engine. *)
Definition entry_of_line (line : string * list string) : SearchPagerank.WordEntry :=
  SearchPagerank.mkWordEntry line.1 line.2.

(** What follows the word on a line of the index: each name after a space,
    then [tail]. *)
Definition names_text (tail : string) (names : list string) : string :=
  foldr (fun f acc => " " +:+ f +:+ acc) tail names.

Definition is_newline (c : ascii) : bool := Ascii.eqb c "010".

(** The lines fit the arrays and the line buffer of [parseInvertedIndex]:
    the array of entries, and for each line the buffer of the word, the
    array of the names and the line buffer. *)
Definition index_fits (out : list (string * list string)) : Prop :=
  (length out <= SearchPagerank.MAX_URLS)%nat /\
  Forall (fun line =>
            (String.length line.1 < SearchPagerank.MAX_WORD_LENGTH)%nat /\
            (length line.2 <= SearchPagerank.MAX_URLS)%nat /\
            (String.length (InvertedIndex.line_text line)
             < SearchPagerank.MAX_WORD_LENGTH * 2)%nat) out.

(** The result [a] ranks strictly before [b]: more matching terms; or as
    many and a higher score; or as many, the same score, and a smaller name. *)
Definition ranks_before (a b : SearchPagerank.URL) : Prop :=
  (SearchPagerank.matchCount b < SearchPagerank.matchCount a)%Z \/
  (SearchPagerank.matchCount a = SearchPagerank.matchCount b /\
   (Double.lt (SearchPagerank.pageRank b) (SearchPagerank.pageRank a) = true \/
    (Double.ne (SearchPagerank.pageRank a) (SearchPagerank.pageRank b) = false /\
     str_lt (SearchPagerank.url a) (SearchPagerank.url b)))).

(** The two results have the same count, the same score and the same name. *)
Definition same_rank (a b : SearchPagerank.URL) : Prop :=
  SearchPagerank.matchCount a = SearchPagerank.matchCount b /\
  Double.ne (SearchPagerank.pageRank a) (SearchPagerank.pageRank b) = false /\
  SearchPagerank.url a = SearchPagerank.url b.

(** A value that every double equal to [x] is given. *)
Definition canonical (x : double) : double :=
  match x with
  | Fin q => Fin (Qred q)
  | _ => x
  end.

(** What the comparison of two results looks at. *)
Definition rank_key (a : SearchPagerank.URL) : Z * double * string :=
  (SearchPagerank.matchCount a, canonical (SearchPagerank.pageRank a),
   SearchPagerank.url a).

(** No result has a NaN for its score. *)
Definition scores_are_numbers (results : list SearchPagerank.URL) : Prop :=
  Forall (fun e => SearchPagerank.pageRank e <> NaN) results.

(** An index of two terms and a rank table of four documents, one of them
    in no document set. *)
Definition pets_index : list SearchPagerank.WordEntry :=
  [SearchPagerank.mkWordEntry "cat" ["A"; "B"];
   SearchPagerank.mkWordEntry "dog" ["B"; "C"]].
Definition pets_ranks : SearchPagerank.PageRankList :=
  [SearchPagerank.mkURL "A" 0 (1 # 2); SearchPagerank.mkURL "B" 0 (1 # 4);
   SearchPagerank.mkURL "C" 0 (2 # 8); SearchPagerank.mkURL "D" 0 0%Q].

(** No page has more links among the first [N] documents than its
    out-degree. *)
Definition links_within_outDegree (pages : list PageRank.Page) (N : nat) : Prop :=
  forall j, (j < N)%nat ->
    (Z.of_nat (RankProps.countLinks (pages !!! j) N)
     <= PageRank.outDegree (pages !!! j))%Z.

(** No score is negative. *)
Definition scores_nonneg (pages : list PageRank.Page) : Prop :=
  Forall (fun p => (0 <= PageRank.pageRank p)%Q) pages.

(** Two documents that link to each other. *)
Definition cycle_fs : filesystem :=
  Examples.files_of
    [("collection.txt", Examples.text ["A"; "B"]);
     ("A.txt", Examples.text ["#start Section-1"; "B"; "#end Section-1"]);
     ("B.txt", Examples.text ["#start Section-1"; "A"; "#end Section-1"])].

End MoreProps.

(** ** Facts about the comparisons of doubles *)

Section RationalFacts.

Lemma Qlt_bool_iff (x y : Q) : Qlt_bool x y = true <-> (x < y)%Q.
Proof.
  unfold Qlt_bool. rewrite negb_true_iff. split.
  - intros H. apply Qnot_le_lt. intros Hle. apply Qle_bool_iff in Hle. congruence.
  - intros H. destruct (Qle_bool y x) eqn:E; [|reflexivity].
    apply Qle_bool_iff in E. destruct (Qlt_not_le _ _ H E).
Qed.

Lemma Qlt_bool_false_iff (x y : Q) : Qlt_bool x y = false <-> (y <= x)%Q.
Proof.
  unfold Qlt_bool. rewrite negb_false_iff. apply Qle_bool_iff.
Qed.

Lemma Qeq_bool_false (x y : Q) :
  Qeq_bool x y = false -> ((x < y)%Q /\ ~ (y < x)%Q) \/ ((y < x)%Q /\ ~ (x < y)%Q).
Proof.
  intros H. destruct (Q_dec x y) as [[Hlt|Hgt]|Heq].
  - left. split; [exact Hlt|]. intros H'. exact (Qlt_irrefl _ (Qlt_trans _ _ _ Hlt H')).
  - right. split; [exact Hgt|]. intros H'. exact (Qlt_irrefl _ (Qlt_trans _ _ _ Hgt H')).
  - apply Qeq_bool_iff in Heq. congruence.
Qed.

Lemma Qeq_bool_false_iff (x y : Q) : Qeq_bool x y = false <-> ~ (x == y)%Q.
Proof.
  split.
  - intros H E. apply Qeq_bool_iff in E. congruence.
  - intros H. destruct (Qeq_bool x y) eqn:E; [|reflexivity].
    apply Qeq_bool_iff in E. contradiction.
Qed.

End RationalFacts.

(** Turns the comparisons of rationals that a goal or a hypothesis holds as
    booleans into propositions. *)
Ltac q_bools :=
  repeat match goal with
    | H : Qlt_bool _ _ = true |- _ => apply Qlt_bool_iff in H
    | H : Qlt_bool _ _ = false |- _ => apply Qlt_bool_false_iff in H
    | H : Qeq_bool _ _ = true |- _ => apply Qeq_bool_iff in H
    | H : Qeq_bool _ _ = false |- _ => apply Qeq_bool_false_iff in H
    | H : negb _ = true |- _ => apply negb_true_iff in H
    | H : negb _ = false |- _ => apply negb_false_iff in H
    | |- Qlt_bool _ _ = true => apply Qlt_bool_iff
    | |- Qlt_bool _ _ = false => apply Qlt_bool_false_iff
    | |- Qeq_bool _ _ = true => apply Qeq_bool_iff
    | |- Qeq_bool _ _ = false => apply Qeq_bool_false_iff
    | |- negb _ = true => apply negb_true_iff
    | |- negb _ = false => apply negb_false_iff
    end.

(** The operations of the exact arithmetic, as operations on rationals. *)
Ltac exact_ops :=
  cbn [of_int dadd dsub dmul ddiv fabs dlt dgt dge dne exact] in *.

(** The operations of the arithmetic of doubles, as operations on
    [double]. *)
Ltac ieee_ops :=
  cbn [of_int dadd dsub dmul ddiv fabs dlt dgt dge dne ieee] in *.

Ltac double_cases :=
  unfold Double.ge, Double.lt, Double.ne in *; q_bools;
  first [ reflexivity | discriminate | congruence | lra
        | (intros ?; lra) | tauto ].

Section DoubleFacts.

Lemma lt_not_nan (x y : double) : Double.lt x y = true -> x <> NaN /\ y <> NaN.
Proof. destruct x, y; simpl; intros H; split; congruence. Qed.

Lemma ge_not_nan (x y : double) : Double.ge x y = true -> x <> NaN /\ y <> NaN.
Proof. destruct x, y; simpl; intros H; split; congruence. Qed.

Lemma ne_false_not_nan (x y : double) : Double.ne x y = false -> x <> NaN /\ y <> NaN.
Proof. destruct x, y; simpl; intros H; split; congruence. Qed.

(** When the right operand is not a NaN, [x >= y] is false exactly when
    [x < y] or [x] is a NaN. *)
Lemma ge_false_iff (x y : double) :
  y <> NaN -> Double.ge x y = false <-> Double.lt x y = true \/ x = NaN.
Proof.
  intros Hy. destruct x, y; simpl; try congruence;
    try (split; [intros E; try discriminate; auto|intros [E|E]; congruence]).
  destruct (Qlt_bool q q0); simpl; split; auto; intros [E|E]; congruence.
Qed.

Lemma ge_lt (x y : double) :
  x <> NaN -> y <> NaN -> Double.ge x y = negb (Double.lt x y).
Proof. intros Hx Hy. destruct x, y; simpl; congruence. Qed.

Lemma lt_asym (x y : double) : Double.lt x y = true -> Double.lt y x = false.
Proof. destruct x, y; simpl; intros H; try congruence. double_cases. Qed.

Lemma lt_trans (x y z : double) :
  Double.lt x y = true -> Double.lt y z = true -> Double.lt x z = true.
Proof. destruct x, y, z; simpl; intros H1 H2; try congruence. double_cases. Qed.

Lemma ge_refl (x : double) : x <> NaN -> Double.ge x x = true.
Proof. destruct x; simpl; intros H; try congruence. double_cases. Qed.

Lemma ge_trans (x y z : double) :
  Double.ge x y = true -> Double.ge y z = true -> Double.ge x z = true.
Proof. destruct x, y, z; simpl; intros H1 H2; try congruence. double_cases. Qed.

Lemma ge_total (x y : double) :
  x <> NaN -> y <> NaN -> Double.ge x y = true \/ Double.ge y x = true.
Proof.
  intros Hx Hy. destruct x, y; simpl; try congruence; auto.
  destruct (Qlt_bool q q0) eqn:E; [right|left; reflexivity].
  simpl. q_bools. lra.
Qed.

(** [x != y] is false exactly when neither is below the other and neither
    is a NaN. *)
Lemma ne_false_iff (x y : double) :
  Double.ne x y = false
  <-> x <> NaN /\ y <> NaN /\ Double.lt x y = false /\ Double.lt y x = false.
Proof.
  destruct x, y; simpl; split; try intros (H1 & H2 & H3 & H4); intros;
    repeat split; try congruence.
  - double_cases.
  - double_cases.
  - q_bools. lra.
Qed.

Lemma ne_true_iff (x y : double) :
  x <> NaN -> y <> NaN ->
  Double.ne x y = true <-> Double.lt x y = true \/ Double.lt y x = true.
Proof.
  intros Hx Hy. destruct x, y; simpl; try congruence; try (split; auto; intros [E|E]; congruence).
  split.
  - intros E. q_bools. destruct (Qlt_le_dec q q0) as [Hl|Hl]; [left; now q_bools|right].
    q_bools. destruct (Qle_lt_or_eq _ _ Hl) as [Hlt|Heq]; [exact Hlt|].
    exfalso. apply E. now symmetry.
  - intros [E|E]; q_bools; lra.
Qed.

Lemma ne_false_sym (x y : double) : Double.ne x y = false -> Double.ne y x = false.
Proof.
  rewrite !ne_false_iff. tauto.
Qed.

(** Values that [!=] does not tell apart compare alike with any third. *)
Lemma ne_false_lt_l (x x' y : double) :
  Double.ne x x' = false -> Double.lt x y = Double.lt x' y.
Proof.
  destruct x, x', y; simpl; intros E; try congruence.
  q_bools. destruct (Qlt_bool q q1) eqn:E1, (Qlt_bool q0 q1) eqn:E2; try reflexivity;
    q_bools; lra.
Qed.

Lemma ne_false_lt_r (x y y' : double) :
  Double.ne y y' = false -> Double.lt x y = Double.lt x y'.
Proof.
  destruct x, y, y'; simpl; intros E; try congruence.
  q_bools. destruct (Qlt_bool q q0) eqn:E1, (Qlt_bool q q1) eqn:E2; try reflexivity;
    q_bools; lra.
Qed.

Lemma ne_false_trans (x y z : double) :
  Double.ne x y = false -> Double.ne y z = false -> Double.ne x z = false.
Proof.
  intros H1 H2. apply ne_false_iff.
  destruct (ne_false_not_nan _ _ H1) as [Hx _].
  destruct (ne_false_not_nan _ _ H2) as [_ Hz].
  split; [exact Hx|]. split; [exact Hz|].
  rewrite (ne_false_lt_l x y z H1), (ne_false_lt_r z x y H1).
  apply ne_false_iff in H2. tauto.
Qed.

Lemma ne_sym (x y : double) : Double.ne x y = Double.ne y x.
Proof.
  destruct x, y; simpl; try reflexivity. f_equal.
  destruct (Qeq_bool q q0) eqn:E1, (Qeq_bool q0 q) eqn:E2; try reflexivity;
    q_bools; exfalso; [apply E2|apply E1]; now symmetry.
Qed.

Lemma lt_eq_r (x y z : double) :
  Double.lt z y = true -> Double.ne x y = false -> Double.lt z x = true.
Proof. intros H E. now rewrite (ne_false_lt_r z x y E). Qed.

Lemma lt_eq_l (x y z : double) :
  Double.ne y z = false -> Double.lt y x = true -> Double.lt z x = true.
Proof. intros E H. now rewrite <- (ne_false_lt_l y z x E). Qed.

Lemma canonical_eq (x y : double) :
  x <> NaN -> MoreProps.canonical x = MoreProps.canonical y <-> Double.ne x y = false.
Proof.
  intros Hx. destruct x, y; simpl; try congruence;
    try (split; [intros E; discriminate E|intros E; discriminate E]);
    try (split; reflexivity).
  rewrite negb_false_iff, Qeq_bool_iff. split.
  - intros [= E]. now rewrite <- (Qred_correct q), <- (Qred_correct q0), E.
  - intros E. f_equal. now apply Qred_complete.
Qed.

End DoubleFacts.

(** ** Order facts about [strcmp] *)

Section StrcmpFacts.

Lemma byte_inj (a b : ascii) : byte a = byte b -> a = b.
Proof.
  unfold byte; intros H. apply N2Z.inj in H.
  rewrite <- (ascii_N_embedding a), <- (ascii_N_embedding b). now f_equal.
Qed.

Lemma strcmp_refl (s : string) : strcmp s s = 0%Z.
Proof. induction s as [|c r IH]; simpl; [reflexivity|]. now rewrite Z.eqb_refl. Qed.

Lemma strcmp_eq (s1 s2 : string) : strcmp s1 s2 = 0%Z <-> s1 = s2.
Proof.
  split; [|intros ->; apply strcmp_refl].
  revert s2; induction s1 as [|c1 r1 IH]; intros [|c2 r2]; simpl;
    try discriminate; [reflexivity|].
  destruct (Z.eqb_spec (byte c1) (byte c2)) as [E|E]; [|lia].
  intros H. apply byte_inj in E. f_equal; [exact E|]. now apply IH.
Qed.

Lemma strcmp_eqb (s1 s2 : string) :
  (strcmp s1 s2 =? 0)%Z = bool_decide (s1 = s2).
Proof.
  destruct (Z.eqb_spec (strcmp s1 s2) 0) as [E|E]; symmetry.
  - apply bool_decide_eq_true, strcmp_eq, E.
  - apply bool_decide_eq_false. now rewrite <- strcmp_eq.
Qed.

Lemma strcmp_flip (s1 s2 : string) :
  (strcmp s1 s2 < 0)%Z <-> (0 < strcmp s2 s1)%Z.
Proof.
  revert s2; induction s1 as [|c1 r1 IH]; intros [|c2 r2]; simpl; try lia.
  rewrite (Z.eqb_sym (byte c2)).
  destruct (Z.eqb_spec (byte c1) (byte c2)); [apply IH|lia].
Qed.

#[export] Instance str_lt_irrefl : Irreflexive str_lt.
Proof. intros s H; unfold str_lt in H; rewrite strcmp_refl in H; lia. Qed.

#[export] Instance str_lt_trans : Transitive str_lt.
Proof.
  unfold str_lt. intros s1; induction s1 as [|c1 r1 IH];
    intros [|c2 r2] [|c3 r3]; simpl; try lia.
  destruct (Z.eqb_spec (byte c1) (byte c2)) as [E12|E12];
    destruct (Z.eqb_spec (byte c2) (byte c3)) as [E23|E23];
    destruct (Z.eqb_spec (byte c1) (byte c3)) as [E13|E13];
    try lia; apply IH.
Qed.

#[export] Instance str_lt_strict : StrictOrder str_lt.
Proof. split; apply _. Qed.

Lemma str_lt_asym (s1 s2 : string) : str_lt s1 s2 -> str_lt s2 s1 -> False.
Proof. intros H1 H2. exact (irreflexivity str_lt s1 (transitivity H1 H2)). Qed.

Lemma str_lt_total (s1 s2 : string) : str_lt s1 s2 \/ s1 = s2 \/ str_lt s2 s1.
Proof.
  unfold str_lt. rewrite <- strcmp_eq, (strcmp_flip s2 s1). lia.
Qed.

End StrcmpFacts.

(** ** Facts about the normalizer *)

Section NormalizeFacts.

Import InvertedIndex.

Lemma tolower_idem (c : ascii) : tolower (tolower c) = tolower c.
Proof. destruct c as [[] [] [] [] [] [] [] []]; reflexivity. Qed.

Lemma map_chars_length f (s : string) :
  String.length (map_chars f s) = String.length s.
Proof. induction s as [|c r IH]; simpl; congruence. Qed.

Lemma map_tolower_idem (s : string) :
  map_chars tolower (map_chars tolower s) = map_chars tolower s.
Proof.
  induction s as [|c r IH]; simpl; [reflexivity|].
  now rewrite tolower_idem, IH.
Qed.

Lemma truncate_S (n : nat) c (r : string) :
  truncate (S n) (String c r) = String c (truncate n r).
Proof. reflexivity. Qed.

Lemma truncate_0 (s : string) : truncate 0 s = "".
Proof. destruct s; reflexivity. Qed.

Lemma truncate_all (s : string) : truncate (String.length s) s = s.
Proof.
  induction s as [|c r IH]; [reflexivity|].
  simpl String.length. now rewrite truncate_S, IH.
Qed.

Lemma truncate_length (n : nat) (s : string) :
  n <= String.length s -> String.length (truncate n s) = n.
Proof.
  revert s; induction n as [|n IH]; intros s Hn.
  - now rewrite truncate_0.
  - destruct s as [|c r]; simpl in Hn; [lia|].
    rewrite truncate_S; simpl. rewrite IH; [reflexivity|lia].
Qed.

Lemma truncate_map_chars f (n : nat) (s : string) :
  truncate n (map_chars f s) = map_chars f (truncate n s).
Proof.
  revert s; induction n as [|n IH]; intros s.
  - now rewrite !truncate_0.
  - destruct s as [|c r]; [reflexivity|].
    simpl map_chars. rewrite !truncate_S. simpl. now rewrite IH.
Qed.

Lemma char_at_truncate (n i : nat) (s : string) :
  i < n -> char_at (truncate n s) i = char_at s i.
Proof.
  revert i s; induction n as [|n IH]; intros i s Hi; [lia|].
  destruct s as [|c r]; [reflexivity|].
  rewrite truncate_S. destruct i as [|i]; [reflexivity|].
  unfold char_at in *; simpl. apply IH; lia.
Qed.

Lemma strip_len_le (w : string) (n : nat) : strip_len w n <= n.
Proof.
  induction n as [|n IH]; simpl; [lia|].
  destruct (is_trailing_punct _); lia.
Qed.

(** Where the stripping loop stops, the last character kept is not one of
    the stripped ones. *)
Lemma strip_len_stop (w : string) (n m : nat) :
  strip_len w n = S m -> is_trailing_punct (char_at w m) = false.
Proof.
  induction n as [|n IH]; simpl; [discriminate|].
  destruct (is_trailing_punct (char_at w n)) eqn:E; [exact IH|].
  intros [= <-]; exact E.
Qed.

Lemma strip_len_fixed (w : string) (m : nat) :
  is_trailing_punct (char_at w m) = false -> strip_len w (S m) = S m.
Proof. simpl; now intros ->. Qed.

Lemma normalizeWord_empty : normalizeWord "" = "".
Proof. reflexivity. Qed.

(** A word that the normalizer accepts starts with a lowercase letter. *)
Lemma normalizeWord_accepts (t : string) (c : ascii) (r : string) :
  normalizeWord t = String c r ->
  isalpha c = true /\ exists c0, c = tolower c0.
Proof.
  unfold normalizeWord.
  set (low := map_chars tolower t). set (n := strip_len low (String.length t)).
  destruct (Nat.eqb n 0 || negb (isalpha (char_at (truncate n low) 0))) eqn:E;
    [discriminate|].
  apply orb_false_elim in E as [En Ea]. apply Nat.eqb_neq in En.
  intros Et. rewrite Et in Ea. apply negb_false_iff in Ea.
  split; [exact Ea|].
  destruct n as [|m]; [congruence|]. unfold low in Et.
  destruct t as [|c0 t']; [discriminate|].
  simpl map_chars in Et. rewrite truncate_S in Et. injection Et as <- _.
  now exists c0.
Qed.

(** No accepted word is one of the markers that [parseFile] skips. *)
Lemma accepted_not_metadata (t : string) :
  normalizeWord t <> "" -> is_metadata (normalizeWord t) = false.
Proof.
  intros Hne. destruct (normalizeWord t) as [|c r] eqn:E; [congruence|].
  destruct (normalizeWord_accepts t c r E) as [Ha [c0 ->]].
  revert Ha. clear.
  destruct c0 as [[] [] [] [] [] [] [] []]; intros Ha;
    try discriminate Ha; reflexivity.
Qed.

End NormalizeFacts.

Section NormalizeIdempotent.

Import InvertedIndex.

(** C9. Normalizing twice is normalizing once: for every token [t],
  [normalizeWord (normalizeWord t) = normalizeWord t]. *)
Theorem normalizeWord_idempotent (t : string) :
normalizeWord (normalizeWord t) = normalizeWord t.
Proof.
unfold normalizeWord at 2 3.
set (low := map_chars tolower t).
set (n := strip_len low (String.length t)).
destruct (Nat.eqb n 0 || negb (isalpha (char_at (truncate n low) 0))) eqn:E;
  [apply normalizeWord_empty|].
apply orb_false_elim in E as [En Ea].
apply Nat.eqb_neq in En.
destruct n as [|m] eqn:Hn; [congruence|].
assert (Hle : S m <= String.length low).
{ unfold low; rewrite map_chars_length. rewrite <- Hn. apply strip_len_le. }
assert (Hstop : is_trailing_punct (char_at low m) = false)
  by (eapply strip_len_stop; exact Hn).
unfold normalizeWord.
rewrite truncate_length by exact Hle.
assert (Hlow : map_chars tolower (truncate (S m) low) = truncate (S m) low).
{ rewrite <- truncate_map_chars. unfold low. now rewrite map_tolower_idem. }
rewrite Hlow.
rewrite strip_len_fixed by (rewrite char_at_truncate by lia; exact Hstop).
assert (Ht : truncate (S m) (truncate (S m) low) = truncate (S m) low).
{ pose proof (truncate_all (truncate (S m) low)) as H.
  now rewrite truncate_length in H by exact Hle. }
rewrite Ht. simpl Nat.eqb. now rewrite Ea.
Qed.

End NormalizeIdempotent.

(** ** Facts about the index tree *)

Section IndexFacts.

Import InvertedIndex IndexProps.

Lemma str_lt_sorted_NoDup (l : list string) : StronglySorted str_lt l -> NoDup l.
Proof.
  induction 1 as [|x l Hl IH Hx]; constructor; [|exact IH].
  intros Hin. rewrite Forall_forall in Hx.
  exact (irreflexivity str_lt x (Hx x Hin)).
Qed.

(** A strictly ascending list is determined by its elements. *)
Lemma str_lt_sorted_ext (l1 l2 : list string) :
  StronglySorted str_lt l1 -> StronglySorted str_lt l2 ->
  (forall x, x ∈ l1 <-> x ∈ l2) -> l1 = l2.
Proof.
  intros H1 H2 Hex.
  apply (StronglySorted_unique_strong str_lt); [|exact H1|exact H2|].
  - intros x1 x2 _ _ Ha Hb. destruct (str_lt_asym _ _ Ha Hb).
  - apply NoDup_Permutation; auto using str_lt_sorted_NoDup.
Qed.

Lemma addFilename_elem (fl : list string) (f x : string) :
  x ∈ addFilename fl f <-> x = f \/ x ∈ fl.
Proof.
  induction fl as [|c next IH]; simpl.
  - unfold createFileNode. rewrite list_elem_of_singleton, elem_of_nil. tauto.
  - destruct (Z.ltb_spec (strcmp c f) 0).
    { rewrite !elem_of_cons, IH. tauto. }
    destruct (Z.eqb_spec (strcmp c f) 0) as [E|E].
    + apply strcmp_eq in E; subst. rewrite !elem_of_cons. tauto.
    + rewrite !elem_of_cons. tauto.
Qed.

Lemma addFilename_nonempty (fl : list string) (f : string) : addFilename fl f <> [].
Proof.
  intros E. assert (H : f ∈ addFilename fl f) by (apply addFilename_elem; now left).
  rewrite E in H. now apply not_elem_of_nil in H.
Qed.

Lemma addFilename_sorted (fl : list string) (f : string) :
  StronglySorted str_lt fl -> StronglySorted str_lt (addFilename fl f).
Proof.
  induction 1 as [|c next Hn IH Hc]; simpl.
  - repeat constructor.
  - destruct (Z.ltb_spec (strcmp c f) 0) as [Hlt|Hge].
    + constructor; [exact IH|].
      rewrite Forall_forall in *. intros x Hx.
      apply addFilename_elem in Hx as [->|Hx]; [exact Hlt|auto].
    + destruct (Z.eqb_spec (strcmp c f) 0) as [E|E]; [now constructor|].
      assert (Hfc : str_lt f c) by (apply strcmp_flip; lia).
      constructor; [now constructor|].
      constructor; [exact Hfc|].
      rewrite Forall_forall in *. intros x Hx. etrans; [exact Hfc|auto].
Qed.

(** Adding a name the list already holds changes nothing. *)
Lemma addFilename_noop (fl : list string) (f : string) :
  StronglySorted str_lt fl -> f ∈ fl -> addFilename fl f = fl.
Proof.
  induction 1 as [|c next Hn IH Hc]; intros Hin; [now apply not_elem_of_nil in Hin|].
  simpl. destruct (Z.ltb_spec (strcmp c f) 0) as [Hlt|Hge].
  - f_equal. apply IH. apply elem_of_cons in Hin as [->|Hin]; [|exact Hin].
    rewrite strcmp_refl in Hlt; lia.
  - destruct (Z.eqb_spec (strcmp c f) 0) as [E|E]; [reflexivity|].
    exfalso. apply elem_of_cons in Hin as [->|Hin].
    + rewrite strcmp_refl in E; lia.
    + rewrite Forall_forall in Hc. specialize (Hc f Hin). unfold str_lt in Hc. lia.
Qed.

Lemma words_insertWord (t : TreeNode) (w f x : string) :
  x ∈ words (insertWord t w f) <-> x = w \/ x ∈ words t.
Proof.
  unfold words. induction t as [|w0 fl l IHl r IHr]; simpl.
  - rewrite list_elem_of_singleton, elem_of_nil. tauto.
  - destruct (Z.ltb_spec (strcmp w w0) 0) as [Hlt|Hge];
      [|destruct (Z.gtb_spec (strcmp w w0) 0) as [Hgt|Hle]]; simpl;
      rewrite ?fmap_app, ?fmap_cons, ?elem_of_app, ?elem_of_cons in *; simpl.
    + rewrite IHl. tauto.
    + rewrite IHr. tauto.
    + assert (w = w0) by (apply strcmp_eq; lia). subst. tauto.
Qed.

Lemma insertWord_ok (t : TreeNode) (w f : string) :
  tree_ok t -> tree_ok (insertWord t w f).
Proof.
  induction t as [|w0 fl l IHl r IHr]; simpl.
  - intros _. unfold createFileNode. repeat split; try (intros x Hx; inversion Hx).
    + repeat constructor.
    + discriminate.
  - intros (Hl & Hr & Hlw & Hrw & Hfl & Hne).
    destruct (Z.ltb_spec (strcmp w w0) 0) as [Hlt|Hge];
      [|destruct (Z.gtb_spec (strcmp w w0) 0) as [Hgt|Hle]]; simpl.
    + repeat split; auto. intros x Hx.
      apply words_insertWord in Hx as [->|Hx]; auto.
    + repeat split; auto. intros x Hx.
      apply words_insertWord in Hx as [->|Hx]; auto.
      apply strcmp_flip; lia.
    + repeat split; auto using addFilename_sorted, addFilename_nonempty.
Qed.

Lemma insertAll_ok (ops : list (string * string)) (t : TreeNode) :
  tree_ok t -> tree_ok (insertAll ops t).
Proof.
  revert t; induction ops as [|op ops IH]; intros t Ht; [exact Ht|].
  apply IH, insertWord_ok, Ht.
Qed.

Lemma tree_ok_index_ok (t : TreeNode) : tree_ok t -> index_ok (printInvertedIndex t).
Proof.
  unfold index_ok. induction t as [|w fl l IHl r IHr]; simpl.
  - intros _. split; constructor.
  - intros (Hl & Hr & Hlw & Hrw & Hfl & Hne).
    destruct (IHl Hl) as [Sl Fl], (IHr Hr) as [Sr Fr].
    split.
    + rewrite fmap_app, fmap_cons. simpl.
      apply StronglySorted_app. repeat split; [|exact Sl|].
      * intros x1 x2 H1 H2. apply elem_of_cons in H2 as [->|H2]; [auto|].
        etrans; [apply Hlw, H1|apply Hrw, H2].
      * constructor; [exact Sr|]. apply Forall_forall. exact Hrw.
    + apply Forall_app. split; [exact Fl|]. constructor; [split; assumption|exact Fr].
Qed.

Lemma lists_app (o1 o2 : list (string * list string)) (w f : string) :
  lists (o1 ++ o2) w f <-> lists o1 w f \/ lists o2 w f.
Proof.
  unfold lists. split.
  - intros (fl & Hin & Hf). apply elem_of_app in Hin as [Hin|Hin]; eauto.
  - intros [(fl & Hin & Hf)|(fl & Hin & Hf)]; exists fl; rewrite elem_of_app; auto.
Qed.

Lemma lists_cons (w0 : string) (fl0 : list string) o (w f : string) :
  lists ((w0, fl0) :: o) w f <-> (w = w0 /\ f ∈ fl0) \/ lists o w f.
Proof.
  unfold lists. split.
  - intros (fl & Hin & Hf). apply elem_of_cons in Hin as [[= -> ->]|Hin]; eauto.
  - intros [[-> Hf]|(fl & Hin & Hf)]; [exists fl0|exists fl];
      rewrite elem_of_cons; auto.
Qed.

Lemma lists_nil (w f : string) : lists [] w f <-> False.
Proof. unfold lists. split; [|tauto]. intros (fl & Hin & _). inversion Hin. Qed.

(** An insertion adds its pair to what the index lists, and nothing else. *)
Lemma lists_insertWord (t : TreeNode) (w f w' f' : string) :
  lists (printInvertedIndex (insertWord t w f)) w' f'
  <-> (w' = w /\ f' = f) \/ lists (printInvertedIndex t) w' f'.
Proof.
  induction t as [|w0 fl l IHl r IHr]; simpl.
  - unfold createFileNode. rewrite lists_cons, lists_nil, list_elem_of_singleton. tauto.
  - destruct (Z.ltb_spec (strcmp w w0) 0) as [Hlt|Hge];
      [|destruct (Z.gtb_spec (strcmp w w0) 0) as [Hgt|Hle]]; simpl;
      rewrite !lists_app, !lists_cons.
    + rewrite IHl. tauto.
    + rewrite IHr. tauto.
    + assert (w = w0) by (apply strcmp_eq; lia). subst.
      rewrite addFilename_elem. tauto.
Qed.

Lemma lists_insertAll (ops : list (string * string)) (t : TreeNode) (w f : string) :
  lists (printInvertedIndex (insertAll ops t)) w f
  <-> (w, f) ∈ ops \/ lists (printInvertedIndex t) w f.
Proof.
  revert t; induction ops as [|[w0 f0] ops IH]; intros t; simpl.
  - rewrite elem_of_nil. tauto.
  - rewrite IH, lists_insertWord, elem_of_cons. simpl.
    split; [intros [?|[[-> ->]|?]]|intros [[[= -> ->]|?]|?]]; auto.
Qed.

(** In a well-formed index, what the first line lists is read off directly. *)
Lemma lists_head (w0 : string) (fl0 : list string) o (f : string) :
  StronglySorted str_lt (w0 :: o.*1) ->
  lists ((w0, fl0) :: o) w0 f <-> f ∈ fl0.
Proof.
  intros Hs. rewrite lists_cons. split; [|auto].
  intros [[_ Hf]|(fl & Hin & _)]; [exact Hf|exfalso].
  apply StronglySorted_cons in Hs as [Hall _]. rewrite Forall_forall in Hall.
  apply (irreflexivity str_lt w0), Hall.
  apply list_elem_of_fmap. now exists (w0, fl).
Qed.

Lemma lists_word (o : list (string * list string)) (w f : string) :
  lists o w f -> w ∈ o.*1.
Proof. intros (fl & Hin & _). apply list_elem_of_fmap. now exists (w, fl). Qed.

(** A well-formed index is determined by what it lists. *)
Lemma index_ok_ext (o1 o2 : list (string * list string)) :
  index_ok o1 -> index_ok o2 ->
  (forall w f, lists o1 w f <-> lists o2 w f) -> o1 = o2.
Proof.
  revert o2; induction o1 as [|[w1 fl1] o1 IH]; intros [|[w2 fl2] o2] [S1 F1] [S2 F2] Hex.
  - reflexivity.
  - exfalso. apply Forall_cons in F2 as [[_ Hne] _]. simpl in Hne.
    destruct fl2 as [|f fl2]; [congruence|].
    apply (lists_nil w2 f), Hex, lists_cons. left; split; [reflexivity|left].
  - exfalso. apply Forall_cons in F1 as [[_ Hne] _]. simpl in Hne.
    destruct fl1 as [|f fl1]; [congruence|].
    apply (lists_nil w1 f), Hex, lists_cons. left; split; [reflexivity|left].
  - rewrite !fmap_cons in S1, S2; simpl in S1, S2.
    apply Forall_cons in F1 as [[Sf1 Hne1] F1], F2 as [[Sf2 Hne2] F2]. simpl in *.
    assert (Hle : forall wa fa oa wb fb ob,
               StronglySorted str_lt (wb :: ob.*1) -> fa <> [] ->
               (forall w f, lists ((wa, fa) :: oa) w f -> lists ((wb, fb) :: ob) w f) ->
               wa = wb \/ str_lt wb wa).
    { intros wa fa oa wb fb ob Sb Hne Hsub.
      destruct fa as [|f fa]; [congruence|].
      assert (H : lists ((wb, fb) :: ob) wa f).
      { apply Hsub, lists_cons. left; split; [reflexivity|left]. }
      apply lists_cons in H as [[-> _]|H]; [now left|right].
      apply StronglySorted_cons in Sb as [Hall _]. rewrite Forall_forall in Hall.
      eapply Hall, lists_word, H. }
    assert (w1 = w2) as ->.
    { destruct (Hle w1 fl1 o1 w2 fl2 o2 S2 Hne1) as [E|L1]; [apply Hex|exact E|].
      destruct (Hle w2 fl2 o2 w1 fl1 o1 S1 Hne2) as [E|L2]; [apply Hex|now symmetry|].
      destruct (str_lt_asym _ _ L1 L2). }
    assert (fl1 = fl2) as ->.
    { apply str_lt_sorted_ext; [exact Sf1|exact Sf2|]. intros f.
      rewrite <- (lists_head w2 fl1 o1 f S1), <- (lists_head w2 fl2 o2 f S2).
      apply Hex. }
    f_equal. apply IH.
    + split; [now apply StronglySorted_cons in S1|exact F1].
    + split; [now apply StronglySorted_cons in S2|exact F2].
    + assert (Hrest : forall fa oa fb ob,
                 StronglySorted str_lt (w2 :: oa.*1) ->
                 (forall w f, lists ((w2, fa) :: oa) w f -> lists ((w2, fb) :: ob) w f) ->
                 forall w f, lists oa w f -> lists ob w f).
      { intros fa oa fb ob Sa Hsub w f H.
        assert (H' : lists ((w2, fb) :: ob) w f) by (apply Hsub, lists_cons; auto).
        apply lists_cons in H' as [[-> _]|H']; [exfalso|exact H'].
        apply StronglySorted_cons in Sa as [Hall _]. rewrite Forall_forall in Hall.
        eapply (irreflexivity str_lt w2), Hall, lists_word, H. }
      intros w f; split.
      * apply (Hrest fl2 o1 fl2 o2 S1). intros; now apply Hex.
      * apply (Hrest fl2 o2 fl2 o1 S2). intros; now apply Hex.
Qed.

(** Inserting a pair that the index already lists changes nothing. *)
Lemma insertWord_noop (t : TreeNode) (w f : string) :
  tree_ok t -> lists (printInvertedIndex t) w f -> insertWord t w f = t.
Proof.
  induction t as [|w0 fl l IHl r IHr]; simpl.
  - intros _ H. now apply lists_nil in H.
  - intros (Hl & Hr & Hlw & Hrw & Hfl & Hne) H.
    apply lists_app in H. rewrite lists_cons in H.
    destruct (Z.ltb_spec (strcmp w w0) 0) as [Hlt|Hge];
      [|destruct (Z.gtb_spec (strcmp w w0) 0) as [Hgt|Hle]].
    + f_equal. apply IHl; [exact Hl|].
      destruct H as [H|[[-> _]|H]]; [exact H|rewrite strcmp_refl in Hlt; lia|].
      apply lists_word, Hrw in H. destruct (str_lt_asym _ _ H Hlt).
    + f_equal. apply IHr; [exact Hr|].
      assert (Hgt' : str_lt w0 w) by (apply strcmp_flip; lia).
      destruct H as [H|[[-> _]|H]]; [|rewrite strcmp_refl in Hgt; lia|exact H].
      apply lists_word, Hlw in H. destruct (str_lt_asym _ _ H Hgt').
    + assert (w = w0) by (apply strcmp_eq; lia). subst.
      f_equal. apply addFilename_noop; [exact Hfl|].
      destruct H as [H|[[_ H]|H]]; [|exact H|].
      * apply lists_word, Hlw in H. destruct (irreflexivity str_lt _ H).
      * apply lists_word, Hrw in H. destruct (irreflexivity str_lt _ H).
Qed.

(** What [parseFile] and [main] do, as a sequence of insertions. *)
Lemma parseWord_posting (filename : string) (root : TreeNode) (word : string) :
  parseWord filename root word
  = insertAll (option_list (posting filename word)) root.
Proof.
  unfold parseWord, posting.
  destruct (is_metadata word); [reflexivity|].
  destruct (looks_like_filename word); [reflexivity|].
  now destruct (0 <? String.length (normalizeWord word))%nat.
Qed.

Lemma insertAll_app (ops1 ops2 : list (string * string)) (t : TreeNode) :
  insertAll (ops1 ++ ops2) t = insertAll ops2 (insertAll ops1 t).
Proof. apply fold_left_app. Qed.

Lemma parseFile_postings (fs : filesystem) (filename : string) (root : TreeNode) :
  parseFile fs filename root = insertAll (filePostings fs filename) root.
Proof.
  unfold parseFile, filePostings.
  destruct (fs (filename +:+ ".txt")) as [content|]; [|reflexivity].
  generalize (fscanf_words content) as ws. intros ws; revert root.
  induction ws as [|w ws IH]; intros root; [reflexivity|].
  simpl fold_left. rewrite IH, parseWord_posting. simpl omap.
  destruct (posting filename w); reflexivity.
Qed.

Lemma parseFiles_postings (fs : filesystem) (names : list string) (root : TreeNode) :
  fold_left (fun root filename => parseFile fs filename root) names root
  = insertAll (names ≫= filePostings fs) root.
Proof.
  revert root; induction names as [|n names IH]; intros root; [reflexivity|].
  simpl fold_left. rewrite IH, parseFile_postings. simpl mbind.
  now rewrite insertAll_app.
Qed.

End IndexFacts.

Section IndexTheorems.

Import InvertedIndex IndexProps Sections Examples Claimed.

Lemma main_insertAll (fs : filesystem) (collection : string) :
  fs "collection.txt" = Some collection ->
  InvertedIndex.main fs true
  = (0%Z, printInvertedIndex
            (insertAll (fscanf_words collection ≫= filePostings fs) NULL)).
Proof. intros E. unfold InvertedIndex.main. now rewrite E, parseFiles_postings. Qed.

Lemma filePostings_same (fs fs' : filesystem) (name : string) (p : string * string) :
  same_up_to_token_order fs fs' ->
  p ∈ filePostings fs name -> p ∈ filePostings fs' name.
Proof.
  intros [_ H]. specialize (H name). unfold filePostings.
  destruct (fs (name +:+ ".txt")) as [c|], (fs' (name +:+ ".txt")) as [c'|];
    try tauto.
  rewrite !list_elem_of_omap. intros (x & Hx & E). exists x. split; [|exact E].
  now rewrite <- H.
Qed.

Lemma same_up_to_token_order_sym (fs fs' : filesystem) :
  same_up_to_token_order fs fs' -> same_up_to_token_order fs' fs.
Proof.
  intros [E H]. split; [now symmetry|]. intros name. specialize (H name).
  destruct (fs (name +:+ ".txt")), (fs' (name +:+ ".txt")); try tauto.
  now symmetry.
Qed.

(** C6. Whatever the collection, the index written lists its terms in
    strictly ascending order, and the documents of each term in strictly
    ascending order without duplicates; a collection whose documents hold
    the same words in another order gives the same index; and inserting a
    (term, document) pair that was inserted before leaves the tree as it is. *)
Theorem index_sorted_and_order_independent (fs : filesystem) :
  Sorted str_lt (InvertedIndex.main fs true).2.*1 /\
  Forall (fun line => Sorted str_lt line.2 /\ NoDup line.2)
         (InvertedIndex.main fs true).2 /\
  (forall fs', same_up_to_token_order fs fs' ->
               InvertedIndex.main fs' true = InvertedIndex.main fs true) /\
  (forall ops w f, (w, f) ∈ ops ->
     insertWord (insertAll ops NULL) w f = insertAll ops NULL).
Proof.
  assert (Hnoop : forall ops w f, (w, f) ∈ ops ->
            insertWord (insertAll ops NULL) w f = insertAll ops NULL).
  { intros ops w f Hin. apply insertWord_noop.
    - now apply insertAll_ok.
    - apply lists_insertAll. now left. }
  destruct (fs "collection.txt") as [collection|] eqn:E.
  - rewrite (main_insertAll fs collection E). simpl.
    set (ops := fscanf_words collection ≫= filePostings fs).
    assert (Hok : index_ok (printInvertedIndex (insertAll ops NULL)))
      by (apply tree_ok_index_ok, insertAll_ok; exact I).
    destruct Hok as [Hs Hf]. repeat split.
    + now apply StronglySorted_Sorted.
    + eapply Forall_impl; [exact Hf|]. intros line [Hl _].
      split; [now apply StronglySorted_Sorted|now apply str_lt_sorted_NoDup].
    + intros fs' Hsame. pose proof Hsame as [Ec _].
      rewrite (main_insertAll fs' collection) by now rewrite Ec.
      f_equal. apply index_ok_ext.
      * apply tree_ok_index_ok, insertAll_ok; exact I.
      * split; assumption.
      * intros w f. rewrite !lists_insertAll, !lists_nil. unfold ops.
        rewrite !list_elem_of_bind.
        split; intros [(n & Hp & Hn)|[]]; left; exists n; split; auto;
          eapply filePostings_same; eauto using same_up_to_token_order_sym.
    + exact Hnoop.
  - unfold InvertedIndex.main. rewrite E. simpl. repeat split.
    + constructor.
    + constructor.
    + intros fs' [Ec _]. now rewrite Ec, E.
    + exact Hnoop.
Qed.

Lemma alpha_fs_same_words : same_up_to_token_order alpha_fs alpha_fs'.
Proof.
  split; [reflexivity|]. intros name. unfold alpha_fs, alpha_fs'. simpl.
  destruct (String.eqb (name +:+ ".txt") "collection.txt"); [reflexivity|].
  destruct (String.eqb (name +:+ ".txt") "alpha.txt").
  - vm_compute. repeat first [apply perm_swap | apply perm_skip].
  - destruct (String.eqb (name +:+ ".txt") "beta.txt"); [reflexivity|exact I].
Defined.

Lemma index_sorted_and_order_independent_witness :
  same_up_to_token_order alpha_fs alpha_fs' /\
  InvertedIndex.main alpha_fs' true = InvertedIndex.main alpha_fs true.
Proof.
  split; [exact alpha_fs_same_words|].
  apply (index_sorted_and_order_independent alpha_fs), alpha_fs_same_words.
Defined.

(** What [parseFile] does with one file, word by word. *)
Lemma lists_parseFile (fs : filesystem) (filename w f : string) :
  lists (printInvertedIndex (parseFile fs filename NULL)) w f
  <-> (w, f) ∈ filePostings fs filename.
Proof. rewrite parseFile_postings, lists_insertAll, lists_nil. tauto. Qed.

(** C7, amended. [parseFile] indexes the words of the whole file, whatever
    section they are in: the index lists [w] for [f] exactly when [f] is the
    file parsed and [w] is the non-empty normalization of a word of the file
    that does not start with [#start] or [#end], is not [Section-1] or
    [Section-2], and is not [url] followed by a digit. No term of the index
    is one of those markers. *)
Theorem parseFile_indexes_unfiltered_words (fs : filesystem) (filename w f : string) :
  (lists (printInvertedIndex (parseFile fs filename NULL)) w f
   <-> f = filename /\ w <> "" /\
       exists content t,
         fs (filename +:+ ".txt") = Some content /\
         t ∈ fscanf_words content /\
         is_metadata t = false /\ looks_like_filename t = false /\
         normalizeWord t = w) /\
  (lists (printInvertedIndex (parseFile fs filename NULL)) w f ->
   is_metadata w = false).
Proof.
  assert (Hiff :
    lists (printInvertedIndex (parseFile fs filename NULL)) w f
    <-> f = filename /\ w <> "" /\
        exists content t,
          fs (filename +:+ ".txt") = Some content /\
          t ∈ fscanf_words content /\
          is_metadata t = false /\ looks_like_filename t = false /\
          normalizeWord t = w); [|split; [exact Hiff|]].
  2: { intros H. apply Hiff in H as (_ & Hne & _ & t & _ & _ & _ & _ & <-).
       now apply accepted_not_metadata. }
  rewrite lists_parseFile. unfold filePostings.
  destruct (fs (filename +:+ ".txt")) as [content|].
  - rewrite list_elem_of_omap. unfold posting. split.
    + intros (t & Ht & E).
      destruct (is_metadata t) eqn:Em; [discriminate|].
      destruct (looks_like_filename t) eqn:El; [discriminate|].
      destruct (Nat.ltb_spec 0 (String.length (normalizeWord t))) as [Hlen|Hlen];
        [|discriminate].
      injection E as <- <-. split; [reflexivity|]. split.
      * intros E0. rewrite E0 in Hlen. simpl in Hlen. lia.
      * exists content, t. auto.
    + intros (-> & Hne & c & t & [= <-] & Ht & Em & El & <-).
      exists t. split; [exact Ht|]. rewrite Em, El.
      destruct (normalizeWord t) eqn:En; [congruence|reflexivity].
  - rewrite elem_of_nil. split; [tauto|].
    intros (_ & _ & c & t & E & _). discriminate.
Qed.

Lemma parseFile_indexes_unfiltered_words_witness :
  lists (printInvertedIndex (parseFile alpha_fs "alpha" NULL)) "beta" "alpha" /\
  is_metadata "beta" = false.
Proof.
  assert (H : lists (printInvertedIndex (parseFile alpha_fs "alpha" NULL))
                    "beta" "alpha").
  { apply lists_parseFile.
    assert (Ep : filePostings alpha_fs "alpha"
                 = [("beta", "alpha"); ("hello", "alpha"); ("world", "alpha")])
      by (vm_compute; reflexivity).
    rewrite Ep, !elem_of_cons. auto. }
  split; [exact H|].
  exact (proj2 (parseFile_indexes_unfiltered_words alpha_fs "alpha" "beta" "alpha") H).
Defined.

(** C7 as stated fails: the reference [beta] in the link section of [alpha]
    becomes a term of the index, and no token of the body section
    normalizes to it. *)
Lemma link_section_token_indexed : ~ only_body_tokens_indexed alpha_fs "alpha".
Proof.
  intros H. destruct (H "beta" "alpha") as (content & t & E & Ht & Hn).
  - apply lists_parseFile.
    assert (Ep : filePostings alpha_fs "alpha"
                 = [("beta", "alpha"); ("hello", "alpha"); ("world", "alpha")])
      by (vm_compute; reflexivity).
    rewrite Ep, !elem_of_cons. auto.
  - injection E as <-.
    assert (Eb : bodyTokens alpha_doc = ["hello"; "world"])
      by (vm_compute; reflexivity).
    rewrite Eb, !elem_of_cons, elem_of_nil in Ht.
    destruct Ht as [->|[->|[]]]; vm_compute in Hn; discriminate.
Qed.

End IndexTheorems.

(** ** Facts about the query engine *)

Section SearchFacts.

Import SearchPagerank SearchProps Examples Claimed.

Lemma add_matches_ext (n m : string -> Z) (prl : PageRankList) :
  (forall name, n name = m name) -> add_matches n prl = add_matches m prl.
Proof.
  intros H. unfold add_matches. apply map_ext. intros e. now rewrite H.
Qed.

Lemma add_matches_zero (prl : PageRankList) : add_matches (fun _ => 0%Z) prl = prl.
Proof.
  unfold add_matches. induction prl as [|[u c r] prl IH]; simpl; [reflexivity|].
  rewrite IH. now rewrite Z.add_0_r.
Qed.

Lemma add_matches_add (n m : string -> Z) (prl : PageRankList) :
  add_matches m (add_matches n prl) = add_matches (fun x => n x + m x)%Z prl.
Proof.
  unfold add_matches. rewrite map_map. apply map_ext. intros e; simpl.
  now rewrite Z.add_assoc.
Qed.

Lemma countURL_add (prl : PageRankList) (u : string) :
  countURL prl u = add_matches (fun name => urlHits name u) prl.
Proof.
  unfold countURL, add_matches, urlHits. apply map_ext. intros [n c r]; simpl.
  rewrite strcmp_eqb. destruct (decide (u = n)) as [E|E].
  - now rewrite bool_decide_eq_true_2.
  - rewrite bool_decide_eq_false_2 by exact E. now rewrite Z.add_0_r.
Qed.

Lemma countURLs_add (us : list string) (prl : PageRankList) :
  fold_left countURL us prl
  = add_matches (fun name => foldr (fun u n => urlHits name u + n)%Z 0%Z us) prl.
Proof.
  revert prl; induction us as [|u us IH]; intros prl; simpl.
  - now rewrite add_matches_zero.
  - now rewrite IH, countURL_add, add_matches_add.
Qed.

Lemma countEntry_add (term : string) (prl : PageRankList) (e : WordEntry) :
  countEntry term prl e = add_matches (fun name => entryHits term name e) prl.
Proof.
  unfold countEntry, entryHits. rewrite strcmp_eqb.
  destruct (decide (term = word e)) as [E|E].
  - rewrite bool_decide_eq_true_2 by exact E. apply countURLs_add.
  - rewrite bool_decide_eq_false_2 by exact E. now rewrite add_matches_zero.
Qed.

Lemma countTerm_add (idx : list WordEntry) (prl : PageRankList) (term : string) :
  countTerm idx prl term = add_matches (fun name => termHits idx name term) prl.
Proof.
  unfold countTerm, termHits. revert prl; induction idx as [|e idx IH]; intros prl; simpl.
  - now rewrite add_matches_zero.
  - now rewrite IH, countEntry_add, add_matches_add.
Qed.

(** The counters after the loops of [findMatchingURLs], for any index, any
    rank table and any query. *)
Lemma findMatchingURLs_hits (idx : list WordEntry) (prl : PageRankList)
  (terms : list string) :
  (findMatchingURLs idx prl terms).1 = add_matches (hits idx terms) prl.
Proof.
  unfold findMatchingURLs, hits; simpl.
  revert prl; induction terms as [|t terms IH]; intros prl; simpl.
  - now rewrite add_matches_zero.
  - now rewrite IH, countTerm_add, add_matches_add.
Qed.

Lemma urlHits_absent (name : string) (us : list string) :
  name ∉ us -> foldr (fun u n => urlHits name u + n)%Z 0%Z us = 0%Z.
Proof.
  induction us as [|u us IH]; simpl; [reflexivity|].
  rewrite not_elem_of_cons. intros [Hne Hni]. rewrite IH by exact Hni.
  unfold urlHits. now rewrite decide_False by congruence.
Qed.

Lemma urlHits_NoDup (name : string) (us : list string) :
  NoDup us ->
  foldr (fun u n => urlHits name u + n)%Z 0%Z us
  = if decide (name ∈ us) then 1%Z else 0%Z.
Proof.
  induction 1 as [|u us Hni Hnd IH]; cbn [foldr].
  - rewrite decide_False; [reflexivity|apply not_elem_of_nil].
  - unfold urlHits at 1. destruct (decide (u = name)) as [->|Hne].
    + rewrite urlHits_absent by exact Hni.
      rewrite decide_True; [reflexivity|left].
    + rewrite IH. destruct (decide (name ∈ us)) as [Hin|Hin].
      * rewrite decide_True; [reflexivity|now right].
      * rewrite decide_False; [reflexivity|].
        rewrite not_elem_of_cons; split; congruence.
Qed.

Lemma termHits_absent (idx : list WordEntry) (name term : string) :
  term ∉ word <$> idx -> termHits idx name term = 0%Z.
Proof.
  unfold termHits. induction idx as [|e idx IH]; simpl; [reflexivity|].
  rewrite not_elem_of_cons. intros [Hne Hni]. rewrite IH by exact Hni.
  unfold entryHits. now rewrite decide_False by exact Hne.
Qed.

(** In a well-formed index a term scores one for a document of its set. *)
Lemma termHits_wf (idx : list WordEntry) (name term : string) :
  index_wf idx ->
  termHits idx name term = if decide (term_matches idx term name) then 1%Z else 0%Z.
Proof.
  unfold index_wf, term_matches. intros [Hw Hu].
  induction idx as [|e idx IH]; unfold termHits; cbn [foldr].
  - rewrite decide_False; [reflexivity|]. intros H; inversion H.
  - rewrite fmap_cons in Hw. apply NoDup_cons in Hw as [Hni Hw].
    apply Forall_cons in Hu as [Hue Hu]. specialize (IH Hw Hu).
    unfold entryHits. destruct (decide (term = word e)) as [->|Hne].
    + change (foldr _ 0%Z idx) with (termHits idx name (word e)).
      rewrite termHits_absent by exact Hni. rewrite urlHits_NoDup by exact Hue.
      destruct (decide (name ∈ urls e)) as [Hin|Hin].
      * rewrite decide_True; [reflexivity|]. now left.
      * rewrite decide_False; [reflexivity|].
        intros H. apply Exists_cons in H as [[_ H]|H]; [tauto|].
        apply Hni. apply Exists_exists in H as (e' & He' & Ew & _).
        rewrite <- Ew. now apply list_elem_of_fmap_2.
    + change (foldr _ 0%Z idx) with (termHits idx name term). rewrite IH.
      destruct (decide (Exists _ idx)) as [H|H].
      * rewrite decide_True; [reflexivity|]. now right.
      * rewrite decide_False; [reflexivity|].
        intros H'. apply Exists_cons in H' as [[E _]|H']; [congruence|tauto].
Qed.

Lemma hits_wf (idx : list WordEntry) (terms : list string) (name : string) :
  index_wf idx ->
  hits idx terms name = Z.of_nat (length (matching_terms idx terms name)).
Proof.
  intros Hwf. unfold hits, matching_terms.
  induction terms as [|t terms IH]; simpl; [reflexivity|].
  rewrite IH, termHits_wf by exact Hwf. rewrite filter_cons.
  destruct (decide (term_matches idx t name)); simpl length; lia.
Qed.

Lemma remove_dups_NoDup (l : list string) : NoDup l -> remove_dups l = l.
Proof.
  induction 1 as [|x l Hni Hnd IH]; cbn [remove_dups]; [reflexivity|].
  destruct (decide_rel elem_of x l) as [Hin|_]; [contradiction|]. now rewrite IH.
Qed.

(** C5, amended. For an index with one entry per word and no document twice
    in an entry, and a rank table whose counters start at 0, the counter of
    each document ends as the number of query terms, each counted as many
    times as it occurs on the command line, whose document set contains the
    document; it is the number of distinct such terms when no term is
    supplied twice. *)
Theorem matchCount_counts_term_occurrences (wordEntries : list WordEntry)
  (pageRankList : PageRankList) (searchTerms : list string) :
  index_wf wordEntries ->
  Forall (fun e => matchCount e = 0%Z) pageRankList ->
  (findMatchingURLs wordEntries pageRankList searchTerms).1
  = map (fun e =>
           mkURL (url e)
                 (Z.of_nat (length (matching_terms wordEntries searchTerms (url e))))
                 (pageRank e))
        pageRankList
  /\ (NoDup searchTerms ->
       counts_distinct_terms wordEntries pageRankList searchTerms).
Proof.
  intros Hwf Hzero.
  assert (E : (findMatchingURLs wordEntries pageRankList searchTerms).1
              = map (fun e =>
                  mkURL (url e)
                    (Z.of_nat (length (matching_terms wordEntries searchTerms (url e))))
                    (pageRank e)) pageRankList).
  { rewrite findMatchingURLs_hits. unfold add_matches.
    induction Hzero as [|e prl He Hz IH]; simpl; [reflexivity|].
    rewrite IH, He, hits_wf by exact Hwf. reflexivity. }
  split; [exact E|].
  intros Hnd e He. rewrite E in He.
  apply list_elem_of_fmap in He as (e0 & -> & _). simpl.
  rewrite remove_dups_NoDup; [reflexivity|].
  unfold matching_terms. now apply NoDup_filter.
Qed.

Lemma cat_index_wf : index_wf cat_index.
Proof.
  split.
  - simpl. apply NoDup_singleton.
  - constructor; [apply NoDup_singleton|constructor].
Defined.

Lemma matchCount_counts_term_occurrences_witness :
  index_wf cat_index /\
  Forall (fun e => matchCount e = 0%Z) cat_ranks /\
  (findMatchingURLs cat_index cat_ranks ["cat"; "cat"]).1
  = [mkURL "A" (Z.of_nat (length (matching_terms cat_index ["cat"; "cat"] "A")))
           (1 # 2)].
Proof.
  split; [exact cat_index_wf|]. split; [repeat constructor|].
  apply (matchCount_counts_term_occurrences cat_index cat_ranks ["cat"; "cat"]).
  - exact cat_index_wf.
  - repeat constructor.
Defined.

(** C5 as stated fails: the term [cat] supplied twice counts twice for the
    document [A], though one distinct term matches it. *)
Lemma repeated_term_counts_twice :
  ~ counts_distinct_terms cat_index cat_ranks ["cat"; "cat"].
Proof.
  intros H. specialize (H (mkURL "A" 2 (1 # 2))).
  assert (E : (findMatchingURLs cat_index cat_ranks ["cat"; "cat"]).1
              = [mkURL "A" 2 (1 # 2)]) by (vm_compute; reflexivity).
  rewrite E in H. specialize (H (list_elem_of_here _ _)).
  vm_compute in H. discriminate H.
Qed.

End SearchFacts.

(** ** Facts about the rank iteration *)

Section LoopFacts.

Import PageRank RankProps.

Context {D : Type} `{!Arith D}.

#[local] Abbreviation Page := (@PageRank.Page D).
#[local] Abbreviation PRState := (@PageRank.PRState D).

Variables (N : nat) (d diffPR : D) (maxIterations : Z).

Lemma iter_iteration (k : nat) (st : PRState) :
  st_iteration (Nat.iter k (iterate N d) st) = (st_iteration st + Z.of_nat k)%Z.
Proof.
  induction k as [|k IH]; [simpl; lia|].
  rewrite Nat.iter_succ. unfold iterate at 1. simpl st_iteration. rewrite IH. lia.
Qed.

(** The loop leaves after [k >= 1] turns, at the first turn after which its
    condition fails, provided it is given enough turns. *)
Lemma loop_exits (fuel : nat) (st : PRState) :
  (1 <= fuel)%nat ->
  (Z.to_nat (maxIterations - st_iteration st) <= fuel)%nat ->
  exists k : nat,
    (1 <= k <= fuel)%nat /\
    calculatePageRank_loop fuel N d diffPR maxIterations st
    = Some (Nat.iter k (iterate N d) st) /\
    continues diffPR maxIterations (Nat.iter k (iterate N d) st) = false /\
    forall j : nat, (1 <= j < k)%nat ->
      continues diffPR maxIterations (Nat.iter j (iterate N d) st) = true.
Proof.
  revert st; induction fuel as [|fuel IH]; intros st H1 Hfuel; [lia|].
  simpl calculatePageRank_loop.
  destruct (continues diffPR maxIterations (iterate N d st)) eqn:Ec.
  - assert (Hit : (st_iteration st + 1 < maxIterations)%Z).
    { unfold continues in Ec. apply andb_prop in Ec as [Ec _].
      apply Z.ltb_lt in Ec. exact Ec. }
    destruct (IH (iterate N d st)) as (k & Hk & Hloop & Hstop & Hbefore).
    + lia.
    + simpl st_iteration. lia.
    + exists (S k). rewrite Nat.iter_succ_r. repeat split; [lia|lia|exact Hloop|exact Hstop|].
      intros j Hj. destruct j as [|j]; [lia|]. rewrite Nat.iter_succ_r.
      destruct j as [|j]; [exact Ec|]. apply Hbefore. lia.
  - exists 1%nat. repeat split; [lia|lia|exact Ec|]. intros j Hj; lia.
Qed.

End LoopFacts.

(** ** The update of the scores is synchronous *)

Section UpdateFacts.

Import PageRank RankProps.

Context {D : Type} `{!Arith D}.

#[local] Abbreviation Page := (@PageRank.Page D).
#[local] Abbreviation PRState := (@PageRank.PRState D).

Lemma fold_left_ext_in {A B : Type} (f g : A -> B -> A) (l : list B) (a : A) :
  (forall a x, x ∈ l -> f a x = g a x) -> fold_left f l a = fold_left g l a.
Proof.
  revert a; induction l as [|x l IH]; intros a H; [reflexivity|].
  simpl. rewrite H by left. apply IH. intros a' y Hy. apply H. now right.
Qed.

(** The incoming sum reads the links and out-degrees of the array and the
    snapshot of the scores, below [N], and nothing else. *)
Lemma incomingSum_ext (ps ps' : list Page) (prev prev' : list D) (N i : nat) :
  (forall j, (j < N)%nat ->
     links (ps !!! j) = links (ps' !!! j) /\
     outDegree (ps !!! j) = outDegree (ps' !!! j) /\
     prev !!! j = prev' !!! j) ->
  incomingSum ps prev N i = incomingSum ps' prev' N i.
Proof.
  intros H. unfold incomingSum. apply fold_left_ext_in. intros sum j Hj.
  apply elem_of_seq in Hj. destruct (H j) as (El & Eo & Ep); [lia|].
  unfold addContribution. now rewrite El, Eo, Ep.
Qed.

Lemma initializePreviousRanks_spec (pages : list Page) (prev : list D) (N : nat) :
  (N <= length prev)%nat ->
  length (initializePreviousRanks pages prev N) = length prev /\
  forall j, (j < N)%nat ->
    initializePreviousRanks pages prev N !!! j = pageRank (pages !!! j).
Proof.
  unfold initializePreviousRanks. induction N as [|n IH]; intros Hn.
  - split; [reflexivity|]. intros j Hj; lia.
  - destruct IH as [Hlen Hget]; [lia|].
    rewrite seq_S, fold_left_app. simpl. split.
    + now rewrite length_insert.
    + intros j Hj. destruct (decide (j = n)) as [->|Hne].
      * rewrite list_lookup_total_insert_eq; [reflexivity|]. rewrite Hlen; lia.
      * rewrite list_lookup_total_insert_ne by congruence. apply Hget. lia.
Qed.

Lemma set_pageRank_fields (r : D) (p : Page) :
  url (set_pageRank r p) = url p /\ outDegree (set_pageRank r p) = outDegree p /\
  links (set_pageRank r p) = links p.
Proof. now destruct p. Qed.

(** After the first [n] turns of the loop over [i], the first [n] scores
    are the new ones, all computed from the array as it was on entry. *)
Lemma newRanks_prefix (prev : list D) (N : nat) (d : D) (pages : list Page) (n : nat) :
  (N <= length pages)%nat -> (n <= N)%nat ->
  fold_left (updateRank prev N d) (seq 0 n) pages
  = imap (fun i p =>
            if decide (i < n)%nat
            then set_pageRank
                   (dadd (ddiv (dsub (of_int 1) d) (of_int (Z.of_nat N)))
                         (dmul d (incomingSum pages prev N i))) p
            else p) pages.
Proof.
  intros HN. induction n as [|n IH]; intros Hn.
  - simpl. apply list_eq. intros k. rewrite list_lookup_imap.
    destruct (pages !! k); reflexivity.
  - rewrite seq_S, fold_left_app, IH by lia. simpl. unfold updateRank.
    set (new := imap _ pages).
    assert (Esum : incomingSum new prev N n = incomingSum pages prev N n).
    { apply incomingSum_ext. intros j Hj. unfold new.
      rewrite (list_lookup_total_imap _ pages j) by lia.
      destruct (decide (j < n)%nat); [|auto].
      destruct (set_pageRank_fields
                  (dadd (ddiv (dsub (of_int 1) d) (of_int (Z.of_nat N)))
                        (dmul d (incomingSum pages prev N j)))
                  (pages !!! j)) as (_ & Eo & El).
      now rewrite Eo, El. }
    rewrite Esum. apply list_eq. intros k. unfold new.
    destruct (decide (k = n)) as [->|Hne].
    + rewrite list_lookup_alter_eq, !list_lookup_imap.
      destruct (pages !! n) as [p|]; [simpl|reflexivity].
      rewrite decide_False by lia. rewrite decide_True by lia.
      now destruct p.
    + rewrite list_lookup_alter_ne by congruence. rewrite !list_lookup_imap.
      destruct (pages !! k) as [p|]; [simpl|reflexivity].
      destruct (decide (k < n)%nat).
      * now rewrite decide_True by lia.
      * now rewrite decide_False by lia.
Qed.

Lemma calculateNewRanks_sync (pages : list Page) (prev : list D) (N : nat) (d : D) :
  length pages = N ->
  (forall j, (j < N)%nat -> prev !!! j = pageRank (pages !!! j)) ->
  calculateNewRanks pages prev N d = syncUpdate N d pages.
Proof.
  intros Hlen Hprev. unfold calculateNewRanks, syncUpdate.
  rewrite newRanks_prefix by lia. apply imap_ext. intros i p Hi.
  apply lookup_lt_Some in Hi. rewrite decide_True by lia.
  unfold set_pageRank, synchronousScore. do 3 f_equal.
  apply incomingSum_ext. intros j Hj.
  split; [reflexivity|]. split; [reflexivity|].
  rewrite (list_lookup_total_fmap _ pages j) by lia. now apply Hprev.
Qed.

Lemma syncUpdate_length (N : nat) (d : D) (pages : list Page) :
  length (syncUpdate N d pages) = length pages.
Proof. apply length_imap. Qed.

(** One turn of the do-while loop updates the scores synchronously. *)
Lemma iterate_sync (N : nat) (d : D) (st : PRState) :
  length (st_pages st) = N -> (N <= length (st_prevPR st))%nat ->
  st_pages (iterate N d st) = syncUpdate N d (st_pages st) /\
  length (st_prevPR (iterate N d st)) = length (st_prevPR st).
Proof.
  intros Hlen Hprev. unfold iterate; simpl.
  destruct (initializePreviousRanks_spec (st_pages st) (st_prevPR st) N Hprev)
    as [Hl Hget].
  split; [|exact Hl]. now apply calculateNewRanks_sync.
Qed.

Lemma nthState_pages (N : nat) (d : D) (pages : list Page) (k : nat) :
  length pages = N -> (N <= MAX_URLS)%nat ->
  st_pages (nthState N d pages k) = Nat.iter k (syncUpdate N d) pages /\
  length (st_pages (nthState N d pages k)) = N /\
  length (st_prevPR (nthState N d pages k)) = MAX_URLS.
Proof.
  intros Hlen HN. unfold nthState. induction k as [|k (IHp & IHl & IHq)].
  - cbn [Nat.iter nat_rect initialState st_pages st_prevPR].
    split; [reflexivity|]. split; [exact Hlen|apply length_replicate].
  - rewrite !Nat.iter_succ.
    destruct (iterate_sync N d (Nat.iter k (iterate N d) (initialState pages)))
      as [Ep Eq]; [exact IHl|lia|].
    rewrite Ep, Eq, IHp. split; [reflexivity|]. split; [|exact IHq].
    rewrite syncUpdate_length, <- IHp. exact IHl.
Qed.

End UpdateFacts.

(** ** Facts about the construction of the graph *)

Section GraphFacts.

Import PageRank RankProps.

Context {D : Type} `{!Arith D}.

#[local] Abbreviation Page := (@PageRank.Page D).
#[local] Abbreviation PRState := (@PageRank.PRState D).

Lemma readNames_take (words : list string) (n maxPages : nat) :
  readNames words n maxPages = take (maxPages - n) words.
Proof.
  revert n; induction words as [|w words IH]; intros n; simpl.
  - destruct (maxPages <=? n)%nat; now rewrite take_nil.
  - destruct (Nat.leb_spec maxPages n) as [Hle|Hlt].
    + now replace (maxPages - n)%nat with 0%nat by lia.
    + rewrite IH. replace (maxPages - n)%nat with (S (maxPages - S n)) by lia.
      reflexivity.
Qed.

(** A property of the array that the handling of one token keeps is kept
    by the whole construction. *)
Section Preserved.

Variable Inv : list Page -> Prop.
Hypothesis linkToken_keeps :
  forall N i pages token, Inv pages -> Inv (linkToken N i pages token).

Lemma linkTokens_keep (N i : nat) (toks : list string) (pages : list Page) :
  Inv pages -> Inv (fold_left (linkToken N i) toks pages).
Proof.
  revert pages; induction toks as [|t toks IH]; intros pages H; [exact H|].
  simpl. apply IH, linkToken_keeps, H.
Qed.

Lemma processLine_keeps (N i : nat) (st : bool * list Page) (line : string) :
  Inv st.2 -> Inv (processLine N i st line).2.
Proof.
  destruct st as [b pages]; simpl. intros H.
  destruct (strcmp line start_marker =? 0)%Z; [exact H|].
  destruct (strcmp line end_marker =? 0)%Z; [exact H|].
  destruct b; [|exact H]. simpl. now apply linkTokens_keep.
Qed.

Lemma processSection1_keeps (urlFile : string) (pages : list Page) (N i : nat) :
  Inv pages -> Inv (processSection1 urlFile pages N i).
Proof.
  unfold processSection1. intros H.
  assert (G : forall lines st, Inv st.2 ->
                Inv (fold_left (processLine N i) lines st).2).
  { induction lines as [|l lines IH]; intros st Hst; [exact Hst|].
    apply IH, processLine_keeps, Hst. }
  now apply G.
Qed.

Lemma parseFiles_keeps (fs : filesystem) (N : nat) (todo : list nat)
  (pages pages' : list Page) :
  Inv pages -> parseFiles fs N todo pages = Done pages' -> Inv pages'.
Proof.
  revert pages; induction todo as [|i todo IH]; intros pages H; simpl.
  - now intros [= <-].
  - destruct (fs (url (pages !!! i) +:+ ".txt")) as [urlFile|]; [|discriminate].
    apply IH. now apply processSection1_keeps.
Qed.

End Preserved.

Lemma url_lookup_total (pages : list Page) (i : nat) :
  url (pages !!! i) = (url <$> pages) !!! i.
Proof.
  rewrite !list_lookup_total_alt, list_lookup_fmap.
  now destruct (pages !! i).
Qed.

Lemma linkToken_urls (names : list string) (N i : nat) (pages : list Page)
  (token : string) :
  url <$> pages = names -> url <$> linkToken N i pages token = names.
Proof.
  intros <-. unfold linkToken.
  destruct (_ && _); [|reflexivity].
  apply list_eq. intros k. rewrite !list_lookup_fmap.
  destruct (decide (i = k)) as [->|Hne].
  - rewrite list_lookup_alter_eq. now destruct (pages !! k) as [[]|].
  - now rewrite list_lookup_alter_ne.
Qed.

(** When the file of every document can be opened, the loop over the
    documents completes and keeps their names. *)
Lemma parseFiles_done (fs : filesystem) (N : nat) (todo : list nat)
  (pages : list Page) :
  (forall i, i ∈ todo -> is_Some (fs (url (pages !!! i) +:+ ".txt"))) ->
  exists pages', parseFiles fs N todo pages = Done pages' /\
                 url <$> pages' = url <$> pages.
Proof.
  revert pages; induction todo as [|i todo IH]; intros pages Hopen; simpl.
  - now exists pages.
  - destruct (Hopen i) as [urlFile E]; [left|]. rewrite E.
    assert (Eu : url <$> processSection1 urlFile pages N i = url <$> pages).
    { apply (processSection1_keeps (fun ps => url <$> ps = url <$> pages)).
      - intros; now apply linkToken_urls.
      - reflexivity. }
    destruct (IH (processSection1 urlFile pages N i)) as (pages' & Ed & Eu').
    + intros k Hk. rewrite url_lookup_total, Eu, <- url_lookup_total.
      apply Hopen. now right.
    + exists pages'. split; [exact Ed|]. now rewrite Eu'.
Qed.

Lemma findPageIndex_urls (pages pages' : list Page) (N : nat) (token : string) :
  url <$> pages = url <$> pages' ->
  findPageIndex pages N token = findPageIndex pages' N token.
Proof.
  intros E. unfold findPageIndex. generalize 0%nat as i.
  induction N as [|n IH]; intros i; simpl; [reflexivity|].
  now rewrite !url_lookup_total, E, IH.
Qed.

(** The search returns -1 or the first index that carries the name. *)
Lemma findPageIndex_from_spec (pages : list Page) (token : string) (i n : nat) :
  (findPageIndex_from pages token i n = (-1)%Z /\
   forall k, (i <= k < i + n)%nat -> url (pages !!! k) <> token)
  \/ exists r : nat,
       findPageIndex_from pages token i n = Z.of_nat r /\
       (i <= r < i + n)%nat /\ url (pages !!! r) = token /\
       forall k, (i <= k < r)%nat -> url (pages !!! k) <> token.
Proof.
  revert i; induction n as [|n IH]; intros i; simpl.
  - left. split; [reflexivity|]. intros k Hk; lia.
  - rewrite strcmp_eqb. destruct (decide (url (pages !!! i) = token)) as [E|E].
    + rewrite bool_decide_eq_true_2 by exact E. right. exists i.
      split; [reflexivity|]. split; [lia|]. split; [exact E|]. intros k Hk; lia.
    + rewrite bool_decide_eq_false_2 by exact E.
      destruct (IH (S i)) as [[Er Hall]|(r & Er & Hr & Eu & Hall)].
      * left. split; [exact Er|]. intros k Hk.
        destruct (decide (k = i)) as [->|Hne]; [exact E|]. apply Hall. lia.
      * right. exists r. split; [exact Er|]. split; [lia|]. split; [exact Eu|].
        intros k Hk. destruct (decide (k = i)) as [->|Hne]; [exact E|].
        apply Hall. lia.
Qed.

Lemma findPageIndex_range (pages : list Page) (N : nat) (token : string) :
  (findPageIndex pages N token = -1 \/
   0 <= findPageIndex pages N token < Z.of_nat N)%Z.
Proof.
  unfold findPageIndex.
  destruct (findPageIndex_from_spec pages token 0 N) as [[E _]|(r & E & Hr & _)];
    [now left|right]. rewrite E. lia.
Qed.

(** With distinct names, the search finds the index of the name. *)
Lemma findPageIndex_NoDup (pages : list Page) (N : nat) (token : string) (j : nat) :
  length pages = N -> NoDup (url <$> pages) ->
  findPageIndex pages N token = Z.of_nat j
  <-> (url <$> pages) !! j = Some token.
Proof.
  intros Hlen Hnd. unfold findPageIndex.
  assert (Hget : forall k, (k < N)%nat ->
            (url <$> pages) !! k = Some (url (pages !!! k))).
  { intros k Hk. rewrite list_lookup_fmap.
    rewrite (list_lookup_lookup_total_lt pages k) by lia. reflexivity. }
  destruct (findPageIndex_from_spec pages token 0 N)
    as [[E Hall]|(r & E & Hr & Eu & _)]; rewrite E; split.
  - lia.
  - intros Hj. exfalso. assert (Hjn : (j < N)%nat).
    { apply lookup_lt_Some in Hj. rewrite length_fmap in Hj. lia. }
    rewrite Hget in Hj by exact Hjn. injection Hj as Hj.
    apply (Hall j); [lia|exact Hj].
  - intros Hj. assert (r = j) by lia. subst r. rewrite Hget by lia. now rewrite Eu.
  - intros Hj. f_equal. eapply NoDup_lookup; [exact Hnd| |exact Hj].
    rewrite Hget by lia. now rewrite Eu.
Qed.

Lemma findPageIndex_absent (pages : list Page) (N : nat) (token : string) :
  length pages = N ->
  findPageIndex pages N token = (-1)%Z <-> token ∉ url <$> pages.
Proof.
  intros Hlen. unfold findPageIndex.
  destruct (findPageIndex_from_spec pages token 0 N)
    as [[E Hall]|(r & E & Hr & Eu & _)]; rewrite E; split; try lia.
  - intros _ Hin. apply list_elem_of_fmap in Hin as (p & -> & Hp).
    apply list_elem_of_lookup_total in Hp as (k & Hk & <-).
    apply (Hall k); [lia|reflexivity].
  - intros Hni. exfalso. apply Hni. rewrite <- Eu.
    apply list_elem_of_fmap_2, list_elem_of_lookup_total_2. lia.
Qed.

(** The handling of a token touches the page of the document only. *)
Lemma linkToken_page (pages0 pages : list Page) (N i : nat) (t : string) :
  url <$> pages = url <$> pages0 -> (i < length pages)%nat ->
  linkToken N i pages t !!! i = linkPage pages0 N i (pages !!! i) t /\
  (forall k, k <> i -> linkToken N i pages t !!! k = pages !!! k) /\
  length (linkToken N i pages t) = length pages.
Proof.
  intros Eu Hi. unfold linkToken, linkPage.
  rewrite (findPageIndex_urls pages pages0 N t Eu).
  destruct (_ && _).
  - split; [now rewrite list_lookup_total_alter_eq|].
    split; [|apply length_alter].
    intros k Hk. now rewrite list_lookup_total_alter_ne.
  - auto.
Qed.

Lemma linkTokens_page (pages0 : list Page) (N i : nat) (toks : list string)
  (pages : list Page) :
  url <$> pages = url <$> pages0 -> (i < length pages)%nat ->
  fold_left (linkToken N i) toks pages !!! i
  = fold_left (linkPage pages0 N i) toks (pages !!! i) /\
  (forall k, k <> i -> fold_left (linkToken N i) toks pages !!! k = pages !!! k) /\
  length (fold_left (linkToken N i) toks pages) = length pages.
Proof.
  revert pages; induction toks as [|t toks IH]; intros pages Eu Hi; [auto|].
  destruct (linkToken_page pages0 pages N i t Eu Hi) as (Ei & Ek & El).
  destruct (IH (linkToken N i pages t)) as (Ei' & Ek' & El').
  - rewrite <- Eu. now apply linkToken_urls.
  - now rewrite El.
  - simpl. rewrite Ei', Ei, El', El. split; [reflexivity|]. split; [|reflexivity].
    intros k Hk. now rewrite Ek', Ek.
Qed.

Lemma processLine_sectionLine (N i : nat) (pages : list Page) (b : bool)
  (acc : list string) (l : string) :
  processLine N i (b, fold_left (linkToken N i) acc pages) l
  = ((Sections.sectionLine "Section-1" (b, acc) l).1,
     fold_left (linkToken N i) (Sections.sectionLine "Section-1" (b, acc) l).2 pages).
Proof.
  unfold processLine, Sections.sectionLine.
  change ("#start " +:+ "Section-1" +:+ String "010" "") with start_marker.
  change ("#end " +:+ "Section-1" +:+ String "010" "") with end_marker.
  destruct (strcmp l start_marker =? 0)%Z; [reflexivity|].
  destruct (strcmp l end_marker =? 0)%Z; [reflexivity|].
  destruct b; simpl; [|reflexivity]. now rewrite fold_left_app.
Qed.

(** [processSection1] handles the tokens of the link section, in order. *)
Lemma processSection1_linkTokens (urlFile : string) (pages : list Page) (N i : nat) :
  processSection1 urlFile pages N i
  = fold_left (linkToken N i) (Sections.linkTokens_read urlFile) pages.
Proof.
  unfold processSection1, Sections.linkTokens_read.
  assert (G : forall lines st,
            (fold_left (processLine N i) lines
                       (st.1, fold_left (linkToken N i) st.2 pages)).2
            = fold_left (linkToken N i)
                (fold_left (Sections.sectionLine "Section-1") lines st).2 pages).
  { induction lines as [|l lines IH]; intros [b acc]; [reflexivity|].
    cbn [fold_left fst snd]. rewrite processLine_sectionLine. apply IH. }
  exact (G (fgets_n 1000 urlFile) (false, [])).
Qed.

(** The effect of the tokens of a link section on the page of its document:
    one more out-degree per token that names another document, and the link
    to each document so named. *)
Lemma linkPage_fold (pages0 : list Page) (N i : nat) (toks : list string) (p : Page) :
  (N <= length (links p))%nat ->
  let p' := fold_left (linkPage pages0 N i) toks p in
  url p' = url p /\
  length (links p') = length (links p) /\
  outDegree p'
  = (outDegree p + Z.of_nat (length (filter (names_other pages0 N i) toks)))%Z /\
  forall k, (k < N)%nat ->
    links p' !!! k <> 0%Z
    <-> links p !!! k <> 0%Z \/
        (k <> i /\ exists t, t ∈ toks /\ findPageIndex pages0 N t = Z.of_nat k).
Proof.
  revert p; induction toks as [|t toks IH]; intros p Hlen; cbv zeta.
  - simpl. split; [reflexivity|]. split; [reflexivity|]. split; [lia|].
    intros k Hk. split; [now left|]. intros [H|(_ & t & Ht & _)]; [exact H|].
    now apply elem_of_nil in Ht.
  - cbn [fold_left]. rewrite filter_cons.
    pose proof (findPageIndex_range pages0 N t) as Hr.
    unfold linkPage at 2 4 6 8. unfold names_other at 2.
    destruct (Z.eqb_spec (findPageIndex pages0 N t) (-1)) as [E1|E1]; simpl negb;
      cbn [andb];
      [|destruct (Z.eqb_spec (findPageIndex pages0 N t) (Z.of_nat i)) as [E2|E2];
        simpl negb; cbv iota].
    + destruct (IH p Hlen) as (Eu & El & Eo & Ek). rewrite decide_False by tauto.
      split; [exact Eu|]. split; [exact El|]. split; [exact Eo|].
      intros k Hk. rewrite (Ek k Hk). split; intros [H|(Hne & t' & Ht' & Et')]; auto.
      * right. split; [exact Hne|]. exists t'. split; [now right|exact Et'].
      * apply elem_of_cons in Ht' as [->|Ht']; [lia|]. right. eauto.
    + destruct (IH p Hlen) as (Eu & El & Eo & Ek). rewrite decide_False by tauto.
      split; [exact Eu|]. split; [exact El|]. split; [exact Eo|].
      intros k Hk. rewrite (Ek k Hk). split; intros [H|(Hne & t' & Ht' & Et')]; auto.
      * right. split; [exact Hne|]. exists t'. split; [now right|exact Et'].
      * apply elem_of_cons in Ht' as [->|Ht']; [lia|]. right. eauto.
    + set (k0 := Z.to_nat (findPageIndex pages0 N t)).
      assert (Hk0 : (k0 < N)%nat /\ findPageIndex pages0 N t = Z.of_nat k0)
        by (unfold k0; lia).
      destruct Hk0 as [Hk0 Ek0].
      destruct (IH (incr_outDegree (set_link k0 p))) as (Eu & El & Eo & Ek).
      { simpl. now rewrite length_insert. }
      rewrite decide_True by tauto.
      split; [exact Eu|]. split; [now rewrite El; simpl; rewrite length_insert|].
      split; [rewrite Eo; simpl; lia|].
      intros k Hk. rewrite (Ek k Hk). simpl links.
      rewrite list_lookup_total_insert.
      destruct (decide (k0 = k /\ (k0 < length (links p))%nat)) as [[-> _]|Hn].
      * split; [intros _|intros _; left; discriminate].
        right. split; [lia|]. exists t. split; [left|exact Ek0].
      * assert (Hkk : k0 <> k) by lia.
        split; intros [H|(Hne & t' & Ht' & Et')]; auto.
        -- right. split; [exact Hne|]. exists t'. split; [now right|exact Et'].
        -- apply elem_of_cons in Ht' as [->|Ht']; [lia|]. right. eauto.
Qed.

(** The loop over the documents gives each page the links of its own file. *)
Lemma parseFiles_pages (fs : filesystem) (N : nat) (pages0 : list Page)
  (todo : list nat) (pages pages' : list Page) :
  url <$> pages = url <$> pages0 -> NoDup todo ->
  (forall i, i ∈ todo -> (i < length pages)%nat) ->
  parseFiles fs N todo pages = Done pages' ->
  forall i,
    (i ∉ todo -> pages' !!! i = pages !!! i) /\
    (i ∈ todo -> exists content,
        fs (url (pages0 !!! i) +:+ ".txt") = Some content /\
        pages' !!! i
        = fold_left (linkPage pages0 N i) (Sections.linkTokens_read content) (pages !!! i)).
Proof.
  revert pages; induction todo as [|i0 todo IH]; intros pages Eu Hnd Hlt; simpl.
  - intros [= <-] i. split; [reflexivity|]. intros Hi. now apply elem_of_nil in Hi.
  - destruct (fs (url (pages !!! i0) +:+ ".txt")) as [content|] eqn:Ef; [|discriminate].
    rewrite processSection1_linkTokens. intros Ed i.
    apply NoDup_cons in Hnd as [Hni Hnd].
    destruct (linkTokens_page pages0 N i0 (Sections.linkTokens_read content) pages Eu)
      as (Ei & Ek & El); [apply Hlt; left|].
    set (pages1 := fold_left (linkToken N i0) (Sections.linkTokens_read content) pages) in *.
    assert (Eu1 : url <$> pages1 = url <$> pages0).
    { rewrite <- Eu. unfold pages1.
      apply (linkTokens_keep (fun ps => url <$> ps = url <$> pages)); [|reflexivity].
      intros; now apply linkToken_urls. }
    specialize (IH pages1 Eu1 Hnd).
    destruct (IH ltac:(intros k Hk; rewrite El; apply Hlt; now right) Ed i)
      as [Hout Hin].
    split.
    + intros Hi. apply not_elem_of_cons in Hi as [Hne Hi].
      rewrite (Hout Hi). now apply Ek.
    + intros Hi. apply elem_of_cons in Hi as [->|Hi].
      * exists content. split.
        -- rewrite <- Ef. now rewrite !url_lookup_total, Eu.
        -- rewrite (Hout Hni). exact Ei.
      * destruct (Hin Hi) as (c & Ec & Ep). exists c. split; [exact Ec|].
        rewrite Ep. f_equal. apply Ek. intros ->. contradiction.
Qed.

Lemma initPage_urls (N : nat) (names : list string) :
  url <$> (initPage N <$> names) = names.
Proof. induction names as [|n names IH]; [reflexivity|]. simpl. f_equal. exact IH. Qed.

(** [readCollection] keeps the first [maxPages] names of the manifest and
    goes on with them. *)
Lemma readCollection_done (fs : filesystem) (maxPages : nat) (collection : string) :
  fs "collection.txt" = Some collection ->
  (forall name, name ∈ take maxPages (fscanf_words collection) ->
                is_Some (fs (name +:+ ".txt"))) ->
  exists pages, readCollection fs maxPages = Done pages /\
                url <$> pages = take maxPages (fscanf_words collection).
Proof.
  intros E Hopen. unfold readCollection. rewrite E, readNames_take, Nat.sub_0_r.
  set (names := take maxPages (fscanf_words collection)) in *.
  destruct (parseFiles_done fs (length names) (seq 0 (length names))
              (initPage (length names) <$> names)) as (pages & Ed & Eu).
  - intros i Hi. apply elem_of_seq in Hi.
    rewrite url_lookup_total, initPage_urls. apply Hopen.
    apply list_elem_of_lookup_total_2. lia.
  - exists pages. split; [exact Ed|]. now rewrite Eu, initPage_urls.
Qed.

(** The array that [readCollection] returns: the names kept, and for each
    of them the page that the tokens of its link section build. *)
Lemma readCollection_pages (fs : filesystem) (collection : string)
  (pages : list Page) :
  fs "collection.txt" = Some collection ->
  readCollection fs MAX_URLS = Done pages ->
  let names := take MAX_URLS (fscanf_words collection) in
  let N := length names in
  let pages0 := initPage N <$> names in
  url <$> pages = names /\
  forall i name, names !! i = Some name ->
    exists content,
      fs (name +:+ ".txt") = Some content /\
      pages !!! i
      = fold_left (linkPage pages0 N i) (Sections.linkTokens_read content) (initPage N name).
Proof.
  intros E Er. cbv zeta. unfold readCollection in Er.
  rewrite E, readNames_take, Nat.sub_0_r in Er.
  set (names := take MAX_URLS (fscanf_words collection)) in *.
  set (N := length names) in *. set (pages0 := initPage N <$> names) in *.
  assert (Eu0 : url <$> pages0 = names) by apply initPage_urls.
  split.
  - rewrite <- Eu0.
    apply (parseFiles_keeps (fun ps => url <$> ps = url <$> pages0)
             ltac:(intros; now apply linkToken_urls) fs N (seq 0 N) pages0 pages
             eq_refl Er).
  - intros i name Hi.
    assert (HiN : (i < N)%nat) by (apply lookup_lt_Some in Hi; exact Hi).
    assert (Ep0 : pages0 !!! i = initPage N name).
    { apply list_lookup_total_correct. unfold pages0.
      now rewrite list_lookup_fmap, Hi. }
    destruct (parseFiles_pages fs N pages0 (seq 0 N) pages0 pages eq_refl
                (NoDup_seq 0 N)) with (i := i) as [_ Hin].
    + intros k Hk. apply elem_of_seq in Hk. unfold pages0.
      rewrite length_fmap. fold N. lia.
    + exact Er.
    + destruct Hin as (content & Ec & Ep); [apply elem_of_seq; lia|].
      rewrite Ep0 in Ec, Ep. exists content. split; [exact Ec|exact Ep].
Qed.

Lemma initPage_links (N k : nat) (name : string) :
  (k < MAX_URLS)%nat -> links (initPage N name) !!! k = 0%Z.
Proof.
  intros Hk. unfold initPage. cbn [links]. now apply lookup_total_replicate_2.
Qed.

Lemma initPage_links_length (N : nat) (name : string) :
  length (links (initPage N name)) = MAX_URLS.
Proof. unfold initPage. cbn [links]. apply length_replicate. Qed.

(** The graph that [readCollection] builds, for a manifest of distinct
    names: the document [i] has a link to the document [j] exactly when its
    link section names [j] and [j] is another document; its out-degree is
    the number of tokens of its link section, each counted as many times as
    it occurs, that name another document. *)
Lemma graph_edges_and_outDegree (fs : filesystem) (collection : string)
  (pages : list Page) (i j : nat) (name_i name_j : string) :
  fs "collection.txt" = Some collection ->
  readCollection fs MAX_URLS = Done pages ->
  let names := take MAX_URLS (fscanf_words collection) in
  NoDup names ->
  names !! i = Some name_i -> names !! j = Some name_j ->
  exists content,
    fs (name_i +:+ ".txt") = Some content /\
    (links (pages !!! i) !!! j <> 0%Z
     <-> name_j ∈ Sections.linkTokens_read content /\ i <> j) /\
    outDegree (pages !!! i)
    = Z.of_nat (length (filter (fun t => t ∈ names /\ t <> name_i)
                               (Sections.linkTokens_read content))).
Proof.
  intros E Er names Hnd Hi Hj.
  destruct (readCollection_pages fs collection pages E Er) as [Eu Hpages].
  fold names in Eu, Hpages.
  destruct (Hpages i name_i Hi) as (content & Ec & Ep).
  set (N := length names) in *. set (pages0 := initPage N <$> names) in *.
  assert (Eu0 : url <$> pages0 = names) by apply initPage_urls.
  assert (Hl0 : length pages0 = N) by (unfold pages0; now rewrite length_fmap).
  assert (HN : (N <= MAX_URLS)%nat) by (unfold N, names; rewrite length_take; lia).
  assert (HiN : (i < N)%nat) by (apply lookup_lt_Some in Hi; exact Hi).
  assert (HjN : (j < N)%nat) by (apply lookup_lt_Some in Hj; exact Hj).
  destruct (linkPage_fold pages0 N i (Sections.linkTokens_read content) (initPage N name_i))
    as (_ & _ & Eo & Ek).
  { rewrite initPage_links_length. exact HN. }
  exists content. split; [exact Ec|]. rewrite Ep. split.
  - rewrite (Ek j HjN), initPage_links by lia. split.
    + intros [H|(Hne & t & Ht & Et)]; [congruence|].
      apply (findPageIndex_NoDup pages0 N t j Hl0) in Et; [|now rewrite Eu0].
      rewrite Eu0, Hj in Et. injection Et as <-. auto.
    + intros [Ht Hne]. right. split; [auto|]. exists name_j. split; [exact Ht|].
      apply (findPageIndex_NoDup pages0 N name_j j Hl0); now rewrite Eu0.
  - rewrite Eo. simpl outDegree. rewrite Z.add_0_l. do 2 f_equal.
    apply list_filter_iff. intros t. unfold names_other.
    rewrite (findPageIndex_absent pages0 N t Hl0), Eu0.
    rewrite (findPageIndex_NoDup pages0 N t i Hl0) by now rewrite Eu0.
    rewrite Eu0, Hi. split.
    + intros [Hin Hne]. split; [now apply dec_stable|congruence].
    + intros [Hin Hne]. split; [auto|congruence].
Qed.

(** In the graph that [readCollection] builds, a document with out-degree 0
    has no link: the branch of [calculateNewRanks] for it is never taken. *)
Lemma dangling_has_no_links (fs : filesystem) (pages : list Page) (i k : nat) :
  readCollection fs MAX_URLS = Done pages ->
  (i < length pages)%nat -> (k < length pages)%nat ->
  outDegree (pages !!! i) = 0%Z -> links (pages !!! i) !!! k = 0%Z.
Proof.
  intros Er Hi Hk Ho.
  destruct (fs "collection.txt") as [collection|] eqn:E;
    [|unfold readCollection in Er; rewrite E in Er; discriminate].
  destruct (readCollection_pages fs collection pages E Er) as [Eu Hpages].
  set (names := take MAX_URLS (fscanf_words collection)) in *.
  set (N := length names) in *. set (pages0 := initPage N <$> names) in *.
  assert (Hlen : length pages = N) by (unfold N; now rewrite <- Eu, length_fmap).
  assert (HN : (N <= MAX_URLS)%nat) by (unfold N, names; rewrite length_take; lia).
  destruct (lookup_lt_is_Some_2 names i) as [name Hn]; [fold N; lia|].
  destruct (Hpages i name Hn) as (content & _ & Ep).
  destruct (linkPage_fold pages0 N i (Sections.linkTokens_read content) (initPage N name))
    as (_ & _ & Eo & Ek).
  { rewrite initPage_links_length. exact HN. }
  rewrite Ep in Ho |- *. rewrite Eo in Ho. simpl outDegree in Ho.
  destruct (decide (links (fold_left (linkPage pages0 N i)
                             (Sections.linkTokens_read content) (initPage N name)) !!! k
                    = 0%Z)) as [H0|Hne]; [exact H0|exfalso].
  apply (Ek k ltac:(lia)) in Hne as [H|(Hki & t & Ht & Et)].
  - rewrite initPage_links in H by lia. congruence.
  - assert (Hf : t ∈ filter (names_other pages0 N i) (Sections.linkTokens_read content)).
    { apply list_elem_of_filter. split; [|exact Ht]. unfold names_other. lia. }
    destruct (filter (names_other pages0 N i) (Sections.linkTokens_read content));
      [now apply elem_of_nil in Hf|simpl in Ho; lia].
Qed.

Lemma syncUpdate_urls (N : nat) (d : D) (pages : list Page) :
  url <$> syncUpdate N d pages = url <$> pages.
Proof.
  unfold syncUpdate. apply list_eq. intros k.
  rewrite !list_lookup_fmap, list_lookup_imap. now destruct (pages !! k) as [[]|].
Qed.

Lemma iter_syncUpdate_urls (N : nat) (d : D) (pages : list Page) (k : nat) :
  url <$> Nat.iter k (syncUpdate N d) pages = url <$> pages.
Proof.
  induction k as [|k IH]; [reflexivity|].
  now rewrite Nat.iter_succ, syncUpdate_urls.
Qed.

End GraphFacts.

(** ** Where the scores sum to 1 *)

Section Conservation.

Import PageRank RankProps.

Lemma inject_Z_nonzero (z : Z) : z <> 0%Z -> ~ (inject_Z z == 0)%Q.
Proof. intros Hz H. apply Hz. unfold Qeq in H. simpl in H. lia. Qed.

Lemma addContribution_plus (pages : list Page) (prev : list Q) (N i : nat)
  (sum : Q) (j : nat) :
  (addContribution pages prev N i sum j == sum + contribution pages prev N i j)%Q.
Proof.
  unfold contribution, addContribution. exact_ops.
  destruct (negb _); [destruct (negb _)|]; ring.
Qed.

Lemma incomingSum_sumOver (pages : list Page) (prev : list Q) (N i : nat) :
  (incomingSum pages prev N i == sumOver (contribution pages prev N i) (seq 0 N))%Q.
Proof.
  unfold incomingSum.
  assert (G : forall l a,
            (fold_left (addContribution pages prev N i) l a
             == a + sumOver (contribution pages prev N i) l)%Q).
  { induction l as [|j l IH]; intros a; simpl; [ring|].
    rewrite IH, addContribution_plus. ring. }
  rewrite G. exact_ops. ring.
Qed.

Lemma sumOver_ext (f g : nat -> Q) (l : list nat) :
  (forall i, i ∈ l -> (f i == g i)%Q) -> (sumOver f l == sumOver g l)%Q.
Proof.
  induction l as [|i l IH]; intros H; simpl; [reflexivity|].
  rewrite (H i) by left. rewrite IH; [reflexivity|]. intros k Hk. apply H. now right.
Qed.

Lemma sumOver_plus (f g : nat -> Q) (l : list nat) :
  (sumOver (fun i => f i + g i) l == sumOver f l + sumOver g l)%Q.
Proof. induction l as [|i l IH]; simpl; [ring|]. rewrite IH. ring. Qed.

Lemma sumOver_scale (c : Q) (f : nat -> Q) (l : list nat) :
  (sumOver (fun i => c * f i) l == c * sumOver f l)%Q.
Proof. induction l as [|i l IH]; simpl; [ring|]. rewrite IH. ring. Qed.

Lemma sumOver_const (c : Q) (l : list nat) :
  (sumOver (fun _ => c) l == inject_Z (Z.of_nat (length l)) * c)%Q.
Proof.
  induction l as [|i l IH]; simpl sumOver; [simpl; ring|].
  rewrite IH. simpl length. rewrite Nat2Z.inj_succ. unfold Z.succ.
  rewrite inject_Z_plus. ring.
Qed.

Lemma sumOver_exchange (c : nat -> nat -> Q) (l1 l2 : list nat) :
  (sumOver (fun i => sumOver (fun j => c i j) l2) l1
   == sumOver (fun j => sumOver (fun i => c i j) l1) l2)%Q.
Proof.
  induction l1 as [|a l1 IH]; simpl.
  - rewrite sumOver_const. ring.
  - rewrite IH, <- sumOver_plus. reflexivity.
Qed.

Lemma sumOver_indicator (P : nat -> Prop) `{!forall i, Decision (P i)}
  (w : Q) (l : list nat) :
  (sumOver (fun i => if decide (P i) then w else 0) l
   == inject_Z (Z.of_nat (length (filter P l))) * w)%Q.
Proof.
  induction l as [|i l IH]; simpl sumOver; [simpl; ring|].
  rewrite IH, filter_cons. destruct (decide (P i)); [|ring].
  simpl length. rewrite Nat2Z.inj_succ. unfold Z.succ. rewrite inject_Z_plus. ring.
Qed.

Lemma sumOver_seq_shift (f : nat -> Q) (a n : nat) :
  sumOver f (seq (S a) n) = sumOver (fun i => f (S i)) (seq a n).
Proof. revert a; induction n as [|n IH]; intros a; simpl; [reflexivity|]. now rewrite IH. Qed.

Lemma totalRank_sumOver (pages : list Page) :
  totalRank pages = sumOver (fun i => pageRank (pages !!! i)) (seq 0 (length pages)).
Proof.
  induction pages as [|p pages IH]; [reflexivity|].
  simpl. rewrite sumOver_seq_shift. now rewrite IH.
Qed.

(** What a document with links gives away in one update is its own score,
    when its out-degree is the number of its links. *)
Lemma contributions_of_document (pages : list Page) (prev : list Q) (N j : nat) :
  outDegree (pages !!! j) <> 0%Z ->
  outDegree (pages !!! j) = Z.of_nat (countLinks (pages !!! j) N) ->
  (sumOver (fun i => contribution pages prev N i j) (seq 0 N) == prev !!! j)%Q.
Proof.
  intros Hne Hcount.
  rewrite (sumOver_ext _
             (fun i => if decide (links (pages !!! j) !!! i <> 0%Z)
                       then (prev !!! j) / inject_Z (outDegree (pages !!! j))
                       else 0)%Q).
  - rewrite (sumOver_indicator (fun i => links (pages !!! j) !!! i <> 0%Z)).
    fold (countLinks (pages !!! j) N). rewrite <- Hcount.
    field. now apply inject_Z_nonzero.
  - intros i _. unfold contribution, addContribution.
    destruct (Z.eqb_spec (links (pages !!! j) !!! i) 0) as [E|E]; simpl negb.
    + cbv iota. rewrite decide_False by tauto. reflexivity.
    + cbv iota. rewrite decide_True by exact E.
      destruct (Z.eqb_spec (outDegree (pages !!! j)) 0) as [E'|E']; [contradiction|].
      simpl negb. cbv iota. apply Qplus_0_l.
Qed.

(** One synchronous update keeps the sum of the scores at 1 when there is a
    document, every document has a link, and every out-degree is the
    number of links of its document. *)
Lemma syncUpdate_conserves (N : nat) (d : Q) (pages : list Page) :
  length pages = N -> (0 < N)%nat -> outDegrees_exact pages N ->
  (totalRank pages == 1)%Q -> (totalRank (syncUpdate N d pages) == 1)%Q.
Proof.
  intros Hlen HN Hexact Hone.
  rewrite totalRank_sumOver, syncUpdate_length, Hlen.
  rewrite totalRank_sumOver, Hlen in Hone.
  set (prev := pageRank <$> pages).
  rewrite (sumOver_ext _
             (fun i => (1 - d) / inject_Z (Z.of_nat N)
                       + d * sumOver (contribution pages prev N i) (seq 0 N))%Q).
  - rewrite sumOver_plus, sumOver_const, sumOver_scale, length_seq.
    rewrite sumOver_exchange.
    rewrite (sumOver_ext _ (fun j => pageRank (pages !!! j))).
    + rewrite Hone. field. apply inject_Z_nonzero. lia.
    + intros j Hj. apply elem_of_seq in Hj. destruct (Hexact j) as [Hne Hc]; [lia|].
      rewrite contributions_of_document by assumption.
      unfold prev. rewrite (list_lookup_total_fmap _ pages j) by lia. reflexivity.
  - intros i Hi. apply elem_of_seq in Hi. unfold syncUpdate.
    rewrite (list_lookup_total_imap _ pages i) by lia.
    destruct (pages !!! i); simpl. fold prev.
    now rewrite incomingSum_sumOver.
Qed.

End Conservation.

Section LoopTurns.

Import PageRank RankProps Examples.

Context {D : Type} `{!Arith D}.

#[local] Abbreviation Page := (@PageRank.Page D).
#[local] Abbreviation PRState := (@PageRank.PRState D).

(** Whatever the arithmetic of the scores, the loop leaves after [k >= 1]
    turns, not more than [maxIterations] when that is at least 1; the turn
    [k] is the first after which the cap is reached or the test
    [diff >= diffPR] is false. *)
Lemma loop_turns (pages : list Page) (N : nat) (d diffPR : D)
  (maxIterations : Z) (fuel : nat) :
  (1 <= fuel)%nat -> (Z.to_nat maxIterations <= fuel)%nat ->
  exists k : nat,
    calculatePageRank fuel pages N d diffPR maxIterations
    = Some (nthState N d pages k) /\
    st_iteration (nthState N d pages k) = Z.of_nat k /\
    (1 <= k)%nat /\ (Z.of_nat k <= Z.max 1 maxIterations)%Z /\
    (dge (st_diff (nthState N d pages k)) diffPR = false
     \/ (maxIterations <= Z.of_nat k)%Z) /\
    forall j : nat, (1 <= j < k)%nat ->
      (Z.of_nat j < maxIterations)%Z /\
      dge (st_diff (nthState N d pages j)) diffPR = true.
Proof.
  intros Hf1 Hfuel.
  destruct (loop_exits N d diffPR maxIterations fuel (initialState pages))
    as (k & Hk & Hloop & Hstop & Hbefore).
  { exact Hf1. }
  { simpl st_iteration. rewrite Z.sub_0_r. exact Hfuel. }
  assert (Hit : forall j, st_iteration (nthState N d pages j) = Z.of_nat j).
  { intros j. unfold nthState. rewrite iter_iteration. simpl. lia. }
  assert (Hearlier : forall j : nat, (1 <= j < k)%nat ->
            (Z.of_nat j < maxIterations)%Z /\
            dge (st_diff (nthState N d pages j)) diffPR = true).
  { intros j Hj. specialize (Hbefore j Hj). fold (nthState N d pages j) in Hbefore.
    unfold continues in Hbefore. apply andb_prop in Hbefore as [Ha Hb].
    rewrite Hit in Ha. apply Z.ltb_lt in Ha. auto. }
  assert (Hle : (Z.of_nat k <= Z.max 1 maxIterations)%Z).
  { destruct (decide (k = 1%nat)) as [->|Hne]; [lia|].
    destruct (Hearlier (k - 1)%nat) as [Hlt _]; lia. }
  exists k. split; [exact Hloop|]. split; [apply Hit|]. split; [lia|].
  split; [exact Hle|]. split; [|exact Hearlier].
  fold (nthState N d pages k) in Hstop. unfold continues in Hstop.
  rewrite Hit in Hstop. apply andb_false_iff in Hstop as [Ha|Hb].
  - right. apply Z.ltb_ge in Ha. exact Ha.
  - left. exact Hb.
Qed.

Lemma syncUpdate_score (N : nat) (d : D) (pages : list Page) (i : nat) :
  (i < length pages)%nat ->
  pageRank (syncUpdate N d pages !!! i) = synchronousScore N d pages i.
Proof.
  intros Hi. unfold syncUpdate.
  now rewrite (list_lookup_total_imap _ pages i) by lia.
Qed.

Lemma iter_syncUpdate_length (N : nat) (d : D) (pages : list Page) (k : nat) :
  length (Nat.iter k (syncUpdate N d) pages) = length pages.
Proof.
  induction k as [|k IH]; [reflexivity|].
  now rewrite Nat.iter_succ, syncUpdate_length.
Qed.

(** C10. Whatever the graph, the parameters ([maxIterations <= 0], NaN and
    infinities included) and the arithmetic of the scores, the loop of
    [calculatePageRank] runs [k >= 1] turns before it leaves, and each turn
    is a synchronous update: the array on exit is [k] synchronous updates
    of the array on entry, and the score of every document on exit is the
    score written for it by the last turn, computed by the update formula
    from the array as it was before that turn. With [maxIterations <= 1],
    or a first test [diff >= diffPR] that is false, it is exactly one
    update. *)
Theorem calculatePageRank_updates_at_least_once (pages : list Page) (N : nat)
  (d diffPR : D) (maxIterations : Z) (fuel : nat) :
  length pages = N -> (N <= MAX_URLS)%nat ->
  (Z.to_nat maxIterations < fuel)%nat ->
  exists (k : nat) (st : PRState),
    calculatePageRank fuel pages N d diffPR maxIterations = Some st /\
    (1 <= k)%nat /\
    st_iteration st = Z.of_nat k /\
    st_pages st = Nat.iter k (syncUpdate N d) pages /\
    (forall i, (i < N)%nat ->
       pageRank (st_pages st !!! i)
       = dadd (ddiv (dsub (of_int 1) d) (of_int (Z.of_nat N)))
              (dmul d (incomingSum
                         (Nat.iter (k - 1) (syncUpdate N d) pages)
                         (pageRank <$> Nat.iter (k - 1) (syncUpdate N d) pages)
                         N i))) /\
    ((maxIterations <= 1)%Z
     \/ dge (st_diff (nthState N d pages 1)) diffPR = false ->
     k = 1%nat).
Proof.
  intros Hlen HN Hfuel.
  destruct (loop_turns pages N d diffPR maxIterations fuel)
    as (k & Hloop & Hit & Hk & _ & _ & Hbefore); [lia|lia|].
  destruct (nthState_pages N d pages k Hlen HN) as (Ep & _).
  exists k, (nthState N d pages k). split; [exact Hloop|]. split; [exact Hk|].
  split; [exact Hit|]. split; [exact Ep|]. split.
  - intros i Hi. rewrite Ep. destruct k as [|k]; [lia|].
    rewrite Nat.iter_succ. replace (S k - 1)%nat with k by lia.
    rewrite syncUpdate_score by (rewrite iter_syncUpdate_length; lia).
    reflexivity.
  - intros Hone. destruct (decide (k = 1%nat)) as [E|Hne]; [exact E|exfalso].
    destruct (Hbefore 1%nat ltac:(lia)) as [Ha Hb].
    destruct Hone as [Hm|Hd]; [lia|congruence].
Qed.

End LoopTurns.

Section LoopTheorems.

Import PageRank RankProps Examples Claimed.

Lemma ab_graph_length : length (graphOf (D := Q) ab_fs) = 2%nat.
Proof. vm_compute. reflexivity. Defined.

Lemma two_le_MAX_URLS : (2 <= MAX_URLS)%nat.
Proof. unfold MAX_URLS. lia. Defined.

Lemma calculatePageRank_updates_at_least_once_witness :
  length (graphOf ab_fs) = 2%nat /\ (2 <= MAX_URLS)%nat /\
  (Z.to_nat 0 < 1)%nat /\
  exists (k : nat) (st : PRState),
    calculatePageRank 1 (graphOf ab_fs) 2 (17 # 20) (1 # 10000) 0 = Some st /\
    (1 <= k)%nat /\
    st_pages st = Nat.iter k (syncUpdate 2 (17 # 20)) (graphOf ab_fs).
Proof.
  destruct (calculatePageRank_updates_at_least_once
              (graphOf ab_fs) 2 (17 # 20) (1 # 10000) 0 1
              ab_graph_length two_le_MAX_URLS)
    as (k & st & E & Hk & _ & Ep & _); [simpl; lia|].
  split; [exact ab_graph_length|]. split; [exact two_le_MAX_URLS|].
  split; [simpl; lia|].
  exists k, st. split; [exact E|]. split; [exact Hk|exact Ep].
Defined.

(** C4, amended. On doubles, with [maxIterations >= 1] and a threshold
    that is at least 0, the loop of [calculatePageRank] leaves after some
    [k <= maxIterations] turns, and then the last [diff] is strictly below
    the threshold, or it is a NaN, or [k = maxIterations]; it is the first
    turn at which one of the three holds: after every earlier turn the cap
    was not reached and [diff >= diffPR] was true. *)
Theorem calculatePageRank_terminates (pages : list (@Page double)) (N : nat)
  (d diffPR : double) (maxIterations : Z) (fuel : nat) :
  (1 <= maxIterations)%Z ->
  dge diffPR (of_int 0) = true ->
  (Z.to_nat maxIterations <= fuel)%nat ->
  exists k : nat,
    calculatePageRank fuel pages N d diffPR maxIterations
    = Some (nthState N d pages k) /\
    st_iteration (nthState N d pages k) = Z.of_nat k /\
    (1 <= Z.of_nat k <= maxIterations)%Z /\
    (dlt (st_diff (nthState N d pages k)) diffPR = true
     \/ st_diff (nthState N d pages k) = NaN
     \/ Z.of_nat k = maxIterations) /\
    forall j : nat, (1 <= j < k)%nat ->
      (Z.of_nat j < maxIterations)%Z /\
      dge (st_diff (nthState N d pages j)) diffPR = true.
Proof.
  intros Hmax Hthr Hfuel.
  destruct (loop_turns pages N d diffPR maxIterations fuel)
    as (k & Hloop & Hit & Hk & Hle & Hstop & Hearlier); [lia|exact Hfuel|].
  exists k. split; [exact Hloop|]. split; [exact Hit|]. split; [lia|].
  split; [|exact Hearlier].
  destruct Hstop as [Hb|Ha]; [|right; right; lia].
  apply ge_false_iff in Hb; [tauto|].
  now apply (ge_not_nan diffPR (of_int 0)).
Qed.

Lemma ab_graph_length_double : length (graphOf (D := double) ab_fs) = 2%nat.
Proof. vm_compute. reflexivity. Defined.

Lemma calculatePageRank_terminates_witness :
  (1 <= 3)%Z /\ dge (Fin (1 # 10000)) (of_int 0) = true /\ (Z.to_nat 3 <= 3)%nat /\
  exists k : nat,
    calculatePageRank 3 (graphOf ab_fs) 2 (Fin (17 # 20)) (Fin (1 # 10000)) 3
    = Some (nthState 2 (Fin (17 # 20)) (graphOf ab_fs) k) /\
    (1 <= Z.of_nat k <= 3)%Z.
Proof.
  destruct (calculatePageRank_terminates (graphOf ab_fs) 2 (Fin (17 # 20))
              (Fin (1 # 10000)) 3 3)
    as (k & E & _ & Hk & _); [lia|reflexivity|simpl; lia|].
  split; [lia|]. split; [reflexivity|]. split; [simpl; lia|].
  exists k. split; [exact E|exact Hk].
Defined.

(** C4 as stated fails: with the damping factor NaN (what [atof] gives for
    [nan]) every new score and the first [diff] are NaN, the test
    [diff >= diffPR] is false, and the loop leaves after one turn of 100
    with a [diff] that is not below the threshold. *)
Lemma nan_damping_leaves_early :
  ~ exits_below_threshold_or_at_cap (graphOf ab_fs) 2 NaN (Fin (1 # 10000)) 100.
Proof.
  intros H. destruct H as (st & E & Hor); [lia|reflexivity|].
  assert (Ed : st_diff st = NaN /\ st_iteration st = 1%Z).
  { vm_compute in E. injection E as <-. split; reflexivity. }
  destruct Ed as [Ed Ei]. rewrite Ed, Ei in Hor.
  destruct Hor as [Hlt|Hcap]; [discriminate Hlt|lia].
Qed.

End LoopTheorems.

Section RankTheorems.

Import PageRank RankProps Sections Examples Claimed.

(** When the manifest and the files of the names kept can be opened, [main]
    computes the table of the first [MAX_URLS] names of the manifest, whatever
    the parameters and the arithmetic of the scores, and ends as the
    writing of the table does. *)
Lemma main_done {D : Type} `{!Arith D} (fs : filesystem) (collection : string)
  (writable : bool) (d diffPR : D) (maxIterations : Z) :
  fs "collection.txt" = Some collection ->
  (forall name, name ∈ take MAX_URLS (fscanf_words collection) ->
                is_Some (fs (name +:+ ".txt"))) ->
  exists pages : list (@Page D),
    PageRank.main fs writable 4 d diffPR maxIterations
    = Some (writePageRankToFile writable pages) /\
    url <$> pages = take MAX_URLS (fscanf_words collection).
Proof.
  intros E Hopen.
  destruct (readCollection_done fs MAX_URLS collection E Hopen) as (pages & Er & Eu).
  assert (Hlen : (length pages <= MAX_URLS)%nat).
  { rewrite <- (length_fmap url), Eu, length_take. lia. }
  unfold PageRank.main. simpl negb. cbv iota. rewrite Er.
  destruct (loop_exits (length pages) d diffPR maxIterations
              (S (Z.to_nat maxIterations)) (initialState pages))
    as (k & _ & Hloop & _).
  { lia. }
  { simpl st_iteration. rewrite Z.sub_0_r. lia. }
  unfold calculatePageRank. rewrite Hloop.
  exists (st_pages (Nat.iter k (iterate (length pages) d) (initialState pages))).
  split; [reflexivity|].
  destruct (nthState_pages (length pages) d pages k eq_refl Hlen) as (Ep & _).
  unfold nthState in Ep. now rewrite Ep, iter_syncUpdate_urls.
Qed.

(** C8, amended. A manifest of more than [MAX_URLS] names is not an error:
    run with its three arguments, [main] keeps the first [MAX_URLS] names and
    ignores the rest; when the files of the names kept can be opened it
    computes their table, whatever the parameters, and then returns 0
    without a diagnostic if [pagerankList.txt] can be opened for writing;
    if it cannot, the diagnostic is the one for that file. *)
Theorem main_keeps_first_MAX_URLS {D : Type} `{!Arith D} (fs : filesystem)
  (collection : string) (writable : bool) (d diffPR : D) (maxIterations : Z) :
  fs "collection.txt" = Some collection ->
  (forall name, name ∈ take MAX_URLS (fscanf_words collection) ->
                is_Some (fs (name +:+ ".txt"))) ->
  exists pages : list (@Page D),
    url <$> pages = take MAX_URLS (fscanf_words collection) /\
    PageRank.main fs writable 4 d diffPR maxIterations
    = Some (if writable then Done pages
            else Fatal 1 "Error opening pagerankList.txt").
Proof.
  intros E Hopen.
  destruct (main_done fs collection writable d diffPR maxIterations E Hopen)
    as (pages & Em & Eu).
  exists pages. split; [exact Eu|exact Em].
Qed.

Lemma big_manifest_length : length (fscanf_words big_manifest) = 1001%nat.
Proof. vm_compute. reflexivity. Defined.

Lemma big_fs_files (name : string) : is_Some (big_fs (name +:+ ".txt")).
Proof. unfold big_fs. destruct (String.eqb _ _); eauto. Defined.

Lemma main_keeps_first_MAX_URLS_witness :
  big_fs "collection.txt" = Some big_manifest /\
  (forall name, name ∈ take MAX_URLS (fscanf_words big_manifest) ->
                is_Some (big_fs (name +:+ ".txt"))) /\
  exists pages,
    url <$> pages = take MAX_URLS (fscanf_words big_manifest) /\
    PageRank.main big_fs true 4 (Fin (17 # 20)) (Fin (1 # 10000)) 100
    = Some (Done pages).
Proof.
  split; [reflexivity|]. split; [intros name _; apply big_fs_files|].
  apply (main_keeps_first_MAX_URLS big_fs big_manifest true).
  - reflexivity.
  - intros name _. apply big_fs_files.
Defined.

(** C8 as stated fails: with 1001 names in the manifest the program does
    not stop with an error. *)
Lemma overflow_is_not_fatal : ~ overflow_is_fatal big_fs (17 # 20) (1 # 10000) 100.
Proof.
  intros H. destruct (H big_manifest) as (status & diagnostic & _ & E).
  - reflexivity.
  - rewrite big_manifest_length. unfold MAX_URLS. lia.
  - destruct (main_done big_fs big_manifest true (17 # 20) (1 # 10000) 100)
      as (pages & E' & _).
    + reflexivity.
    + intros name _. apply big_fs_files.
    + rewrite E' in E. discriminate E.
Qed.

(** C1, at the collection where [A] links to [B] and [B] links to nothing:
    [B] has out-degree 0, and in the update it adds nothing to the incoming
    sum of [A], where the claim has it add [prev[B] / N = 1/4]; so the code
    does not redistribute the score of a document without links. *)
Theorem dangling_document_contributes_nothing :
  let pages := graphOf ab_fs in
  let prevPR := initializePreviousRanks pages (replicate MAX_URLS 0%Q) 2 in
  outDegree (pages !!! 1%nat) = 0%Z /\
  (prevPR !!! 1%nat == 1 # 2)%Q /\
  (addContribution pages prevPR 2 0 0 1 == 0)%Q /\
  (incomingSum pages prevPR 2 0 == 0)%Q /\
  ~ dangling_mass_redistributed pages prevPR 2.
Proof.
  cbv zeta.
  assert (E1 : outDegree (graphOf ab_fs !!! 1%nat) = 0%Z) by (vm_compute; reflexivity).
  assert (E2 : addContribution (graphOf ab_fs)
                 (initializePreviousRanks (graphOf ab_fs) (replicate MAX_URLS 0%Q) 2)
                 2 0 0%Q 1 = 0%Q) by (vm_compute; reflexivity).
  split; [exact E1|]. split; [vm_compute; reflexivity|].
  split; [rewrite E2; reflexivity|]. split; [vm_compute; reflexivity|].
  intros H. specialize (H 0%nat 1%nat 0%Q ltac:(lia) ltac:(lia) E1).
  rewrite E2 in H. vm_compute in H. discriminate H.
Qed.

(** C2, at the same collection with damping 17/20: after the single update
    of a run with [maxIterations = 1] the scores are 3/40 and 1/2, and their
    sum is 23/40, not 1. *)
Theorem total_rank_not_conserved :
  exists pages,
    PageRank.main ab_fs true 4 (17 # 20) (1 # 10000) 1 = Some (Done pages) /\
    (pageRank (pages !!! 0%nat) == 3 # 40)%Q /\
    (pageRank (pages !!! 1%nat) == 1 # 2)%Q /\
    (totalRank pages == 23 # 40)%Q /\ ~ (totalRank pages == 1)%Q.
Proof.
  eexists. split; [vm_compute; reflexivity|].
  repeat split; try (vm_compute; reflexivity).
  vm_compute. discriminate.
Qed.

(** C3, at the collection where the link section of [A] is [B B]: it names
    one document other than [A], and the out-degree of [A] is 2. *)
Theorem duplicate_link_counted_twice :
  linkTokens dup_doc = ["B"; "B"] /\
  distinctTargets ["A"; "B"] 0 dup_doc = 1%nat /\
  outDegree (graphOf dup_fs !!! 0%nat) = 2%Z /\
  ~ outDegree_counts_distinct dup_fs.
Proof.
  assert (E1 : distinctTargets ["A"; "B"] 0 dup_doc = 1%nat) by (vm_compute; reflexivity).
  assert (E2 : outDegree (graphOf dup_fs !!! 0%nat) = 2%Z) by (vm_compute; reflexivity).
  assert (E3 : url <$> graphOf dup_fs = ["A"; "B"]) by (vm_compute; reflexivity).
  split; [vm_compute; reflexivity|]. split; [exact E1|]. split; [exact E2|].
  intros H. specialize (H 0%nat "A" dup_doc).
  rewrite E3, E1, E2 in H. specialize (H eq_refl eq_refl). discriminate H.
Qed.

End RankTheorems.

(** ** The embedding on small inputs *)

Section Evaluations.

Import Examples.

Example normalizeWord_strips :
  InvertedIndex.normalizeWord "Hello,." = "hello" /\
  InvertedIndex.normalizeWord "a.b;" = "a.b" /\
  InvertedIndex.normalizeWord "9lives" = "" /\
  InvertedIndex.normalizeWord "..." = "".
Proof. repeat split; reflexivity. Qed.

Example index_of_alpha :
  InvertedIndex.main alpha_fs true
  = (0%Z, [("beta", ["alpha"]); ("hello", ["alpha"]); ("world", ["alpha"; "beta"])]).
Proof. vm_compute. reflexivity. Qed.

Example index_text_of_alpha :
  InvertedIndex.line_text <$> (InvertedIndex.main alpha_fs true).2
  = [Examples.text ["beta alpha"]; Examples.text ["hello alpha"];
     Examples.text ["world alpha beta"]].
Proof. vm_compute. reflexivity. Qed.

Example graph_of_ab :
  (fun p => (PageRank.url p, PageRank.outDegree p, take 2 (PageRank.links p)))
    <$> RankProps.graphOf ab_fs
  = [("A", 1%Z, [0%Z; 1%Z]); ("B", 0%Z, [0%Z; 0%Z])].
Proof. vm_compute. reflexivity. Qed.

Example query_cat_dog :
  (fun e => (SearchPagerank.url e, SearchPagerank.matchCount e))
    <$> (SearchPagerank.findMatchingURLs
           [SearchPagerank.mkWordEntry "cat" ["A"; "B"];
            SearchPagerank.mkWordEntry "dog" ["B"; "C"]]
           [SearchPagerank.mkURL "A" 0 (1 # 2);
            SearchPagerank.mkURL "B" 0 (3 # 10);
            SearchPagerank.mkURL "C" 0 (1 # 5)]
           ["cat"; "dog"]).1
  = [("A", 1%Z); ("B", 2%Z); ("C", 1%Z)].
Proof. vm_compute. reflexivity. Qed.

Example query_is_case_sensitive :
  (SearchPagerank.findMatchingURLs cat_index cat_ranks ["Cat"]).2 = [].
Proof. vm_compute. reflexivity. Qed.

End Evaluations.

(** * Further properties of the code *)

(** ** The normalizer *)

Section NormalizerProperties.

Import InvertedIndex MoreProps.

Lemma tolower_alpha (c : ascii) :
  isalpha (tolower c) = isalpha c /\
  (isalpha c = true ->
   islower (tolower c) = true /\ is_trailing_punct (tolower c) = false) /\
  isupper (tolower c) = false.
Proof. destruct c as [[] [] [] [] [] [] [] []]; vm_compute; auto. Qed.

Lemma strip_len_keeps_head (w : string) (len : nat) :
  is_trailing_punct (char_at w 0) = false -> (1 <= len)%nat ->
  (1 <= strip_len w len)%nat.
Proof.
  intros H0. induction len as [|n IH]; intros Hlen; [lia|]. simpl.
  destruct (is_trailing_punct (char_at w n)) eqn:E; [|lia].
  apply IH. destruct n; [congruence|lia].
Qed.

(** X1. The normalizer rejects a token exactly when the token is empty or does
    not start with a letter. *)
Theorem normalizeWord_rejects_iff (t : string) :
  normalizeWord t = "" <-> t = "" \/ isalpha (char_at t 0) = false.
Proof.
  destruct t as [|c0 r]; [split; [now left|reflexivity]|].
  change (char_at (String c0 r) 0) with c0.
  destruct (tolower_alpha c0) as (Ea & Hl & _).
  unfold normalizeWord.
  set (low := map_chars tolower (String c0 r)).
  remember (strip_len low (String.length (String c0 r))) as n eqn:En.
  assert (Hhead : forall m, char_at (truncate (S m) low) 0 = tolower c0)
    by reflexivity.
  split.
  - intros H. right. destruct (isalpha c0) eqn:Ec; [exfalso|reflexivity].
    destruct (Hl eq_refl) as [_ Hp].
    assert (Hn : (1 <= n)%nat).
    { rewrite En. apply strip_len_keeps_head; [exact Hp|simpl; lia]. }
    destruct n as [|m]; [lia|]. rewrite (Hhead m), Ea in H. simpl in H.
    discriminate H.
  - intros [H|H]; [discriminate|].
    destruct n as [|m]; [reflexivity|]. now rewrite (Hhead m), Ea, H.
Qed.

Lemma all_lower_map_tolower (s : string) : all_lower (map_chars tolower s) = true.
Proof.
  induction s as [|c r IH]; [reflexivity|]. simpl.
  destruct (tolower_alpha c) as (_ & _ & ->). exact IH.
Qed.

Lemma all_lower_truncate (n : nat) (s : string) :
  all_lower s = true -> all_lower (truncate n s) = true.
Proof.
  revert s; induction n as [|n IH]; intros s H; [now rewrite truncate_0|].
  destruct s as [|c r]; [reflexivity|]. rewrite truncate_S. simpl in *.
  apply andb_prop in H as [-> H]. now apply IH.
Qed.

Lemma normalizeWord_shape (t : string) :
  normalizeWord t <> "" ->
  let w := normalizeWord t in
  w = truncate (String.length w) (map_chars tolower t) /\
  (1 <= String.length w <= String.length t)%nat /\
  islower (char_at w 0) = true /\
  all_lower w = true /\
  is_trailing_punct (char_at w (String.length w - 1)) = false.
Proof.
  intros Hne. cbv zeta. revert Hne. unfold normalizeWord.
  set (low := map_chars tolower t). set (n := strip_len low (String.length t)).
  destruct (Nat.eqb n 0 || negb (isalpha (char_at (truncate n low) 0))) eqn:E;
    [congruence|]. intros _.
  apply orb_false_elim in E as [En Ea]. apply Nat.eqb_neq in En.
  apply negb_false_iff in Ea.
  assert (Hle : (n <= String.length low)%nat).
  { unfold low. rewrite map_chars_length. apply strip_len_le. }
  assert (Hlen : String.length (truncate n low) = n) by now apply truncate_length.
  rewrite Hlen. split; [reflexivity|]. split.
  { unfold low in Hle. rewrite map_chars_length in Hle. lia. }
  destruct n as [|m] eqn:Hn; [congruence|]. split; [|split].
  - destruct t as [|c0 r]; [simpl in Hle; lia|].
    change (char_at (truncate (S m) low) 0) with (tolower c0) in *.
    destruct (tolower_alpha c0) as (Ec & Hl & _). rewrite Ec in Ea.
    now destruct (Hl Ea).
  - apply all_lower_truncate, all_lower_map_tolower.
  - replace (S m - 1)%nat with m by lia. rewrite char_at_truncate by lia.
    eapply strip_len_stop. exact Hn.
Qed.

(** What the normalizer accepts, it returns unchanged. *)
Lemma normalizeWord_fixes_shape (w : string) :
  (1 <= String.length w)%nat -> islower (char_at w 0) = true ->
  all_lower w = true ->
  is_trailing_punct (char_at w (String.length w - 1)) = false ->
  normalizeWord w = w.
Proof.
  intros Hlen Hlow Hall Hlast.
  assert (Emap : map_chars tolower w = w).
  { clear -Hall. induction w as [|c r IH]; [reflexivity|]. simpl in *.
    apply andb_prop in Hall as [Hc Hr]. apply negb_true_iff in Hc.
    rewrite (IH Hr). unfold tolower. now rewrite Hc. }
  unfold normalizeWord. rewrite Emap.
  destruct (String.length w) as [|m] eqn:El; [lia|].
  replace (S m - 1)%nat with m in Hlast by lia.
  rewrite strip_len_fixed by exact Hlast.
  rewrite <- El, truncate_all. rewrite El. simpl Nat.eqb.
  unfold isalpha. rewrite Hlow, orb_true_r. reflexivity.
Qed.

(** X2. A word that the normalizer accepts is the lowercased token cut after
    its last character that is not in the stripped set: it starts with a
    lowercase letter, holds no uppercase letter, does not end in a stripped
    character, and is not longer than the token. *)
Theorem normalizeWord_accepted_shape (t : string) :
  normalizeWord t <> "" ->
  let w := normalizeWord t in
  w = truncate (String.length w) (map_chars tolower t) /\
  (1 <= String.length w <= String.length t)%nat /\
  islower (char_at w 0) = true /\
  all_lower w = true /\
  is_trailing_punct (char_at w (String.length w - 1)) = false.
Proof. apply normalizeWord_shape. Qed.

Lemma normalizeWord_accepted_shape_witness :
  normalizeWord "Hello,." <> "" /\
  normalizeWord "Hello,." = truncate 5 (map_chars tolower "Hello,.").
Proof.
  assert (H : normalizeWord "Hello,." <> "") by (vm_compute; discriminate).
  split; [exact H|].
  exact (proj1 (normalizeWord_accepted_shape "Hello,." H)).
Defined.

End NormalizerProperties.

(** ** Tokens *)

Section TokenFacts.

Import MoreProps.

Lemma append_nil_l (s : string) : "" +:+ s = s.
Proof. reflexivity. Qed.

Lemma append_cons (c : ascii) (r s : string) : String c r +:+ s = String c (r +:+ s).
Proof. reflexivity. Qed.

Lemma append_nil_r (s : string) : s +:+ "" = s.
Proof.
  induction s as [|c r IH]; [reflexivity|]. now rewrite append_cons, IH.
Qed.

Lemma append_assoc (s1 s2 s3 : string) : (s1 +:+ s2) +:+ s3 = s1 +:+ (s2 +:+ s3).
Proof.
  induction s1 as [|c r IH]; [reflexivity|]. now rewrite !append_cons, IH.
Qed.

Lemma append_length (s1 s2 : string) :
  String.length (s1 +:+ s2) = (String.length s1 + String.length s2)%nat.
Proof.
  induction s1 as [|c r IH]; [reflexivity|]. rewrite append_cons. simpl. now rewrite IH.
Qed.

Lemma no_char_app (bad : ascii -> bool) (s1 s2 : string) :
  no_char bad (s1 +:+ s2) = no_char bad s1 && no_char bad s2.
Proof.
  induction s1 as [|c r IH]; [reflexivity|]. rewrite append_cons. simpl.
  rewrite IH. now rewrite andb_assoc.
Qed.

(** [tokens] is what repeated calls of [strtok] return. *)
Lemma tokens_go_split (delim : ascii -> bool) (cur s : string) :
  tokens_go delim cur s
  = (if String.eqb (cur +:+ (split_token delim s).1) "" then []
     else [cur +:+ (split_token delim s).1])
    ++ tokens_go delim "" (split_token delim s).2.
Proof.
  revert cur; induction s as [|c r IH]; intros cur; simpl.
  - rewrite append_nil_r. now rewrite app_nil_r.
  - destruct (delim c); simpl.
    + now rewrite append_nil_r.
    + rewrite IH, append_assoc, append_cons, append_nil_l. reflexivity.
Qed.

Lemma tokens_skip_delims (delim : ascii -> bool) (s : string) :
  tokens delim s = tokens delim (skip_delims delim s).
Proof.
  unfold tokens. induction s as [|c r IH]; [reflexivity|]. simpl.
  destruct (delim c) eqn:E; [exact IH|]. simpl. now rewrite E.
Qed.

Lemma tokens_strtok (delim : ascii -> bool) (s : string) :
  tokens delim s
  = match strtok delim s with
    | None => []
    | Some (t, rest) => t :: tokens delim rest
    end.
Proof.
  rewrite tokens_skip_delims. unfold strtok.
  assert (H : skip_delims delim s = ""
              \/ exists c r, skip_delims delim s = String c r /\ delim c = false).
  { induction s as [|c r IH]; [now left|]. simpl.
    destruct (delim c) eqn:E; [exact IH|]. right. now exists c, r. }
  destruct H as [->|(c & r & -> & E)]; [reflexivity|].
  unfold tokens. rewrite tokens_go_split. simpl. rewrite E. simpl.
  rewrite append_nil_l. reflexivity.
Qed.

(** Every token is non-empty and holds no delimiter. *)
Lemma tokens_go_separable (delim : ascii -> bool) (s cur : string) :
  no_char delim cur = true ->
  Forall (separable delim) (tokens_go delim cur s).
Proof.
  revert cur; induction s as [|c r IH]; intros cur Hcur; simpl.
  - destruct (String.eqb_spec cur ""); [constructor|].
    constructor; [split; assumption|constructor].
  - destruct (delim c) eqn:E.
    + apply Forall_app. split; [|now apply IH].
      destruct (String.eqb_spec cur ""); [constructor|].
      constructor; [split; assumption|constructor].
    + apply IH. rewrite no_char_app, Hcur. simpl. now rewrite E.
Qed.

Lemma tokens_separable (delim : ascii -> bool) (s : string) :
  Forall (separable delim) (tokens delim s).
Proof. now apply tokens_go_separable. Qed.

Lemma split_token_word (delim : ascii -> bool) (w : string) (d : ascii) (rest : string) :
  no_char delim w = true -> delim d = true ->
  split_token delim (w +:+ String d rest) = (w, rest).
Proof.
  intros Hw Hd. induction w as [|c r IH].
  - rewrite append_nil_l. simpl. now rewrite Hd.
  - simpl in Hw. apply andb_prop in Hw as [Hc Hr].
    apply negb_true_iff in Hc. rewrite append_cons. simpl.
    rewrite Hc, (IH Hr). reflexivity.
Qed.

Lemma tokens_go_word (delim : ascii -> bool) (w : string) (d : ascii) (rest : string) :
  separable delim w -> delim d = true ->
  tokens delim (w +:+ String d rest) = w :: tokens delim rest.
Proof.
  intros [Hne Hw] Hd. unfold tokens.
  rewrite tokens_go_split, split_token_word by assumption. simpl.
  rewrite append_nil_l.
  destruct (String.eqb_spec w ""); [contradiction|reflexivity].
Qed.

End TokenFacts.

(** ** The index file, written and read back *)

Section IndexRoundTrip.

Import InvertedIndex IndexProps SearchPagerank SearchProps MoreProps.

Lemma no_char_weaken (bad bad' : ascii -> bool) (s : string) :
  (forall c, bad' c = true -> bad c = true) ->
  no_char bad s = true -> no_char bad' s = true.
Proof.
  intros H. induction s as [|c r IH]; [reflexivity|]. simpl.
  intros Hs. apply andb_prop in Hs as [Hc Hr]. rewrite (IH Hr), andb_true_r.
  apply negb_true_iff. apply negb_true_iff in Hc.
  destruct (bad' c) eqn:E; [|reflexivity]. rewrite (H c E) in Hc. discriminate.
Qed.

Lemma separable_weaken (bad bad' : ascii -> bool) (s : string) :
  (forall c, bad' c = true -> bad c = true) ->
  separable bad s -> separable bad' s.
Proof. intros H [Hne Hs]. split; [exact Hne|]. now apply (no_char_weaken bad). Qed.

Lemma blank_or_newline_isspace (c : ascii) :
  is_blank_or_newline c = true -> isspace c = true.
Proof. destruct c as [[] [] [] [] [] [] [] []]; vm_compute; auto. Qed.

Lemma blank_is_blank_or_newline (c : ascii) :
  is_blank c = true -> is_blank_or_newline c = true.
Proof. unfold is_blank, is_blank_or_newline. now intros ->. Qed.

Lemma newline_is_blank_or_newline (c : ascii) :
  is_newline c = true -> is_blank_or_newline c = true.
Proof. unfold is_newline, is_blank_or_newline. intros ->. apply orb_true_r. Qed.

Lemma line_text_names (w : string) (fl : list string) :
  line_text (w, fl) = w +:+ names_text (String "010" "") fl.
Proof. reflexivity. Qed.

Lemma names_text_cons (tail f : string) (fl : list string) :
  names_text tail (f :: fl) = String " " (f +:+ names_text tail fl).
Proof. reflexivity. Qed.

Lemma names_text_tail (tail : string) (fl : list string) :
  names_text tail fl = names_text "" fl +:+ tail.
Proof.
  induction fl as [|f fl IH]; [reflexivity|].
  rewrite !names_text_cons, IH, append_cons. now rewrite append_assoc.
Qed.

Lemma names_text_no_newline (fl : list string) :
  Forall (separable is_blank_or_newline) fl ->
  no_char is_newline (names_text "" fl) = true.
Proof.
  induction 1 as [|f fl [_ Hf] _ IH]; [reflexivity|].
  rewrite names_text_cons. simpl. rewrite no_char_app, IH, andb_true_r.
  apply (no_char_weaken is_blank_or_newline);
    [apply newline_is_blank_or_newline|exact Hf].
Qed.

(** One call of [fgets] returns a line that fits the buffer, whole. *)
Lemma fgets_n_go_line (size : nat) (body rest cur : string) (room : nat) :
  no_char is_newline body = true -> (String.length body < room)%nat ->
  fgets_n_go size cur room (body +:+ String "010" rest)
  = (cur +:+ body +:+ String "010" "") :: fgets_n_go size "" (size - 1) rest.
Proof.
  revert cur room; induction body as [|c b IH]; intros cur room Hb Hroom.
  - rewrite !append_nil_l. simpl. destruct room; [simpl in Hroom; lia|]. reflexivity.
  - rewrite append_cons. simpl in Hb, Hroom. apply andb_prop in Hb as [Hc Hb].
    apply negb_true_iff in Hc. unfold is_newline in Hc.
    simpl. destruct room as [|room]; [lia|]. simpl. rewrite Hc.
    rewrite IH by (assumption || lia).
    now rewrite append_assoc, append_cons, append_nil_l.
Qed.

Lemma line_text_body (w : string) (fl : list string) :
  separable is_blank_or_newline w ->
  Forall (separable is_blank_or_newline) fl ->
  line_text (w, fl) = (w +:+ names_text "" fl) +:+ String "010" "" /\
  no_char is_newline (w +:+ names_text "" fl) = true.
Proof.
  intros [_ Hw] Hfl. split.
  - rewrite line_text_names, names_text_tail. now rewrite append_assoc.
  - rewrite no_char_app, names_text_no_newline by exact Hfl.
    rewrite andb_true_r.
    apply (no_char_weaken is_blank_or_newline);
      [apply newline_is_blank_or_newline|exact Hw].
Qed.

Lemma fgets_n_index_text (size : nat) (out : list (string * list string)) :
  Forall (fun line =>
            separable is_blank_or_newline line.1 /\
            Forall (separable is_blank_or_newline) line.2 /\
            (String.length (line_text line) < size)%nat) out ->
  fgets_n size (index_text out) = line_text <$> out.
Proof.
  unfold fgets_n. induction 1 as [|[w fl] out (Hw & Hfl & Hlen) _ IH];
    [reflexivity|].
  simpl index_text. rewrite fmap_cons. simpl in Hw, Hfl.
  destruct (line_text_body w fl Hw Hfl) as [E Hnl].
  rewrite E in Hlen |- *. rewrite append_assoc, append_cons, append_nil_l.
  rewrite append_length in Hlen. simpl in Hlen.
  rewrite fgets_n_go_line by (assumption || lia).
  rewrite IH, append_nil_l. reflexivity.
Qed.

Lemma tokens_names_text (fl : list string) :
  Forall (separable is_blank_or_newline) fl ->
  tokens is_blank_or_newline (names_text (String "010" "") fl) = fl.
Proof.
  induction 1 as [|f fl Hf Hfl IH]; [reflexivity|].
  rewrite names_text_cons.
  change (tokens is_blank_or_newline
            (String " " (f +:+ names_text (String "010" "") fl)))
    with (tokens is_blank_or_newline (f +:+ names_text (String "010" "") fl)).
  assert (Hd : exists d rest, names_text (String "010" "") fl = String d rest /\
                              is_blank_or_newline d = true /\
                              tokens is_blank_or_newline (String d rest)
                              = tokens is_blank_or_newline rest).
  { destruct fl as [|g fl].
    - exists "010"%char, "". repeat split.
    - exists " "%char, (g +:+ names_text (String "010" "") fl). repeat split. }
  destruct Hd as (d & rest & E & Hd & Et).
  rewrite E in IH |- *. rewrite tokens_go_word by assumption.
  now rewrite <- Et, IH.
Qed.

Lemma skip_delims_word (delim : ascii -> bool) (w rest : string) :
  separable delim w -> skip_delims delim (w +:+ rest) = w +:+ rest.
Proof.
  intros [Hne Hw]. destruct w as [|c r]; [congruence|].
  simpl in Hw. apply andb_prop in Hw as [Hc _]. apply negb_true_iff in Hc.
  rewrite append_cons. simpl. now rewrite Hc.
Qed.

Lemma parseIndexLine_line_text (w : string) (fl : list string) :
  separable is_blank_or_newline w -> fl <> [] ->
  Forall (separable is_blank_or_newline) fl ->
  (String.length w < MAX_WORD_LENGTH)%nat ->
  (length fl <= MAX_URLS)%nat ->
  parseIndexLine (line_text (w, fl)) = Some (mkWordEntry w fl).
Proof.
  intros Hw Hne Hfl Hwl Hlen. destruct fl as [|f fl]; [congruence|].
  assert (Hwb : separable is_blank w)
    by (apply (separable_weaken is_blank_or_newline);
        [apply blank_is_blank_or_newline|exact Hw]).
  pose proof (tokens_names_text (f :: fl) Hfl) as Et.
  rewrite names_text_cons in Et.
  change (tokens is_blank_or_newline
            (String " " (f +:+ names_text (String "010" "") fl)))
    with (tokens is_blank_or_newline (f +:+ names_text (String "010" "") fl)) in Et.
  rewrite line_text_names, names_text_cons.
  unfold parseIndexLine, strtok. rewrite skip_delims_word by exact Hwb.
  destruct Hwb as [Hwne Hwnb].
  destruct w as [|c r]; [congruence|]. rewrite append_cons.
  rewrite <- append_cons, split_token_word by (assumption || reflexivity).
  destruct (Nat.leb_spec MAX_WORD_LENGTH (String.length (String c r))); [lia|].
  rewrite Et. apply Nat.leb_le in Hlen. now rewrite Hlen.
Qed.

Lemma parseIndexLines_line_text (out : list (string * list string))
  (acc : list WordEntry) :
  Forall (fun line =>
            separable is_blank_or_newline line.1 /\ line.2 <> [] /\
            Forall (separable is_blank_or_newline) line.2 /\
            (String.length line.1 < MAX_WORD_LENGTH)%nat /\
            (length line.2 <= MAX_URLS)%nat) out ->
  (length acc + length out <= MAX_URLS)%nat ->
  parseIndexLines (line_text <$> out) acc = Some (acc ++ (entry_of_line <$> out)).
Proof.
  intros H; revert acc.
  induction H as [|[w fl] out (Hw & Hne & Hfl & Hwl & Hlen) _ IH];
    intros acc Hacc.
  - simpl. now rewrite app_nil_r.
  - simpl in Hacc. rewrite fmap_cons. cbn [parseIndexLines].
    destruct (Nat.leb_spec MAX_URLS (length acc)); [lia|].
    simpl in Hw, Hne, Hfl, Hwl, Hlen.
    rewrite parseIndexLine_line_text by assumption.
    rewrite IH by (rewrite length_app; simpl; lia).
    now rewrite <- app_assoc.
Qed.

(** What [parseInvertedIndex] returns for a file holding the lines [out]. *)
Lemma parseInvertedIndex_index_text (fs : filesystem) (filename : string)
  (out : list (string * list string)) :
  fs filename = Some (index_text out) ->
  Forall (fun line =>
            separable is_blank_or_newline line.1 /\ line.2 <> [] /\
            Forall (separable is_blank_or_newline) line.2) out ->
  index_fits out ->
  parseInvertedIndex fs filename = Some (PageRank.Done (entry_of_line <$> out)).
Proof.
  intros E Hsep [Hn Hfit]. unfold parseInvertedIndex. rewrite E.
  rewrite fgets_n_index_text.
  - rewrite parseIndexLines_line_text; [reflexivity| |simpl; lia].
    rewrite Forall_forall in *. intros line Hl.
    destruct (Hsep line Hl) as (? & ? & ?), (Hfit line Hl) as (? & ? & ?). auto.
  - rewrite Forall_forall in *. intros line Hl.
    destruct (Hsep line Hl) as (? & ? & ?), (Hfit line Hl) as (? & ? & ?). auto.
Qed.

End IndexRoundTrip.

(** ** The index that [main] writes *)

Section IndexContent.

Import InvertedIndex IndexProps SearchPagerank SearchProps MoreProps.

Lemma filePostings_elem (fs : filesystem) (filename w f : string) :
  (w, f) ∈ filePostings fs filename
  <-> f = filename /\ w <> "" /\
      exists content t,
        fs (filename +:+ ".txt") = Some content /\
        t ∈ fscanf_words content /\
        is_metadata t = false /\ looks_like_filename t = false /\
        normalizeWord t = w.
Proof.
  unfold filePostings.
  destruct (fs (filename +:+ ".txt")) as [content|].
  - rewrite list_elem_of_omap. unfold posting. split.
    + intros (t & Ht & E).
      destruct (is_metadata t) eqn:Em; [discriminate|].
      destruct (looks_like_filename t) eqn:El; [discriminate|].
      destruct (Nat.ltb_spec 0 (String.length (normalizeWord t))) as [Hlen|Hlen];
        [|discriminate].
      injection E as <- <-. split; [reflexivity|]. split.
      * intros E0. rewrite E0 in Hlen. simpl in Hlen. lia.
      * exists content, t. auto.
    + intros (-> & Hne & c & t & [= <-] & Ht & Em & El & <-).
      exists t. split; [exact Ht|]. rewrite Em, El.
      destruct (normalizeWord t) eqn:En; [congruence|reflexivity].
  - rewrite elem_of_nil. split; [tauto|].
    intros (_ & _ & c & t & E & _). discriminate.
Qed.

Lemma main_lists (fs : filesystem) (collection w f : string) :
  fs "collection.txt" = Some collection ->
  lists (InvertedIndex.main fs true).2 w f
  <-> f ∈ fscanf_words collection /\ (w, f) ∈ filePostings fs f.
Proof.
  intros E. rewrite (main_insertAll fs collection E). simpl.
  rewrite lists_insertAll, lists_nil, list_elem_of_bind. split.
  - intros [(n & Hp & Hn)|[]].
    assert (f = n) as -> by (apply filePostings_elem in Hp; tauto). auto.
  - intros [Hn Hp]. left. eauto.
Qed.

(** X5. The index written lists the word [w] for the document [f] exactly when
    [f] is a name of the manifest, its file can be opened, and [w] is the
    accepted normalization of a word of that file that is not skipped. A
    document whose file cannot be opened is left out, and the others are
    indexed all the same. *)
Theorem index_lists_exactly (fs : filesystem) (collection w f : string) :
  fs "collection.txt" = Some collection ->
  lists (InvertedIndex.main fs true).2 w f
  <-> f ∈ fscanf_words collection /\ w <> "" /\
      exists content t,
        fs (f +:+ ".txt") = Some content /\
        t ∈ fscanf_words content /\
        is_metadata t = false /\ looks_like_filename t = false /\
        normalizeWord t = w.
Proof.
  intros E. rewrite (main_lists fs collection w f E), filePostings_elem. tauto.
Qed.

Lemma index_lists_exactly_witness :
  Examples.alpha_fs "collection.txt" = Some (Examples.text ["alpha"; "beta"]) /\
  lists (InvertedIndex.main Examples.alpha_fs true).2 "world" "beta".
Proof.
  split; [reflexivity|].
  apply (index_lists_exactly Examples.alpha_fs (Examples.text ["alpha"; "beta"]));
    [reflexivity|].
  assert (E1 : fscanf_words (Examples.text ["alpha"; "beta"]) = ["alpha"; "beta"])
    by (vm_compute; reflexivity).
  assert (E2 : fscanf_words
                 (Examples.text ["#start Section-2"; "world"; "#end Section-2"])
               = ["#start"; "Section-2"; "world"; "#end"; "Section-2"])
    by (vm_compute; reflexivity).
  split; [rewrite E1, !elem_of_cons; auto|].
  split; [discriminate|].
  exists (Examples.text ["#start Section-2"; "world"; "#end Section-2"]), "world".
  split; [reflexivity|]. split; [rewrite E2, !elem_of_cons; auto|].
  split; [reflexivity|]. split; reflexivity.
Defined.

Lemma isspace_tolower (c : ascii) : isspace (tolower c) = isspace c.
Proof. destruct c as [[] [] [] [] [] [] [] []]; reflexivity. Qed.

Lemma no_char_map_tolower (s : string) :
  no_char isspace (map_chars tolower s) = no_char isspace s.
Proof.
  induction s as [|c r IH]; [reflexivity|]. simpl. now rewrite isspace_tolower, IH.
Qed.

Lemma no_char_truncate (bad : ascii -> bool) (n : nat) (s : string) :
  no_char bad s = true -> no_char bad (truncate n s) = true.
Proof.
  revert s; induction n as [|n IH]; intros s H; [now rewrite truncate_0|].
  destruct s as [|c r]; [reflexivity|]. rewrite truncate_S. simpl in *.
  apply andb_prop in H as [-> H]. now apply IH.
Qed.

Lemma normalizeWord_no_space (t : string) :
  no_char isspace t = true -> no_char isspace (normalizeWord t) = true.
Proof.
  intros H. unfold normalizeWord. destruct (_ || _); [reflexivity|].
  apply no_char_truncate. now rewrite no_char_map_tolower.
Qed.

Lemma main_index_ok (fs : filesystem) : index_ok (InvertedIndex.main fs true).2.
Proof.
  destruct (fs "collection.txt") as [collection|] eqn:E.
  - rewrite (main_insertAll fs collection E). simpl.
    apply tree_ok_index_ok, insertAll_ok. exact I.
  - unfold InvertedIndex.main. rewrite E. split; constructor.
Qed.

(** What each line of the index written looks like. *)
Lemma main_lines (fs : filesystem) (w : string) (fl : list string) :
  (w, fl) ∈ (InvertedIndex.main fs true).2 ->
  fl <> [] /\ separable isspace w /\ normalizeWord w = w /\
  islower (char_at w 0) = true /\
  Forall (separable isspace) fl /\
  forall f, f ∈ fl ->
    exists collection, fs "collection.txt" = Some collection /\
                       f ∈ fscanf_words collection /\
                       is_Some (fs (f +:+ ".txt")).
Proof.
  intros Hin. destruct (main_index_ok fs) as [_ Hall].
  rewrite Forall_forall in Hall. destruct (Hall _ Hin) as [_ Hne]. simpl in Hne.
  destruct (fs "collection.txt") as [collection|] eqn:E;
    [|unfold InvertedIndex.main in Hin; rewrite E in Hin;
      now apply elem_of_nil in Hin].
  assert (Hl : forall f, f ∈ fl ->
             f ∈ fscanf_words collection /\ (w, f) ∈ filePostings fs f).
  { intros f Hf. apply (main_lists fs collection w f E). now exists fl. }
  assert (Hdocs : forall f, f ∈ fl ->
             f ∈ fscanf_words collection /\ is_Some (fs (f +:+ ".txt"))).
  { intros f Hf. destruct (Hl f Hf) as [Hm Hp]. split; [exact Hm|].
    apply filePostings_elem in Hp as (_ & _ & c & _ & Ec & _). now exists c. }
  split; [exact Hne|].
  destruct fl as [|f0 fl0]; [congruence|].
  destruct (Hl f0 ltac:(left)) as [_ Hp].
  apply filePostings_elem in Hp as (_ & Hw & c & t & _ & Ht & _ & _ & Et).
  assert (Hsep : separable isspace t).
  { pose proof (tokens_separable isspace c) as Hs. rewrite Forall_forall in Hs.
    now apply Hs. }
  assert (Hshape := normalizeWord_shape t ltac:(rewrite Et; exact Hw)).
  cbv zeta in Hshape. rewrite Et in Hshape.
  destruct Hshape as (_ & Hlen & Hlow & Hall' & Hlast).
  split; [|split; [|split; [exact Hlow|split]]].
  - split; [exact Hw|]. rewrite <- Et. apply normalizeWord_no_space, Hsep.
  - apply normalizeWord_fixes_shape; [lia|assumption..].
  - apply Forall_forall. intros f Hf. destruct (Hdocs f Hf) as [Hm _].
    pose proof (tokens_separable isspace collection) as Hs.
    rewrite Forall_forall in Hs. now apply Hs.
  - intros f Hf. exists collection. destruct (Hdocs f Hf). auto.
Qed.

End IndexContent.

Section IndexFileProperties.

Import InvertedIndex IndexProps SearchPagerank SearchProps MoreProps.

(** X6. Every line of the index written has at least one document; its term
    is not empty, starts with a lowercase letter, holds no white space,
    and is left unchanged by the normalizer; each of its documents is a
    name of the manifest, without white space, whose file could be opened. *)
Theorem index_lines_invariant (fs : filesystem) (w : string) (fl : list string) :
  (w, fl) ∈ (InvertedIndex.main fs true).2 ->
  fl <> [] /\ separable isspace w /\ normalizeWord w = w /\
  islower (char_at w 0) = true /\
  Forall (separable isspace) fl /\
  forall f, f ∈ fl ->
    exists collection, fs "collection.txt" = Some collection /\
                       f ∈ fscanf_words collection /\
                       is_Some (fs (f +:+ ".txt")).
Proof. apply main_lines. Qed.

Lemma alpha_index :
  (InvertedIndex.main Examples.alpha_fs true).2
  = [("beta", ["alpha"]); ("hello", ["alpha"]); ("world", ["alpha"; "beta"])].
Proof. vm_compute. reflexivity. Defined.

Lemma index_lines_invariant_witness :
  ("world", ["alpha"; "beta"]) ∈ (InvertedIndex.main Examples.alpha_fs true).2 /\
  normalizeWord "world" = "world".
Proof.
  assert (H : ("world", ["alpha"; "beta"])
              ∈ (InvertedIndex.main Examples.alpha_fs true).2)
    by (rewrite alpha_index, !elem_of_cons; auto).
  split; [exact H|].
  exact (proj1 (proj2 (proj2 (index_lines_invariant Examples.alpha_fs _ _ H)))).
Defined.

Lemma main_lines_separable (fs : filesystem) :
  Forall (fun line =>
            separable is_blank_or_newline line.1 /\ line.2 <> [] /\
            Forall (separable is_blank_or_newline) line.2)
         (InvertedIndex.main fs true).2.
Proof.
  apply Forall_forall. intros [w fl] Hin.
  destruct (main_lines fs w fl Hin) as (Hne & Hw & _ & _ & Hfl & _). simpl.
  split; [|split; [exact Hne|]].
  - eapply separable_weaken; [apply blank_or_newline_isspace|exact Hw].
  - eapply Forall_impl; [exact Hfl|]. intros f Hf.
    eapply separable_weaken; [apply blank_or_newline_isspace|exact Hf].
Qed.

Lemma entries_wf (out : list (string * list string)) :
  index_ok out -> index_wf (entry_of_line <$> out).
Proof.
  intros [Hs Hf]. split.
  - rewrite <- list_fmap_compose.
    apply str_lt_sorted_NoDup in Hs. exact Hs.
  - apply Forall_fmap. eapply Forall_impl; [exact Hf|].
    intros line [Hl _]. simpl. now apply str_lt_sorted_NoDup.
Qed.

(** X7. A file that holds lines of separable words and names, each line with a
    name and all within the sizes of the reader, is read back by
    [parseInvertedIndex] as exactly those lines. *)
Theorem parseInvertedIndex_reads_lines (fs : filesystem) (filename : string)
  (out : list (string * list string)) :
  fs filename = Some (index_text out) ->
  Forall (fun line =>
            separable is_blank_or_newline line.1 /\ line.2 <> [] /\
            Forall (separable is_blank_or_newline) line.2) out ->
  index_fits out ->
  parseInvertedIndex fs filename = Some (PageRank.Done (entry_of_line <$> out)).
Proof. apply parseInvertedIndex_index_text. Qed.

Lemma cat_lines_separable :
  Forall (fun line =>
            separable is_blank_or_newline line.1 /\ line.2 <> [] /\
            Forall (separable is_blank_or_newline) line.2)
         [("cat", ["A"; "B"]); ("dog", ["B"])].
Proof.
  repeat constructor; simpl; discriminate.
Defined.

Lemma cat_lines_fit : index_fits [("cat", ["A"; "B"]); ("dog", ["B"])].
Proof.
  split; [vm_compute; lia|]. repeat constructor; vm_compute; lia.
Defined.

Lemma parseInvertedIndex_reads_lines_witness :
  parseInvertedIndex
    (fun _ => Some (index_text [("cat", ["A"; "B"]); ("dog", ["B"])]))
    "invertedIndex.txt"
  = Some (PageRank.Done [mkWordEntry "cat" ["A"; "B"]; mkWordEntry "dog" ["B"]]).
Proof.
  apply (parseInvertedIndex_reads_lines _ "invertedIndex.txt"
           [("cat", ["A"; "B"]); ("dog", ["B"])]).
  - reflexivity.
  - exact cat_lines_separable.
  - exact cat_lines_fit.
Defined.

(** X8. The query engine reads back the index that the index builder wrote:
    when the lines written fit the arrays and the line buffer of the
    reader, [parseInvertedIndex] returns them entry for entry, and what it
    returns has one entry per term and no document twice in an entry. *)
Theorem index_written_is_read_back (fs fs' : filesystem) :
  fs' "invertedIndex.txt" = Some (index_text (InvertedIndex.main fs true).2) ->
  index_fits (InvertedIndex.main fs true).2 ->
  parseInvertedIndex fs' "invertedIndex.txt"
  = Some (PageRank.Done (entry_of_line <$> (InvertedIndex.main fs true).2)) /\
  index_wf (entry_of_line <$> (InvertedIndex.main fs true).2).
Proof.
  intros E Hfit. split.
  - apply parseInvertedIndex_index_text;
      [exact E|apply main_lines_separable|exact Hfit].
  - apply entries_wf, main_index_ok.
Qed.

Lemma alpha_index_fits : index_fits (InvertedIndex.main Examples.alpha_fs true).2.
Proof.
  rewrite alpha_index. split; [vm_compute; lia|].
  repeat constructor; vm_compute; lia.
Defined.

Lemma index_written_is_read_back_witness :
  parseInvertedIndex
    (fun _ => Some (index_text (InvertedIndex.main Examples.alpha_fs true).2))
    "invertedIndex.txt"
  = Some (PageRank.Done
            (entry_of_line <$> (InvertedIndex.main Examples.alpha_fs true).2)).
Proof.
  apply (index_written_is_read_back Examples.alpha_fs);
    [reflexivity|exact alpha_index_fits].
Defined.

Lemma split_token_no_delim (delim : ascii -> bool) (s : string) :
  no_char delim s = true -> split_token delim s = (s, "").
Proof.
  induction s as [|c r IH]; [reflexivity|]. simpl. intros H.
  apply andb_prop in H as [Hc Hr]. apply negb_true_iff in Hc.
  now rewrite Hc, (IH Hr).
Qed.

(** X9. A line that holds a word and no name is read as an entry whose word
    keeps the newline of the line, with no names: the first token is cut
    at spaces only. The word and its newline have to fit the buffer
    [word]. *)
Theorem parseIndexLine_word_alone (w : string) :
  separable is_blank w ->
  (String.length w + 1 < MAX_WORD_LENGTH)%nat ->
  parseIndexLine (w +:+ String "010" "")
  = Some (mkWordEntry (w +:+ String "010" "") []).
Proof.
  intros [Hne Hw] Hlen. unfold parseIndexLine, strtok.
  rewrite skip_delims_word by (split; assumption).
  destruct w as [|c r]; [congruence|]. rewrite append_cons.
  rewrite <- append_cons, split_token_no_delim.
  - destruct (Nat.leb_spec MAX_WORD_LENGTH
                (String.length (String c r +:+ String "010" ""))) as [Hge|_].
    + rewrite append_length in Hge. simpl in Hge, Hlen. lia.
    + reflexivity.
  - rewrite no_char_app, Hw. reflexivity.
Qed.

Lemma parseIndexLine_word_alone_witness :
  separable is_blank "cat" /\
  (String.length "cat" + 1 < MAX_WORD_LENGTH)%nat /\
  parseIndexLine ("cat" +:+ String "010" "")
  = Some (mkWordEntry ("cat" +:+ String "010" "") []).
Proof.
  assert (H : separable is_blank "cat") by (split; [discriminate|reflexivity]).
  assert (Hl : (String.length "cat" + 1 < MAX_WORD_LENGTH)%nat)
    by (unfold MAX_WORD_LENGTH; simpl; lia).
  split; [exact H|]. split; [exact Hl|].
  exact (parseIndexLine_word_alone "cat" H Hl).
Defined.

End IndexFileProperties.

(** ** Ranking the results of a query *)

Section CompareFacts.

Import SearchPagerank MoreProps.

(** The comparisons of [compareURLs], as functions on doubles. *)
(** The sign of [compareURLs], for scores that are not NaN. *)
Lemma compareURLs_sign (a b : URL) :
  pageRank a <> NaN -> pageRank b <> NaN ->
  ((compareURLs a b < 0)%Z <-> ranks_before a b) /\
  (compareURLs a b = 0%Z <-> same_rank a b) /\
  ((0 < compareURLs a b)%Z <-> ranks_before b a).
Proof.
  intros Ha Hb. unfold compareURLs, ranks_before, same_rank. ieee_ops.
  destruct (Z.eqb_spec (matchCount a) (matchCount b)) as [Em|Em]; simpl negb; cbv iota.
  - destruct (Double.ne (pageRank a) (pageRank b)) eqn:En; cbv iota.
    + assert (En' : Double.ne (pageRank b) (pageRank a) = true)
        by (now rewrite ne_sym).
      apply (ne_true_iff _ _ Ha Hb) in En as [Hlt|Hlt].
      * rewrite Hlt, (lt_asym _ _ Hlt).
        change (Z.b2z true - Z.b2z false)%Z with 1%Z.
        pose proof (lt_asym _ _ Hlt) as Hn.
        split; [|split]; split; intros H; intuition (try lia; try congruence).
      * rewrite Hlt, (lt_asym _ _ Hlt).
        change (Z.b2z false - Z.b2z true)%Z with (-1)%Z.
        pose proof (lt_asym _ _ Hlt) as Hn.
        split; [|split]; split; intros H; intuition (try lia; try congruence).
    + pose proof (ne_false_sym _ _ En) as En'.
      apply ne_false_iff in En as (_ & _ & Hab & Hba).
      pose proof (strcmp_flip (url b) (url a)) as Hf.
      pose proof (strcmp_eq (url a) (url b)) as He.
      unfold str_lt.
      split; [|split]; split; intros H; intuition (try lia; try congruence).
  - split; [|split]; split; intros H; intuition (try lia; try congruence).
Qed.

(** With a NaN among the scores and equal counts, the comparison is 0
    whatever the names. *)
Lemma compareURLs_nan (a b : URL) :
  matchCount a = matchCount b -> pageRank a = NaN \/ pageRank b = NaN ->
  compareURLs a b = 0%Z.
Proof.
  intros Em Hn. unfold compareURLs. ieee_ops. rewrite Em, Z.eqb_refl. simpl negb.
  cbv iota. destruct Hn as [E|E]; rewrite E;
    destruct (pageRank a), (pageRank b); try discriminate; reflexivity.
Qed.

End CompareFacts.

(** ** Matching a query against the index *)

Section SearchProperties.

Import CString SearchPagerank SearchProps MoreProps.








Lemma hits_terms_perm (idx : list WordEntry) (terms terms' : list string)
  (name : string) :
  terms ≡ₚ terms' -> hits idx terms name = hits idx terms' name.
Proof.
  unfold hits. induction 1; cbn [foldr]; lia.
Qed.

Lemma termHits_index_perm (idx idx' : list WordEntry) (name term : string) :
  idx ≡ₚ idx' -> termHits idx name term = termHits idx' name term.
Proof.
  unfold termHits. induction 1; cbn [foldr]; lia.
Qed.

Lemma hits_index_perm (idx idx' : list WordEntry) (terms : list string)
  (name : string) :
  idx ≡ₚ idx' -> hits idx terms name = hits idx' terms name.
Proof.
  intros Hp. unfold hits. induction terms as [|t terms IH]; cbn [foldr]; [reflexivity|].
  now rewrite IH, (termHits_index_perm idx idx' name t Hp).
Qed.

Lemma hits_known_terms (idx : list WordEntry) (terms : list string) (name : string) :
  hits idx (filter (fun t => t ∈ word <$> idx) terms) name = hits idx terms name.
Proof.
  unfold hits. induction terms as [|t terms IH]; [reflexivity|].
  rewrite filter_cons. destruct (decide (t ∈ word <$> idx)) as [Hin|Hni]; cbn [foldr].
  - now rewrite IH.
  - rewrite IH, (termHits_absent idx name t Hni). lia.
Qed.

Lemma findMatchingURLs_results (idx : list WordEntry) (prl : PageRankList)
  (terms : list string) :
  (findMatchingURLs idx prl terms).2
  = filter (fun e => (0 < matchCount e)%Z) (findMatchingURLs idx prl terms).1.
Proof. reflexivity. Qed.

Lemma findMatchingURLs_ext (idx idx' : list WordEntry) (prl : PageRankList)
  (terms terms' : list string) :
  (forall name, hits idx terms name = hits idx' terms' name) ->
  findMatchingURLs idx prl terms = findMatchingURLs idx' prl terms'.
Proof.
  intros H.
  assert (E : (findMatchingURLs idx prl terms).1 = (findMatchingURLs idx' prl terms').1).
  { rewrite !findMatchingURLs_hits. now apply add_matches_ext. }
  pose proof (findMatchingURLs_results idx prl terms) as R1.
  pose proof (findMatchingURLs_results idx' prl terms') as R2.
  rewrite E in R1. rewrite <- R2 in R1.
  destruct (findMatchingURLs idx prl terms), (findMatchingURLs idx' prl terms').
  simpl in *. congruence.
Qed.








(** X12. Neither the order of the terms of the query nor the order of the
    entries of the index changes the table or the results. *)
Theorem findMatchingURLs_order_irrelevant (wordEntries wordEntries' : list WordEntry)
  (pageRankList : PageRankList) (searchTerms searchTerms' : list string) :
  wordEntries ≡ₚ wordEntries' -> searchTerms ≡ₚ searchTerms' ->
  findMatchingURLs wordEntries pageRankList searchTerms
  = findMatchingURLs wordEntries' pageRankList searchTerms'.
Proof.
  intros Hi Ht. apply findMatchingURLs_ext. intros name.
  rewrite (hits_terms_perm _ _ _ name Ht). now apply hits_index_perm.
Qed.

Lemma findMatchingURLs_order_irrelevant_witness :
  pets_index ≡ₚ reverse pets_index /\
  ["cat"; "dog"] ≡ₚ ["dog"; "cat"] /\
  findMatchingURLs pets_index pets_ranks ["cat"; "dog"]
  = findMatchingURLs (reverse pets_index) pets_ranks ["dog"; "cat"].
Proof.
  assert (Hi : pets_index ≡ₚ reverse pets_index) by (symmetry; apply reverse_Permutation).
  assert (Ht : ["cat"; "dog"] ≡ₚ ["dog"; "cat"]) by apply Permutation_swap.
  split; [exact Hi|]. split; [exact Ht|].
  exact (findMatchingURLs_order_irrelevant _ _ pets_ranks _ _ Hi Ht).
Defined.

(** X13. A term that is not, byte for byte, a word of the index changes
    nothing: the query gives what its known terms alone give. *)
Theorem unknown_terms_are_ignored (wordEntries : list WordEntry)
  (pageRankList : PageRankList) (searchTerms : list string) :
  findMatchingURLs wordEntries pageRankList searchTerms
  = findMatchingURLs wordEntries pageRankList
      (filter (fun t => t ∈ word <$> wordEntries) searchTerms).
Proof.
  apply findMatchingURLs_ext. intros name. symmetry. apply hits_known_terms.
Qed.

End SearchProperties.

(** ** The order of the results *)

Section RankingProperties.

Import CString SearchPagerank SearchProps MoreProps.

Lemma compareURLs_le (a b : URL) :
  pageRank a <> NaN -> pageRank b <> NaN ->
  (compareURLs a b <= 0)%Z <-> ranks_before a b \/ same_rank a b.
Proof.
  intros Ha Hb.
  destruct (compareURLs_sign a b Ha Hb) as (H1 & H2 & _). rewrite <- H1, <- H2. lia.
Qed.

(** Exchanging the arguments exchanges the sign, also with NaN scores. *)
Lemma compareURLs_flip (a b : URL) :
  (0 < compareURLs a b)%Z <-> (compareURLs b a < 0)%Z.
Proof.
  unfold compareURLs. ieee_ops. rewrite (Z.eqb_sym (matchCount b)).
  destruct (Z.eqb_spec (matchCount a) (matchCount b)) as [Em|Em]; simpl negb; cbv iota;
    [|lia].
  rewrite (ne_sym (pageRank b)).
  destruct (Double.ne (pageRank a) (pageRank b)); cbv iota.
  - destruct (Double.lt (pageRank a) (pageRank b)),
             (Double.lt (pageRank b) (pageRank a)); simpl; lia.
  - pose proof (strcmp_flip (url b) (url a)). tauto.
Qed.

Lemma compareURLs_total (a b : URL) :
  (compareURLs a b <= 0)%Z \/ (compareURLs b a <= 0)%Z.
Proof.
  destruct (Z.le_gt_cases (compareURLs a b) 0) as [H|H]; [now left|right].
  apply compareURLs_flip in H. lia.
Qed.

Lemma compareURLs_trans (a b c : URL) :
  pageRank a <> NaN -> pageRank b <> NaN -> pageRank c <> NaN ->
  (compareURLs a b <= 0)%Z -> (compareURLs b c <= 0)%Z -> (compareURLs a c <= 0)%Z.
Proof.
  intros Ha Hb Hc. rewrite !compareURLs_le by assumption.
  unfold ranks_before, same_rank, str_lt.
  pose proof (str_lt_trans (url a) (url b) (url c)) as Ht. unfold str_lt in Ht.
  intros Hab Hbc.
  destruct Hab as [[Hab|(Eab & [Hab|(Qab & Sab)])]|(Eab & Qab & Sab)];
  destruct Hbc as [[Hbc|(Ebc & [Hbc|(Qbc & Sbc)])]|(Ebc & Qbc & Sbc)];
  first
    [ left; left; lia
    | left; right; split; [lia|]; left;
      first [ exact (lt_trans _ _ _ Hbc Hab)
            | exact (lt_eq_r _ _ _ Hbc Qab)
            | exact (lt_eq_l _ _ _ Qbc Hab) ]
    | left; right; split; [lia|]; right;
      split; [exact (ne_false_trans _ _ _ Qab Qbc)|];
      first [ now apply Ht | congruence ]
    | right; split; [lia|];
      split; [exact (ne_false_trans _ _ _ Qab Qbc)|congruence] ].
Qed.

Lemma compareURLs_antisym (a b : URL) :
  pageRank a <> NaN -> pageRank b <> NaN ->
  (compareURLs a b <= 0)%Z -> (compareURLs b a <= 0)%Z -> same_rank a b.
Proof.
  intros Ha Hb Hab Hba. apply (compareURLs_sign a b Ha Hb).
  pose proof (compareURLs_flip b a). lia.
Qed.

Lemma rank_key_eq (a b : URL) :
  pageRank a <> NaN -> rank_key a = rank_key b <-> same_rank a b.
Proof.
  intros Ha. unfold rank_key, same_rank. split.
  - intros E. injection E as Em Eq Eu. split; [exact Em|]. split; [|exact Eu].
    now apply canonical_eq.
  - intros (Em & Eq & Eu). rewrite Em, Eu. f_equal. f_equal.
    now apply canonical_eq.
Qed.

Lemma same_rank_le (a b : URL) :
  pageRank a <> NaN -> pageRank b <> NaN -> same_rank a b -> (compareURLs a b <= 0)%Z.
Proof. intros Ha Hb H. apply compareURLs_le; auto. Qed.

Lemma same_rank_sym (a b : URL) : same_rank a b -> same_rank b a.
Proof.
  intros (Em & Eq & Eu). split; [now symmetry|]. split; [|now symmetry].
  now apply ne_false_sym.
Qed.

(** [qsort] has an outcome, for any comparison that is total. *)
Lemma qsort_result_exists {A : Type} (compar : A -> A -> Z) (base : list A) :
  (forall a b, (compar a b <= 0)%Z \/ (compar b a <= 0)%Z) ->
  exists sorted, qsort_result compar base sorted.
Proof.
  intros Htotal.
  assert (HT : Total (fun a b => (compar a b <= 0)%Z)) by exact Htotal.
  assert (HD : forall x y, Decision ((fun a b => (compar a b <= 0)%Z) x y))
    by (intros x y; apply Z.le_dec).
  exists (merge_sort (fun a b => (compar a b <= 0)%Z) base). split.
  - apply merge_sort_Permutation.
  - apply (Sorted_merge_sort _).
Qed.

Lemma qsort_result_length {A : Type} (compar : A -> A -> Z) (base sorted : list A) :
  qsort_result compar base sorted -> length sorted = length base.
Proof. intros [Hp _]. now apply Permutation_length. Qed.

(** A sorted list of elements that satisfy [P] is sorted for the order
    restricted to such elements. *)
Lemma Sorted_restrict {A : Type} (R : relation A) (P : A -> Prop) (l : list A) :
  Forall P l -> Sorted R l -> Sorted (fun a b => R a b /\ P a /\ P b) l.
Proof.
  intros HP Hs. induction Hs as [|x l Hl IH Hx]; constructor.
  - apply IH. now apply Forall_cons in HP as [_ HP].
  - apply Forall_cons in HP as [Hx' HP]. destruct Hx as [|y l Hxy]; constructor.
    apply Forall_cons in HP as [Hy _]. auto.
Qed.

(** The comparison, restricted to the results whose score is a number, is
    transitive: a sorted array of such results is sorted at any distance. *)
Lemma sorted_numbers (s : list URL) :
  scores_are_numbers s ->
  Sorted (fun a b => (compareURLs a b <= 0)%Z) s ->
  StronglySorted (fun a b => (compareURLs a b <= 0)%Z
                             /\ pageRank a <> NaN /\ pageRank b <> NaN) s.
Proof.
  intros Hn Hs. apply Sorted_StronglySorted.
  - intros x y z (Hxy & Hx & Hy) (Hyz & _ & Hz). split; [|auto].
    now apply (compareURLs_trans x y z).
  - now apply (Sorted_restrict _ (fun e => pageRank e <> NaN)).
Qed.

(** Two outcomes of the sort hold, place by place, results of the same
    count, score and name, when no score is a NaN. *)
Lemma sorted_keys_unique (results s1 s2 : list URL) :
  scores_are_numbers results ->
  qsort_result compareURLs results s1 -> qsort_result compareURLs results s2 ->
  rank_key <$> s1 = rank_key <$> s2.
Proof.
  intros Hn [P1 S1] [P2 S2].
  set (R' := fun a b : URL => (compareURLs a b <= 0)%Z
                              /\ pageRank a <> NaN /\ pageRank b <> NaN).
  set (R := fun k1 k2 : Z * double * string =>
              exists a b, rank_key a = k1 /\ rank_key b = k2 /\ R' a b).
  assert (HR : forall s, s ≡ₚ results ->
                         Sorted (fun a b => (compareURLs a b <= 0)%Z) s ->
                         StronglySorted R (rank_key <$> s)).
  { intros s Hp Hs. apply (StronglySorted_fmap _ R').
    - intros x y Hxy. now exists x, y.
    - apply sorted_numbers; [|exact Hs]. unfold scores_are_numbers. now rewrite Hp. }
  apply (StronglySorted_unique_strong R); [|now apply HR|now apply HR|].
  - intros k1 k2 _ _ (a & b & <- & <- & Hab & Ha & Hb)
                     (b' & a' & Eb & Ea & Hba & Hb' & Ha').
    apply (rank_key_eq a b Ha). apply compareURLs_antisym; [exact Ha|exact Hb|exact Hab|].
    apply (rank_key_eq b' b Hb') in Eb. apply (rank_key_eq a' a Ha') in Ea.
    apply (compareURLs_trans _ b'); [exact Hb|exact Hb'|exact Ha| |].
    { apply same_rank_le; [exact Hb|exact Hb'|]. now apply same_rank_sym. }
    apply (compareURLs_trans _ a'); [exact Hb'|exact Ha'|exact Ha|exact Hba|].
    now apply same_rank_le.
  - apply fmap_Permutation. now rewrite P1, P2.
Qed.

Lemma printed_of_keys (sorted : list URL) :
  url <$> take 30 sorted = take 30 (snd <$> (rank_key <$> sorted)).
Proof.
  rewrite <- list_fmap_compose, fmap_take. reflexivity.
Qed.

Lemma rankAndPrintResults_unique (results : list URL) (p1 p2 : list string) :
  scores_are_numbers results ->
  rankAndPrintResults results p1 -> rankAndPrintResults results p2 -> p1 = p2.
Proof.
  intros Hn (s1 & H1 & ->) (s2 & H2 & ->).
  now rewrite !printed_of_keys, (sorted_keys_unique results s1 s2).
Qed.


(** X14. For two results whose scores are not NaN, the comparison is
    negative exactly when the first has more matching terms, or as many and
    a higher score, or as many, the same score and the smaller name; it is
    positive exactly when the same holds with the two exchanged, and zero
    exactly when count, score and name agree. With a NaN among the two
    scores and equal counts it is zero whatever the names. *)
Theorem compareURLs_order (urlA urlB : URL) :
  (pageRank urlA <> NaN -> pageRank urlB <> NaN ->
   ((compareURLs urlA urlB < 0)%Z <-> ranks_before urlA urlB) /\
   (compareURLs urlA urlB = 0%Z <-> same_rank urlA urlB) /\
   ((0 < compareURLs urlA urlB)%Z <-> ranks_before urlB urlA)) /\
  (matchCount urlA = matchCount urlB ->
   pageRank urlA = NaN \/ pageRank urlB = NaN ->
   compareURLs urlA urlB = 0%Z).
Proof. split; [apply compareURLs_sign|apply compareURLs_nan]. Qed.

(** X15. For every array of results the sort has an outcome, and what is
    printed has one line per result up to 30 lines. *)
Theorem rankAndPrintResults_prints (results : list URL) :
  exists printed,
    rankAndPrintResults results printed /\
    length printed = Nat.min 30 (length results).
Proof.
  destruct (qsort_result_exists compareURLs results compareURLs_total) as [s Hs].
  exists (url <$> take 30 s). split; [now exists s|].
  now rewrite length_fmap, length_take, (qsort_result_length _ _ _ Hs).
Qed.

(** X16. When no result has a NaN for its score, the lines printed are the
    same whatever order [qsort] leaves results that compare equal in. *)
Theorem rankAndPrintResults_deterministic (results : list URL)
  (printed printed' : list string) :
  scores_are_numbers results ->
  rankAndPrintResults results printed -> rankAndPrintResults results printed' ->
  printed = printed'.
Proof. apply rankAndPrintResults_unique. Qed.

(** X17. When no result has a NaN for its score, the lines printed list the
    results by rank: a result comes before every result that it ranks
    before, whatever their distance. *)
Theorem printed_in_rank_order (results : list URL) (printed : list string) :
  scores_are_numbers results ->
  rankAndPrintResults results printed ->
  exists sorted,
    sorted ≡ₚ results /\
    StronglySorted (fun a b => ranks_before a b \/ same_rank a b) sorted /\
    printed = url <$> take 30 sorted.
Proof.
  intros Hn (s & [Hp Hs] & ->). exists s. split; [exact Hp|]. split; [|reflexivity].
  assert (Hns : scores_are_numbers s) by (unfold scores_are_numbers; now rewrite Hp).
  clear Hp. pose proof (sorted_numbers s Hns Hs) as Hss. clear Hs Hns.
  induction Hss as [|x l Hl IH Hx]; constructor; [exact IH|].
  eapply Forall_impl; [exact Hx|]. intros y (Hxy & Hx' & Hy). now apply compareURLs_le.
Qed.

Lemma pets_numbers :
  scores_are_numbers (findMatchingURLs pets_index pets_ranks ["cat"; "dog"]).2.
Proof. vm_compute. repeat constructor; discriminate. Qed.

Lemma pets_results :
  (findMatchingURLs pets_index pets_ranks ["cat"; "dog"]).2
  = [mkURL "A" 1 (1 # 2); mkURL "B" 2 (1 # 4); mkURL "C" 1 (2 # 8)].
Proof. vm_compute. reflexivity. Qed.

Lemma pets_printed :
  rankAndPrintResults (findMatchingURLs pets_index pets_ranks ["cat"; "dog"]).2
                      ["B"; "A"; "C"].
Proof.
  rewrite pets_results.
  exists [mkURL "B" 2 (1 # 4); mkURL "A" 1 (1 # 2); mkURL "C" 1 (2 # 8)].
  split; [split|reflexivity].
  - apply Permutation_swap.
  - repeat constructor; vm_compute; discriminate.
Qed.

Lemma rankAndPrintResults_deterministic_witness :
  scores_are_numbers (findMatchingURLs pets_index pets_ranks ["cat"; "dog"]).2 /\
  rankAndPrintResults (findMatchingURLs pets_index pets_ranks ["cat"; "dog"]).2
                      ["B"; "A"; "C"] /\
  ["B"; "A"; "C"] = ["B"; "A"; "C"].
Proof.
  split; [exact pets_numbers|]. split; [exact pets_printed|].
  exact (rankAndPrintResults_deterministic _ _ _ pets_numbers pets_printed pets_printed).
Defined.

Lemma printed_in_rank_order_witness :
  scores_are_numbers (findMatchingURLs pets_index pets_ranks ["cat"; "dog"]).2 /\
  rankAndPrintResults (findMatchingURLs pets_index pets_ranks ["cat"; "dog"]).2
                      ["B"; "A"; "C"] /\
  exists sorted,
    sorted ≡ₚ (findMatchingURLs pets_index pets_ranks ["cat"; "dog"]).2 /\
    StronglySorted (fun a b => ranks_before a b \/ same_rank a b) sorted /\
    ["B"; "A"; "C"] = url <$> take 30 sorted.
Proof.
  split; [exact pets_numbers|]. split; [exact pets_printed|].
  exact (printed_in_rank_order _ _ pets_numbers pets_printed).
Defined.



End RankingProperties.

(** ** The graph that [readCollection] builds *)

Section GraphProperties.

Import CString PageRank RankProps Examples MoreProps.

Context {D : Type} `{!Arith D}.

#[local] Abbreviation Page := (@PageRank.Page D).
#[local] Abbreviation PRState := (@PageRank.PRState D).

Lemma linkPage_pageRank (pages0 : list Page) (N i : nat) (toks : list string)
  (p : Page) :
  pageRank (fold_left (linkPage pages0 N i) toks p) = pageRank p.
Proof.
  revert p; induction toks as [|t toks IH]; intros p; [reflexivity|].
  cbn [fold_left]. rewrite IH. unfold linkPage. now destruct (_ && _).
Qed.

(** The links of a page are not more than the tokens that set them. *)
Lemma countLinks_le_tokens (pages0 : list Page) (N i : nat) (toks : list string)
  (p : Page) :
  (forall k, (k < N)%nat ->
     links p !!! k <> 0%Z ->
     exists t, t ∈ toks /\ findPageIndex pages0 N t = Z.of_nat k /\ k <> i) ->
  (countLinks p N <= length (filter (names_other pages0 N i) toks))%nat.
Proof.
  intros H. unfold countLinks.
  set (L := filter (fun k => links p !!! k <> 0%Z) (seq 0 N)).
  rewrite <- (length_fmap Z.of_nat L),
          <- (length_fmap (findPageIndex pages0 N)
                (filter (names_other pages0 N i) toks)).
  apply submseteq_length, NoDup_submseteq.
  - apply (NoDup_fmap_2 _). apply NoDup_filter, NoDup_seq.
  - intros z Hz. apply list_elem_of_fmap in Hz as (k & -> & Hk).
    apply list_elem_of_filter in Hk as [Hk Hs]. apply elem_of_seq in Hs.
    destruct (H k ltac:(lia) Hk) as (t & Ht & Et & Hki).
    apply list_elem_of_fmap. exists t. split; [now symmetry|].
    apply list_elem_of_filter. split; [|exact Ht]. unfold names_other. lia.
Qed.

Lemma readCollection_graph (fs : filesystem) (pages : list Page) (i : nat) :
  readCollection fs MAX_URLS = Done pages ->
  (i < length pages)%nat ->
  (length pages <= MAX_URLS)%nat /\
  pageRank (pages !!! i) = ddiv (of_int 1) (of_int (Z.of_nat (length pages))) /\
  links (pages !!! i) !!! i = 0%Z /\
  (Z.of_nat (countLinks (pages !!! i) (length pages)) <= outDegree (pages !!! i))%Z.
Proof.
  intros Er Hi.
  destruct (fs "collection.txt") as [collection|] eqn:E;
    [|unfold readCollection in Er; rewrite E in Er; discriminate].
  destruct (readCollection_pages fs collection pages E Er) as [Eu Hpages].
  set (names := take MAX_URLS (fscanf_words collection)) in *.
  set (N := length names) in *. set (pages0 := initPage N <$> names) in *.
  assert (Hlen : length pages = N) by (unfold N; now rewrite <- Eu, length_fmap).
  assert (HN : (N <= MAX_URLS)%nat) by (unfold N, names; rewrite length_take; lia).
  rewrite Hlen in *.
  destruct (lookup_lt_is_Some_2 names i) as [name Hn]; [fold N; lia|].
  destruct (Hpages i name Hn) as (content & _ & Ep).
  destruct (linkPage_fold pages0 N i (Sections.linkTokens_read content) (initPage N name))
    as (_ & _ & Eo & Ek).
  { rewrite initPage_links_length. exact HN. }
  rewrite Ep. split; [exact HN|]. split; [apply linkPage_pageRank|].
  assert (Hlinks : forall k, (k < N)%nat ->
            links (fold_left (linkPage pages0 N i) (Sections.linkTokens_read content)
                     (initPage N name)) !!! k <> 0%Z ->
            exists t, t ∈ Sections.linkTokens_read content /\
                      findPageIndex pages0 N t = Z.of_nat k /\ k <> i).
  { intros k Hk Hne. apply (Ek k Hk) in Hne as [H|(Hki & t & Ht & Et)].
    - rewrite initPage_links in H by lia. congruence.
    - exists t. auto. }
  split.
  - destruct (decide (links (fold_left (linkPage pages0 N i)
                               (Sections.linkTokens_read content) (initPage N name)) !!! i
                      = 0%Z)) as [H0|Hne]; [exact H0|exfalso].
    destruct (Hlinks i Hi Hne) as (_ & _ & _ & Hii). now apply Hii.
  - rewrite Eo. simpl outDegree. rewrite Z.add_0_l. apply Nat2Z.inj_le.
    now apply (countLinks_le_tokens pages0 N i).
Qed.

Lemma findPageIndex_first (pages : list Page) (N : nat) (url0 : string) :
  (findPageIndex pages N url0 = (-1)%Z /\
   forall k, (k < N)%nat -> url (pages !!! k) <> url0)
  \/ exists r : nat,
       findPageIndex pages N url0 = Z.of_nat r /\ (r < N)%nat /\
       url (pages !!! r) = url0 /\
       forall k, (k < r)%nat -> url (pages !!! k) <> url0.
Proof.
  destruct (findPageIndex_from_spec pages url0 0 N) as [[E H]|(r & E & Hr & Eu & H)].
  - left. split; [exact E|]. intros k Hk. apply H. lia.
  - right. exists r. split; [exact E|]. split; [lia|]. split; [exact Eu|].
    intros k Hk. apply H. lia.
Qed.

Lemma linkToken_url_at (N i : nat) (pages : list Page) (token : string) (k : nat) :
  url (linkToken N i pages token !!! k) = url (pages !!! k).
Proof.
  rewrite !url_lookup_total. now rewrite (linkToken_urls (url <$> pages)).
Qed.

Lemma processSection1_url_at (urlFile : string) (pages : list Page) (N i k : nat) :
  url (processSection1 urlFile pages N i !!! k) = url (pages !!! k).
Proof.
  rewrite !url_lookup_total. f_equal.
  apply (processSection1_keeps (fun ps => url <$> ps = url <$> pages)); [|reflexivity].
  intros N' i' ps tok Hps. now apply linkToken_urls.
Qed.

Lemma parseFiles_fatal (fs : filesystem) (N : nat) (todo : list nat)
  (pages : list Page) :
  (exists i, i ∈ todo /\ fs (url (pages !!! i) +:+ ".txt") = None) ->
  parseFiles fs N todo pages = Fatal 1 "Error opening URL file".
Proof.
  revert pages; induction todo as [|i todo IH]; intros pages (k & Hk & Ek).
  - now apply elem_of_nil in Hk.
  - cbn [parseFiles]. destruct (fs (url (pages !!! i) +:+ ".txt")) as [c|] eqn:Ei;
      [|reflexivity].
    apply IH. exists k. apply elem_of_cons in Hk as [->|Hk]; [congruence|].
    split; [exact Hk|]. now rewrite processSection1_url_at.
Qed.

Lemma readCollection_fatal (fs : filesystem) (collection name : string) :
  fs "collection.txt" = Some collection ->
  name ∈ take MAX_URLS (fscanf_words collection) ->
  fs (name +:+ ".txt") = None ->
  readCollection fs MAX_URLS = Fatal 1 "Error opening URL file".
Proof.
  intros E Hin Hnone. unfold readCollection. rewrite E. cbv zeta.
  rewrite readNames_take, Nat.sub_0_r.
  set (names := take MAX_URLS (fscanf_words collection)) in *.
  apply parseFiles_fatal. apply list_elem_of_lookup in Hin as [i Hi].
  exists i. split.
  - apply elem_of_seq. apply lookup_lt_Some in Hi. lia.
  - rewrite url_lookup_total, initPage_urls.
    now rewrite (list_lookup_total_correct _ _ _ Hi).
Qed.

Lemma readCollection_cases (fs : filesystem) :
  match fs "collection.txt" with
  | None => readCollection fs MAX_URLS = Fatal 1 "Error opening collection.txt"
  | Some collection =>
      let names := take MAX_URLS (fscanf_words collection) in
      if decide (Forall (fun name => is_Some (fs (name +:+ ".txt"))) names)
      then exists pages,
             readCollection fs MAX_URLS = Done pages /\ url <$> pages = names
      else readCollection fs MAX_URLS = Fatal 1 "Error opening URL file"
  end.
Proof.
  destruct (fs "collection.txt") as [collection|] eqn:E.
  - cbv zeta. destruct (decide _) as [Hall|Hnot].
    + apply (readCollection_done fs MAX_URLS collection E).
      now apply Forall_forall.
    + apply not_Forall_Exists in Hnot; [|apply _].
      apply Exists_exists in Hnot as (name & Hin & Hn).
      apply (readCollection_fatal fs collection name E Hin).
      destruct (fs (name +:+ ".txt")) eqn:En; [|reflexivity].
      exfalso. apply Hn. eauto.
  - unfold readCollection. now rewrite E.
Qed.

(** A file whose lines are shorter than the buffer of [fgets] is read line
    by line. *)
Lemma fgets_go_head (cur s : string) :
  s <> "" ->
  exists l rest, fgets_go cur s = l :: rest /\
                 (String.length cur + 1 <= String.length l)%nat.
Proof.
  revert cur; induction s as [|c r IH]; intros cur Hs; [congruence|].
  cbn [fgets_go]. destruct (Ascii.eqb c "010").
  - eexists _, _. split; [reflexivity|]. rewrite append_length. simpl. lia.
  - destruct r as [|c' r'].
    + simpl. destruct (String.eqb _ _) eqn:E.
      * apply String.eqb_eq in E. destruct cur; discriminate E.
      * eexists _, _. split; [reflexivity|]. rewrite append_length. simpl. lia.
    + destruct (IH (cur +:+ String c "") ltac:(discriminate)) as (l & rest & E & Hl).
      exists l, rest. split; [exact E|]. rewrite append_length in Hl. simpl in Hl. lia.
Qed.

Lemma fgets_n_go_short (size : nat) (s cur : string) (room : nat) :
  (String.length cur + room = size - 1)%nat ->
  Forall (fun l => (String.length l < size)%nat) (fgets_go cur s) ->
  fgets_n_go size cur room s = fgets_go cur s.
Proof.
  revert cur room; induction s as [|c r IH]; intros cur room Hinv Hshort;
    [reflexivity|].
  assert (Hroom : (1 <= room)%nat).
  { destruct (fgets_go_head cur (String c r) ltac:(discriminate))
      as (l & rest & E & Hl).
    rewrite E in Hshort. apply Forall_cons in Hshort as [Hs _]. lia. }
  cbn [fgets_n_go fgets_go] in *. cbv zeta.
  destruct (Nat.eqb_spec room 0) as [E0|_]; [lia|]. cbn [app].
  destruct (Ascii.eqb c "010").
  - apply Forall_cons in Hshort as [_ Hshort]. f_equal.
    apply IH; [simpl; lia|exact Hshort].
  - apply IH; [|exact Hshort]. rewrite append_length. simpl. lia.
Qed.

Lemma fgets_n_short (size : nat) (content : string) :
  Forall (fun l => (String.length l < size)%nat) (fgets_lines content) ->
  fgets_n size content = fgets_lines content.
Proof.
  intros H. unfold fgets_n, fgets_lines. apply fgets_n_go_short; [simpl; lia|exact H].
Qed.

Lemma linkTokens_read_short (content : string) :
  Forall (fun l => (String.length l < 1000)%nat) (fgets_lines content) ->
  Sections.linkTokens_read content = Sections.linkTokens content.
Proof.
  intros H. unfold Sections.linkTokens_read, Sections.linkTokens, Sections.sectionTokens.
  now rewrite fgets_n_short.
Qed.

End GraphProperties.

Section GraphTheorems.

Import CString PageRank RankProps Examples MoreProps.

(** X19. [findPageIndex] gives the first of the [N] pages that carries the
    name, and -1 exactly when none does. *)
Theorem findPageIndex_finds_first {D : Type} `{!Arith D} (pages : list (@Page D))
  (N : nat) (url0 : string) :
  (findPageIndex pages N url0 = (-1)%Z /\
   forall k, (k < N)%nat -> url (pages !!! k) <> url0)
  \/ exists r : nat,
       findPageIndex pages N url0 = Z.of_nat r /\ (r < N)%nat /\
       url (pages !!! r) = url0 /\
       forall k, (k < r)%nat -> url (pages !!! k) <> url0.
Proof. apply findPageIndex_first. Qed.

(** X20. [readCollection] ends the program with status 1 when the manifest
    cannot be opened or the file of one of the names kept cannot; otherwise
    it returns one page per name kept, in the order of the manifest. *)
Theorem readCollection_outcome {D : Type} `{!Arith D} (fs : filesystem) :
  match fs "collection.txt" with
  | None => readCollection (D := D) fs MAX_URLS
            = Fatal 1 "Error opening collection.txt"
  | Some collection =>
      let names := take MAX_URLS (fscanf_words collection) in
      if decide (Forall (fun name => is_Some (fs (name +:+ ".txt"))) names)
      then exists pages : list (@Page D),
             readCollection fs MAX_URLS = Done pages /\ url <$> pages = names
      else readCollection (D := D) fs MAX_URLS = Fatal 1 "Error opening URL file"
  end.
Proof. apply readCollection_cases. Qed.

(** X21. For a manifest of distinct names: in the graph built, the
    document [i] has a link to the document [j] exactly when the link
    section of its file, as [processSection1] reads it, holds the name of
    [j] as a token and [j] is another document; its out-degree is the
    number of those tokens that name another document, each occurrence
    counted. The file is read through the 1000 bytes of the buffer of
    [fgets]; when every line of the file is shorter than the buffer, the
    tokens read are the tokens of the link section of the file: the runs of
    characters other than space and newline (a tab does not separate) on
    the lines between a line [#start Section-1] and the next line
    [#end Section-1]. *)
Theorem graph_links_follow_link_section {D : Type} `{!Arith D} (fs : filesystem)
  (collection : string) (pages : list (@Page D)) (i j : nat)
  (name_i name_j : string) :
  fs "collection.txt" = Some collection ->
  readCollection fs MAX_URLS = Done pages ->
  let names := take MAX_URLS (fscanf_words collection) in
  NoDup names ->
  names !! i = Some name_i -> names !! j = Some name_j ->
  exists content,
    fs (name_i +:+ ".txt") = Some content /\
    (links (pages !!! i) !!! j <> 0%Z
     <-> name_j ∈ Sections.linkTokens_read content /\ i <> j) /\
    outDegree (pages !!! i)
    = Z.of_nat (length (filter (fun t => t ∈ names /\ t <> name_i)
                               (Sections.linkTokens_read content))) /\
    (Forall (fun line => (String.length line < 1000)%nat) (fgets_lines content) ->
     Sections.linkTokens_read content = Sections.linkTokens content).
Proof.
  intros E Er names Hnd Hi Hj.
  destruct (graph_edges_and_outDegree fs collection pages i j name_i name_j
              E Er Hnd Hi Hj) as (content & Ec & Hl & Ho).
  exists content. split; [exact Ec|]. split; [exact Hl|]. split; [exact Ho|].
  apply linkTokens_read_short.
Qed.

Lemma ab_collection : ab_fs "collection.txt" = Some (text ["A"; "B"]).
Proof. reflexivity. Qed.

Lemma ab_graph : readCollection ab_fs MAX_URLS = Done (graphOf (D := Q) ab_fs).
Proof. vm_compute. reflexivity. Qed.

Lemma ab_names : take MAX_URLS (fscanf_words (text ["A"; "B"])) = ["A"; "B"].
Proof. vm_compute. reflexivity. Qed.

Lemma ab_A_file :
  ab_fs "A.txt"
  = Some (text ["#start Section-1"; "B"; "#end Section-1";
                "#start Section-2"; "first page"; "#end Section-2"]).
Proof. reflexivity. Qed.

Lemma ab_A_lines :
  Forall (fun line => (String.length line < 1000)%nat)
         (fgets_lines (text ["#start Section-1"; "B"; "#end Section-1";
                             "#start Section-2"; "first page"; "#end Section-2"])).
Proof. vm_compute. repeat constructor. Qed.

Lemma graph_links_follow_link_section_witness :
  ab_fs "collection.txt" = Some (text ["A"; "B"]) /\
  readCollection ab_fs MAX_URLS = Done (graphOf (D := Q) ab_fs) /\
  NoDup (take MAX_URLS (fscanf_words (text ["A"; "B"]))) /\
  exists content,
    ab_fs "A.txt" = Some content /\
    (links (graphOf (D := Q) ab_fs !!! 0%nat) !!! 1%nat <> 0%Z
     <-> "B" ∈ Sections.linkTokens content /\ 0%nat <> 1%nat).
Proof.
  assert (Hnd : NoDup (take MAX_URLS (fscanf_words (text ["A"; "B"])))).
  { rewrite ab_names. apply NoDup_cons. split; [|apply NoDup_singleton].
    rewrite list_elem_of_singleton. discriminate. }
  split; [exact ab_collection|]. split; [exact ab_graph|]. split; [exact Hnd|].
  destruct (graph_links_follow_link_section ab_fs (text ["A"; "B"])
              (graphOf ab_fs) 0 1 "A" "B" ab_collection ab_graph Hnd)
    as (content & Ec & Hl & _ & Hs); [now rewrite ab_names|now rewrite ab_names|].
  exists content. split; [exact Ec|].
  rewrite <- Hs; [exact Hl|].
  change (ab_fs "A.txt" = Some content) in Ec. rewrite ab_A_file in Ec.
  injection Ec as <-. exact ab_A_lines.
Defined.

(** X22. In the graph built, every page starts with the score 1/N, no page
    links to itself, and no page has more links than its out-degree; there
    are at most [MAX_URLS] pages. *)
Theorem graph_invariants (fs : filesystem) (pages : list (@Page Q)) (i : nat) :
  readCollection fs MAX_URLS = Done pages ->
  (i < length pages)%nat ->
  (length pages <= MAX_URLS)%nat /\
  pageRank (pages !!! i) = (1 / inject_Z (Z.of_nat (length pages)))%Q /\
  links (pages !!! i) !!! i = 0%Z /\
  (Z.of_nat (countLinks (pages !!! i) (length pages)) <= outDegree (pages !!! i))%Z.
Proof. exact (readCollection_graph fs pages i). Qed.

Lemma graph_invariants_witness :
  readCollection dup_fs MAX_URLS = Done (graphOf dup_fs) /\
  (0 < length (graphOf dup_fs))%nat /\
  (Z.of_nat (countLinks (graphOf dup_fs !!! 0%nat) (length (graphOf dup_fs)))
   <= outDegree (graphOf dup_fs !!! 0%nat))%Z.
Proof.
  assert (E : readCollection dup_fs MAX_URLS = Done (graphOf dup_fs))
    by (vm_compute; reflexivity).
  assert (H : (0 < length (graphOf dup_fs))%nat) by (vm_compute; lia).
  split; [exact E|]. split; [exact H|].
  exact (proj2 (proj2 (proj2 (graph_invariants dup_fs (graphOf dup_fs) 0 E H)))).
Defined.

(** X23. In the graph built, a page with out-degree 0 has no link at all. *)
Theorem zero_outDegree_means_no_link {D : Type} `{!Arith D} (fs : filesystem)
  (pages : list (@Page D)) (i k : nat) :
  readCollection fs MAX_URLS = Done pages ->
  (i < length pages)%nat -> (k < length pages)%nat ->
  outDegree (pages !!! i) = 0%Z -> links (pages !!! i) !!! k = 0%Z.
Proof. apply dangling_has_no_links. Qed.

Lemma zero_outDegree_means_no_link_witness :
  readCollection ab_fs MAX_URLS = Done (graphOf ab_fs) /\
  (1 < length (graphOf ab_fs))%nat /\ (0 < length (graphOf ab_fs))%nat /\
  outDegree (graphOf ab_fs !!! 1%nat) = 0%Z /\
  links (graphOf ab_fs !!! 1%nat) !!! 0%nat = 0%Z.
Proof.
  assert (H1 : (1 < length (graphOf ab_fs))%nat) by (vm_compute; lia).
  assert (H0 : (0 < length (graphOf ab_fs))%nat) by (vm_compute; lia).
  assert (Ho : outDegree (graphOf ab_fs !!! 1%nat) = 0%Z) by (vm_compute; reflexivity).
  split; [exact ab_graph|]. split; [exact H1|]. split; [exact H0|].
  split; [exact Ho|].
  exact (zero_outDegree_means_no_link ab_fs (graphOf ab_fs) 1 0 ab_graph H1 H0 Ho).
Defined.

End GraphTheorems.

(** ** What the iteration leaves alone *)

Section IterationFacts.

Import CString PageRank RankProps Examples MoreProps.

Context {D : Type} `{!Arith D}.

#[local] Abbreviation Page := (@PageRank.Page D).
#[local] Abbreviation PRState := (@PageRank.PRState D).

Lemma syncUpdate_outDegrees (N : nat) (d : D) (pages : list Page) :
  outDegree <$> syncUpdate N d pages = outDegree <$> pages.
Proof.
  unfold syncUpdate. apply list_eq. intros k.
  rewrite !list_lookup_fmap, list_lookup_imap. now destruct (pages !! k) as [[]|].
Qed.

Lemma syncUpdate_links (N : nat) (d : D) (pages : list Page) :
  links <$> syncUpdate N d pages = links <$> pages.
Proof.
  unfold syncUpdate. apply list_eq. intros k.
  rewrite !list_lookup_fmap, list_lookup_imap. now destruct (pages !! k) as [[]|].
Qed.

Lemma iter_syncUpdate_graph (N : nat) (d : D) (pages : list Page) (k : nat) :
  url <$> Nat.iter k (syncUpdate N d) pages = url <$> pages /\
  outDegree <$> Nat.iter k (syncUpdate N d) pages = outDegree <$> pages /\
  links <$> Nat.iter k (syncUpdate N d) pages = links <$> pages.
Proof.
  induction k as [|k (IH1 & IH2 & IH3)]; [auto|].
  rewrite Nat.iter_succ, syncUpdate_urls, syncUpdate_outDegrees, syncUpdate_links.
  auto.
Qed.

(** The result of the loop, when it has one, is the state after some
    number of turns, at least one. *)
Lemma loop_result (fuel N : nat) (d diffPR : D) (maxIterations : Z)
  (st st' : PRState) :
  calculatePageRank_loop fuel N d diffPR maxIterations st = Some st' ->
  exists k, (1 <= k)%nat /\ st' = Nat.iter k (iterate N d) st.
Proof.
  revert st; induction fuel as [|fuel IH]; intros st; [discriminate|].
  cbn [calculatePageRank_loop]. cbv zeta.
  destruct (continues diffPR maxIterations (iterate N d st)).
  - intros H. destruct (IH _ H) as (k & Hk & ->).
    exists (S k). split; [lia|]. now rewrite Nat.iter_succ_r.
  - intros [= <-]. exists 1%nat. split; [lia|reflexivity].
Qed.

Lemma calculatePageRank_result (fuel : nat) (pages : list Page) (N : nat)
  (d diffPR : D) (maxIterations : Z) (st : PRState) :
  length pages = N -> (N <= MAX_URLS)%nat ->
  calculatePageRank fuel pages N d diffPR maxIterations = Some st ->
  exists k, (1 <= k)%nat /\ st_pages st = Nat.iter k (syncUpdate N d) pages.
Proof.
  intros Hlen HN H. apply loop_result in H as (k & Hk & ->).
  exists k. split; [exact Hk|]. now apply nthState_pages.
Qed.

Lemma readCollection_length (fs : filesystem) (pages : list Page) :
  readCollection fs MAX_URLS = Done pages -> (length pages <= MAX_URLS)%nat.
Proof.
  intros Er. destruct pages as [|p pages]; [simpl; lia|].
  apply (readCollection_graph fs (p :: pages) 0 Er). simpl. lia.
Qed.

Lemma main_result (fs : filesystem) (writable : bool) (argc : Z) (d diffPR : D)
  (maxIterations : Z) (pages : list Page) :
  PageRank.main fs writable argc d diffPR maxIterations = Some (Done pages) ->
  argc = 4%Z /\ writable = true /\
  exists pages0 k,
    readCollection fs MAX_URLS = Done pages0 /\ (1 <= k)%nat /\
    pages = Nat.iter k (syncUpdate (length pages0) d) pages0.
Proof.
  unfold PageRank.main.
  destruct (Z.eqb_spec argc 4) as [Ea|Ea]; simpl negb; cbv iota; [|discriminate].
  destruct (readCollection fs MAX_URLS) as [s diag|pages0] eqn:Er; [discriminate|].
  cbv zeta.
  destruct (calculatePageRank _ pages0 _ d diffPR maxIterations) as [st|] eqn:Ec;
    [|discriminate].
  unfold writePageRankToFile. destruct writable; [|discriminate].
  intros [= <-]. split; [exact Ea|]. split; [reflexivity|].
  apply calculatePageRank_result in Ec as (k & Hk & E); [|reflexivity|].
  - exists pages0, k. auto.
  - now apply (readCollection_length fs pages0).
Qed.

Lemma main_returns (fs : filesystem) (writable : bool) (argc : Z) (d diffPR : D)
  (maxIterations : Z) :
  exists o, PageRank.main fs writable argc d diffPR maxIterations = Some o /\
    match o with
    | Done pages =>
        argc = 4%Z /\ writable = true /\
        exists pages0, readCollection fs MAX_URLS = Done pages0 /\
                       url <$> pages = url <$> pages0
    | Fatal status _ =>
        status = 1%Z /\
        (argc <> 4%Z \/ writable = false \/
         exists diag, readCollection fs MAX_URLS = Fatal 1 diag)
    end.
Proof.
  unfold PageRank.main.
  destruct (Z.eqb_spec argc 4) as [Ea|Ea]; simpl negb; cbv iota;
    [|eexists; split; [reflexivity|]; simpl; auto].
  destruct (readCollection fs MAX_URLS) as [s diag|pages0] eqn:Er.
  - eexists; split; [reflexivity|]. simpl.
    assert (Es : s = 1%Z).
    { pose proof (readCollection_cases fs) as Ho.
      destruct (fs "collection.txt") as [c|]; [|congruence].
      cbv zeta in Ho. destruct (decide _); [|congruence].
      destruct Ho as (p & Ho & _). congruence. }
    subst s. split; [reflexivity|]. right. right. now exists diag.
  - cbv zeta.
    pose proof (readCollection_length fs pages0 Er) as HN.
    destruct (loop_exits (length pages0) d diffPR maxIterations
                (S (Z.to_nat maxIterations)) (initialState pages0))
      as (k & Hk & E & _); [lia|simpl st_iteration; lia|].
    unfold calculatePageRank. rewrite E.
    fold (nthState (length pages0) d pages0 k).
    destruct (nthState_pages (length pages0) d pages0 k eq_refl HN) as (Ep & _).
    unfold writePageRankToFile. destruct writable.
    + eexists; split; [reflexivity|]. simpl. split; [exact Ea|]. split; [reflexivity|].
      exists pages0. split; [reflexivity|].
      rewrite Ep. apply iter_syncUpdate_urls.
    + eexists; split; [reflexivity|]. simpl. auto.
Qed.

End IterationFacts.

Section IterationTheorems.

Import CString PageRank RankProps Examples MoreProps.

(** X24. The iteration changes scores only: the names, the out-degrees and
    the links of the pages are on exit what they were on entry. *)
Theorem calculatePageRank_keeps_graph {D : Type} `{!Arith D} (fuel : nat)
  (pages : list (@Page D)) (N : nat) (d diffPR : D) (maxIterations : Z)
  (st : @PRState D) :
  length pages = N -> (N <= MAX_URLS)%nat ->
  calculatePageRank fuel pages N d diffPR maxIterations = Some st ->
  url <$> st_pages st = url <$> pages /\
  outDegree <$> st_pages st = outDegree <$> pages /\
  links <$> st_pages st = links <$> pages.
Proof.
  intros Hlen HN H.
  apply calculatePageRank_result in H as (k & _ & ->); [|exact Hlen|exact HN].
  apply iter_syncUpdate_graph.
Qed.

Lemma calculatePageRank_keeps_graph_witness :
  length (graphOf ab_fs) = 2%nat /\ (2 <= MAX_URLS)%nat /\
  exists st,
    calculatePageRank 3 (graphOf ab_fs) 2 (17 # 20) (1 # 10000) 3 = Some st /\
    outDegree <$> st_pages st = outDegree <$> graphOf ab_fs.
Proof.
  split; [exact ab_graph_length|]. split; [exact two_le_MAX_URLS|].
  destruct (loop_exits 2 (17 # 20) (1 # 10000) 3 3 (initialState (graphOf ab_fs)))
    as (k & _ & E & _); [lia|simpl; lia|].
  exists (Nat.iter k (iterate 2 (17 # 20)) (initialState (graphOf ab_fs))).
  split; [exact E|].
  exact (proj1 (proj2 (calculatePageRank_keeps_graph 3 (graphOf ab_fs) 2 (17 # 20)
                         (1 # 10000) 3 _ ab_graph_length two_le_MAX_URLS E))).
Defined.

(** X28. [main] always returns: with status 1 when the arguments are not
    three, the manifest or a document file cannot be opened, or the output
    file cannot be written; otherwise with the table of the pages read,
    which the iteration always leaves. *)
Theorem main_always_returns {D : Type} `{!Arith D} (fs : filesystem)
  (writable : bool) (argc : Z) (d diffPR : D) (maxIterations : Z) :
  exists o, PageRank.main fs writable argc d diffPR maxIterations = Some o /\
    match o with
    | Done pages =>
        argc = 4%Z /\ writable = true /\
        exists pages0, readCollection fs MAX_URLS = Done pages0 /\
                       url <$> pages = url <$> pages0
    | Fatal status _ =>
        status = 1%Z /\
        (argc <> 4%Z \/ writable = false \/
         exists diag, readCollection fs MAX_URLS = Fatal 1 diag)
    end.
Proof. apply main_returns. Qed.

Lemma add_nonneg_or_nan (x y : double) :
  x = NaN \/ Double.ge x (Fin 0) = true ->
  y = NaN \/ Double.ge y (Fin 0) = true ->
  Double.add x y = NaN \/ Double.ge (Double.add x y) (Fin 0) = true.
Proof.
  intros [->|Hx] [->|Hy]; [left; reflexivity|left; reflexivity
                          |left; now destruct x|].
  destruct x, y; simpl in *; try discriminate; auto.
  right. q_bools. lra.
Qed.

Lemma abs_nonneg_or_nan (x : double) :
  Double.abs x = NaN \/ Double.ge (Double.abs x) (Fin 0) = true.
Proof.
  destruct x; simpl; auto. right. q_bools. apply Qabs_nonneg.
Qed.

(** On doubles, the [diff] of a turn is a NaN or not below 0. *)
Lemma computePageRankDiff_nonneg (pages : list (@Page double)) (prevPR : list double)
  (N : nat) :
  computePageRankDiff pages prevPR N = NaN
  \/ Double.ge (computePageRankDiff pages prevPR N) (Fin 0) = true.
Proof.
  unfold computePageRankDiff. ieee_ops.
  assert (G : forall l a, a = NaN \/ Double.ge a (Fin 0) = true ->
            let r := fold_left (fun diff i =>
                                  Double.add diff
                                    (Double.abs (Double.sub (pageRank (pages !!! i))
                                                            (prevPR !!! i))))
                               l a in
            r = NaN \/ Double.ge r (Fin 0) = true).
  { induction l as [|i l IH]; intros a Ha; [exact Ha|].
    cbn [fold_left]. apply IH. apply add_nonneg_or_nan; [exact Ha|].
    apply abs_nonneg_or_nan. }
  apply G. right. reflexivity.
Qed.

Lemma nthState_diff_nonneg (N : nat) (d : double) (pages : list (@Page double))
  (k : nat) :
  (1 <= k)%nat ->
  st_diff (nthState N d pages k) = NaN
  \/ Double.ge (st_diff (nthState N d pages k)) (Fin 0) = true.
Proof.
  intros Hk. destruct k as [|k]; [lia|]. unfold nthState.
  rewrite Nat.iter_succ. unfold iterate at 1. cbn [st_diff].
  apply computePageRankDiff_nonneg.
Qed.

(** With a threshold that is 0 or less, the test [diff >= diffPR] is false
    only for a [diff] that is a NaN. *)
Lemma loop_without_threshold (fuel N : nat) (d diffPR : double) (maxIterations : Z)
  (pages : list (@Page double)) :
  dge (of_int 0) diffPR = true ->
  (1 <= fuel)%nat -> (Z.to_nat maxIterations <= fuel)%nat ->
  exists k : nat,
    calculatePageRank fuel pages N d diffPR maxIterations
    = Some (nthState N d pages k) /\
    (1 <= k <= Nat.max 1 (Z.to_nat maxIterations))%nat /\
    (k = Nat.max 1 (Z.to_nat maxIterations)
     \/ st_diff (nthState N d pages k) = NaN) /\
    forall j : nat, (1 <= j <= k)%nat ->
      st_diff (nthState N d pages j) = NaN
      \/ dge (st_diff (nthState N d pages j)) (of_int 0) = true.
Proof.
  intros Hthr Hf1 Hf.
  destruct (loop_turns pages N d diffPR maxIterations fuel Hf1 Hf)
    as (k & E & _ & Hk & Hle & Hstop & _).
  exists k. split; [exact E|]. split; [lia|]. split.
  - destruct Hstop as [Hb|Hcap]; [|left; lia].
    destruct (nthState_diff_nonneg N d pages k Hk) as [En|Hge]; [now right|].
    ieee_ops. rewrite (ge_trans _ _ _ Hge Hthr) in Hb. discriminate Hb.
  - intros j Hj. apply nthState_diff_nonneg. lia.
Qed.

(** X25. On doubles, the [diff] of a turn is a NaN or not below 0; so with a
    threshold of 0 or less the loop runs [maxIterations] turns, one turn
    when [maxIterations] is below 1, unless a [diff] that is a NaN makes it
    leave before. *)
Theorem nonpositive_threshold_runs_all_turns (fuel N : nat) (d diffPR : double)
  (maxIterations : Z) (pages : list (@Page double)) :
  dge (of_int 0) diffPR = true ->
  (1 <= fuel)%nat -> (Z.to_nat maxIterations <= fuel)%nat ->
  exists k : nat,
    calculatePageRank fuel pages N d diffPR maxIterations
    = Some (nthState N d pages k) /\
    (1 <= k <= Nat.max 1 (Z.to_nat maxIterations))%nat /\
    (k = Nat.max 1 (Z.to_nat maxIterations)
     \/ st_diff (nthState N d pages k) = NaN) /\
    forall j : nat, (1 <= j <= k)%nat ->
      st_diff (nthState N d pages j) = NaN
      \/ dge (st_diff (nthState N d pages j)) (of_int 0) = true.
Proof. apply loop_without_threshold. Qed.

Lemma nonpositive_threshold_runs_all_turns_witness :
  dge (of_int 0) (Fin 0) = true /\ (1 <= 5)%nat /\ (Z.to_nat 5 <= 5)%nat /\
  exists k : nat,
    calculatePageRank 5 (graphOf ab_fs) 2 (Fin (17 # 20)) (Fin 0) 5
    = Some (nthState 2 (Fin (17 # 20)) (graphOf ab_fs) k) /\
    (1 <= k <= Nat.max 1 (Z.to_nat 5))%nat.
Proof.
  assert (H0 : dge (of_int 0) (Fin 0) = true) by reflexivity.
  assert (H1 : (1 <= 5)%nat) by lia.
  assert (H2 : (Z.to_nat 5 <= 5)%nat) by (simpl; lia).
  split; [exact H0|]. split; [exact H1|]. split; [exact H2|].
  destruct (nonpositive_threshold_runs_all_turns 5 2 (Fin (17 # 20)) (Fin 0) 5
              (graphOf ab_fs) H0 H1 H2) as (k & E & Hk & _).
  exists k. split; [exact E|exact Hk].
Defined.

End IterationTheorems.

(** ** The scores through the iteration *)

Section ScoreProperties.

Import CString PageRank RankProps Examples MoreProps.

Lemma sumOver_le (f g : nat -> Q) (l : list nat) :
  (forall i, i ∈ l -> (f i <= g i)%Q) -> (sumOver f l <= sumOver g l)%Q.
Proof.
  induction l as [|i l IH]; intros H; simpl; [apply Qle_refl|].
  apply Qplus_le_compat; [apply H; left|]. apply IH. intros k Hk. apply H. now right.
Qed.

Lemma sumOver_nonneg (f : nat -> Q) (l : list nat) :
  (forall i, i ∈ l -> (0 <= f i)%Q) -> (0 <= sumOver f l)%Q.
Proof.
  intros H. apply (Qle_trans _ (sumOver (fun _ => 0%Q) l)).
  - rewrite sumOver_const. lra.
  - now apply sumOver_le.
Qed.

Lemma Qdiv_nonneg (a : Q) (z : Z) :
  (0 <= a)%Q -> (0 <= z)%Z -> (0 <= a / inject_Z z)%Q.
Proof.
  intros Ha Hz. unfold Qdiv. apply Qmult_le_0_compat; [exact Ha|].
  apply Qinv_le_0_compat. change 0%Q with (inject_Z 0). now rewrite <- Zle_Qle.
Qed.

Lemma contribution_nonneg (pages : list Page) (prev : list Q) (N i j : nat) :
  (0 <= prev !!! j)%Q -> (0 <= outDegree (pages !!! j))%Z ->
  (0 <= contribution pages prev N i j)%Q.
Proof.
  intros Hp Ho. unfold contribution, addContribution.
  destruct (negb _); [destruct (negb _)|]; try apply Qle_refl;
    rewrite Qplus_0_l; apply Qdiv_nonneg; try assumption; lia.
Qed.

(** What a document gives away in one update is at most its own score. *)
Lemma contributions_le (pages : list Page) (prev : list Q) (N j : nat) :
  (Z.of_nat (countLinks (pages !!! j) N) <= outDegree (pages !!! j))%Z ->
  (0 <= prev !!! j)%Q ->
  (sumOver (fun i => contribution pages prev N i j) (seq 0 N) <= prev !!! j)%Q.
Proof.
  intros Hc Hp.
  set (w := if (outDegree (pages !!! j) =? 0)%Z
            then ((prev !!! j) / inject_Z (Z.of_nat N))%Q
            else ((prev !!! j) / inject_Z (outDegree (pages !!! j)))%Q).
  rewrite (sumOver_ext _
             (fun i => if decide (links (pages !!! j) !!! i <> 0%Z) then w else 0%Q)).
  - rewrite (sumOver_indicator (fun i => links (pages !!! j) !!! i <> 0%Z)).
    fold (countLinks (pages !!! j) N). unfold w.
    destruct (Z.eqb_spec (outDegree (pages !!! j)) 0) as [E|E].
    + assert (E0 : countLinks (pages !!! j) N = 0%nat) by lia.
      rewrite E0. change (inject_Z (Z.of_nat 0)) with 0%Q.
      rewrite Qmult_0_l. exact Hp.
    + set (o := outDegree (pages !!! j)) in *.
      set (c := Z.of_nat (countLinks (pages !!! j) N)) in *.
      assert (Ho : (0 < inject_Z o)%Q)
        by (change 0%Q with (inject_Z 0); rewrite <- Zlt_Qlt; lia).
      assert (Hco : (inject_Z c <= inject_Z o)%Q) by now rewrite <- Zle_Qle.
      assert (Hr : (0 <= prev !!! j / inject_Z o)%Q) by (apply Qdiv_nonneg; [exact Hp|lia]).
      apply (Qle_trans _ (inject_Z o * (prev !!! j / inject_Z o))).
      * now apply Qmult_le_compat_r.
      * apply Qle_lteq. right. field. lra.
  - intros i _. unfold contribution, addContribution, w.
    destruct (Z.eqb_spec (links (pages !!! j) !!! i) 0) as [E|E]; simpl negb; cbv iota.
    + rewrite decide_False by tauto. reflexivity.
    + rewrite decide_True by exact E.
      destruct (outDegree (pages !!! j) =? 0)%Z; simpl negb; cbv iota; apply Qplus_0_l.
Qed.

Lemma syncUpdate_lookup (N : nat) (d : Q) (pages : list Page) (i : nat) :
  (i < length pages)%nat ->
  syncUpdate N d pages !!! i
  = set_pageRank ((1 - d) / inject_Z (Z.of_nat N)
                  + d * incomingSum pages (pageRank <$> pages) N i)%Q (pages !!! i).
Proof.
  intros Hi. unfold syncUpdate. now rewrite (list_lookup_total_imap _ pages i) by lia.
Qed.

Lemma syncUpdate_within (N : nat) (d : Q) (pages : list Page) :
  length pages = N ->
  links_within_outDegree pages N -> links_within_outDegree (syncUpdate N d pages) N.
Proof.
  intros Hlen H j Hj. rewrite syncUpdate_lookup by lia.
  destruct (set_pageRank_fields
              ((1 - d) / inject_Z (Z.of_nat N)
               + d * incomingSum pages (pageRank <$> pages) N j)%Q (pages !!! j))
    as (_ & Eo & El).
  rewrite Eo. unfold countLinks. rewrite El. now apply H.
Qed.

Lemma scores_nonneg_lookup (pages : list Page) (j : nat) :
  scores_nonneg pages -> (j < length pages)%nat -> (0 <= pageRank (pages !!! j))%Q.
Proof.
  intros H Hj. destruct (lookup_lt_is_Some_2 pages j Hj) as [p Hp].
  rewrite (list_lookup_total_correct _ _ _ Hp).
  exact (proj1 (Forall_lookup _ _) H j p Hp).
Qed.

Lemma within_outDegree_nonneg (pages : list Page) (N j : nat) :
  links_within_outDegree pages N -> (j < N)%nat -> (0 <= outDegree (pages !!! j))%Z.
Proof. intros H Hj. specialize (H j Hj). lia. Qed.

Lemma incomingSum_nonneg (pages : list Page) (N i : nat) :
  length pages = N -> links_within_outDegree pages N -> scores_nonneg pages ->
  (0 <= incomingSum pages (pageRank <$> pages) N i)%Q.
Proof.
  intros Hlen Hw Hs. rewrite incomingSum_sumOver. apply sumOver_nonneg.
  intros j Hj. apply elem_of_seq in Hj. apply contribution_nonneg.
  - rewrite (list_lookup_total_fmap _ pages j) by lia.
    apply scores_nonneg_lookup; [exact Hs|lia].
  - apply (within_outDegree_nonneg pages N); [exact Hw|lia].
Qed.

(** After one update every score is at least [(1 - d) / N]. *)
Lemma syncUpdate_floor (N : nat) (d : Q) (pages : list Page) :
  length pages = N -> (0 <= d)%Q ->
  links_within_outDegree pages N -> scores_nonneg pages ->
  Forall (fun p => ((1 - d) / inject_Z (Z.of_nat N) <= pageRank p)%Q)
         (syncUpdate N d pages).
Proof.
  intros Hlen Hd Hw Hs. apply Forall_lookup. intros i p Hp.
  assert (Hi : (i < length pages)%nat)
    by (apply lookup_lt_Some in Hp; now rewrite syncUpdate_length in Hp).
  apply list_lookup_total_correct in Hp. rewrite syncUpdate_lookup in Hp by exact Hi.
  subst p. simpl pageRank.
  pose proof (incomingSum_nonneg pages N i Hlen Hw Hs) as Hsum.
  pose proof (Qmult_le_0_compat _ _ Hd Hsum). lra.
Qed.

Lemma floor_nonneg (N : nat) (d : Q) : (d <= 1)%Q -> (0 <= (1 - d) / inject_Z (Z.of_nat N))%Q.
Proof. intros Hd. apply Qdiv_nonneg; [lra|lia]. Qed.

Lemma syncUpdate_nonneg (N : nat) (d : Q) (pages : list Page) :
  length pages = N -> (0 <= d <= 1)%Q ->
  links_within_outDegree pages N -> scores_nonneg pages ->
  scores_nonneg (syncUpdate N d pages).
Proof.
  intros Hlen [Hd0 Hd1] Hw Hs.
  eapply Forall_impl; [apply (syncUpdate_floor N d pages Hlen Hd0 Hw Hs)|].
  intros p Hp. cbv beta in Hp. pose proof (floor_nonneg N d Hd1). lra.
Qed.

(** One update does not raise the sum of the scores above 1. *)
Lemma syncUpdate_total_le (N : nat) (d : Q) (pages : list Page) :
  length pages = N -> (0 <= d <= 1)%Q ->
  links_within_outDegree pages N -> scores_nonneg pages ->
  (totalRank pages <= 1)%Q -> (totalRank (syncUpdate N d pages) <= 1)%Q.
Proof.
  intros Hlen [Hd0 Hd1] Hw Hs Hone.
  destruct N as [|n].
  { apply length_zero_iff_nil in Hlen. subst pages. exact Hone. }
  set (N := S n) in *.
  rewrite totalRank_sumOver, syncUpdate_length, Hlen.
  rewrite totalRank_sumOver, Hlen in Hone.
  set (prev := pageRank <$> pages).
  rewrite (sumOver_ext _
             (fun i => (1 - d) / inject_Z (Z.of_nat N)
                       + d * sumOver (contribution pages prev N i) (seq 0 N))%Q).
  - rewrite sumOver_plus, sumOver_const, sumOver_scale, length_seq.
    rewrite sumOver_exchange.
    assert (Hsum : (sumOver (fun j => sumOver (fun i => contribution pages prev N i j)
                                              (seq 0 N)) (seq 0 N)
                    <= sumOver (fun j => pageRank (pages !!! j)) (seq 0 N))%Q).
    { apply sumOver_le. intros j Hj. apply elem_of_seq in Hj.
      assert (Ej : prev !!! j = pageRank (pages !!! j))
        by (unfold prev; now rewrite (list_lookup_total_fmap _ pages j) by lia).
      rewrite <- Ej. apply contributions_le; [apply Hw; lia|].
      rewrite Ej. apply scores_nonneg_lookup; [exact Hs|lia]. }
    assert (HN : (inject_Z (Z.of_nat N) * ((1 - d) / inject_Z (Z.of_nat N)) == 1 - d)%Q).
    { field. apply inject_Z_nonzero. unfold N. lia. }
    rewrite HN.
    pose proof (Qle_trans _ _ _ Hsum Hone) as Hle.
    assert (Hm : (d * sumOver (fun j => sumOver (fun i => contribution pages prev N i j)
                                 (seq 0 N)) (seq 0 N) <= d * 1)%Q).
    { rewrite !(Qmult_comm d). now apply Qmult_le_compat_r. }
    lra.
  - intros i Hi. apply elem_of_seq in Hi.
    rewrite syncUpdate_lookup by lia. simpl pageRank. fold prev.
    now rewrite incomingSum_sumOver.
Qed.

Lemma iter_syncUpdate_bounds (N : nat) (d : Q) (pages : list Page) (k : nat) :
  length pages = N -> (0 <= d <= 1)%Q ->
  links_within_outDegree pages N -> scores_nonneg pages ->
  (totalRank pages <= 1)%Q ->
  let pages' := Nat.iter k (syncUpdate N d) pages in
  length pages' = N /\ links_within_outDegree pages' N /\ scores_nonneg pages' /\
  (totalRank pages' <= 1)%Q /\
  ((1 <= k)%nat ->
   Forall (fun p => ((1 - d) / inject_Z (Z.of_nat N) <= pageRank p)%Q) pages').
Proof.
  intros Hlen Hd Hw Hs Hone. cbv zeta.
  induction k as [|k (IHl & IHw & IHs & IHt & _)].
  - simpl. repeat (split; [assumption|]). lia.
  - rewrite Nat.iter_succ. split; [now rewrite syncUpdate_length|].
    split; [now apply syncUpdate_within|].
    split; [now apply syncUpdate_nonneg|].
    split; [now apply syncUpdate_total_le|].
    intros _. apply syncUpdate_floor; [exact IHl|apply Hd|exact IHw|exact IHs].
Qed.

Lemma totalRank_const (c : Q) (pages : list Page) :
  Forall (fun p => pageRank p = c) pages ->
  (totalRank pages == inject_Z (Z.of_nat (length pages)) * c)%Q.
Proof.
  induction 1 as [|p pages Hp _ IH]; [simpl; ring|].
  simpl totalRank. rewrite IH, Hp. simpl length.
  rewrite Nat2Z.inj_succ. unfold Z.succ. rewrite inject_Z_plus. ring.
Qed.

Lemma readCollection_bounds (fs : filesystem) (pages : list Page) :
  readCollection fs MAX_URLS = Done pages ->
  (length pages <= MAX_URLS)%nat /\
  links_within_outDegree pages (length pages) /\ scores_nonneg pages /\
  (totalRank pages <= 1)%Q.
Proof.
  intros Er.
  assert (Hall : Forall (fun p => pageRank p
                                  = (1 / inject_Z (Z.of_nat (length pages)))%Q) pages).
  { apply Forall_lookup. intros i p Hp.
    assert (Hi : (i < length pages)%nat) by (now apply lookup_lt_Some in Hp).
    apply list_lookup_total_correct in Hp. subst p.
    now apply (readCollection_graph fs pages i Er Hi). }
  split; [|split; [|split]].
  - destruct pages as [|p pages]; [simpl; lia|].
    apply (readCollection_graph fs (p :: pages) 0 Er). simpl. lia.
  - intros j Hj. now apply (readCollection_graph fs pages j Er Hj).
  - eapply Forall_impl; [exact Hall|]. intros p ->. apply Qdiv_nonneg; [lra|lia].
  - rewrite (totalRank_const _ pages Hall).
    destruct pages as [|p pages]; [vm_compute; discriminate|].
    apply Qle_lteq. right. field. apply inject_Z_nonzero. simpl length. lia.
Qed.

Lemma main_bounds (fs : filesystem) (writable : bool) (argc : Z) (d diffPR : Q)
  (maxIterations : Z) (pages : list Page) :
  (0 <= d <= 1)%Q ->
  PageRank.main fs writable argc d diffPR maxIterations = Some (Done pages) ->
  Forall (fun p => ((1 - d) / inject_Z (Z.of_nat (length pages)) <= pageRank p)%Q)
         pages /\
  (totalRank pages <= 1)%Q.
Proof.
  intros Hd Hm. apply main_result in Hm as (_ & _ & pages0 & k & Er & Hk & ->).
  destruct (readCollection_bounds fs pages0 Er) as (HN & Hw & Hs & Ht).
  destruct (iter_syncUpdate_bounds (length pages0) d pages0 k eq_refl Hd Hw Hs Ht)
    as (Hl & _ & _ & Ht' & Hfloor).
  rewrite Hl. split; [now apply Hfloor|exact Ht'].
Qed.

Lemma iter_syncUpdate_exact (N : nat) (d : Q) (pages : list Page) (k : nat) :
  length pages = N -> (0 < N)%nat -> outDegrees_exact pages N ->
  (totalRank pages == 1)%Q ->
  let pages' := Nat.iter k (syncUpdate N d) pages in
  length pages' = N /\ outDegrees_exact pages' N /\ (totalRank pages' == 1)%Q.
Proof.
  intros Hlen HN Hex Hone. cbv zeta.
  induction k as [|k (IHl & IHe & IHt)]; [auto|].
  rewrite Nat.iter_succ. split; [now rewrite syncUpdate_length|].
  split; [|now apply syncUpdate_conserves].
  intros j Hj. rewrite syncUpdate_lookup by lia.
  destruct (set_pageRank_fields
              ((1 - d) / inject_Z (Z.of_nat N)
               + d * incomingSum (Nat.iter k (syncUpdate N d) pages)
                       (pageRank <$> Nat.iter k (syncUpdate N d) pages) N j)%Q
              (Nat.iter k (syncUpdate N d) pages !!! j))
    as (_ & Eo & El).
  rewrite Eo. unfold countLinks. rewrite El. now apply IHe.
Qed.

(** X27. The scores that [main] writes, for a damping factor between 0 and 1,
    are each at least [(1 - d) / N], and their sum is at most 1. *)
Theorem main_scores_bounded (fs : filesystem) (writable : bool) (argc : Z)
  (d diffPR : Q) (maxIterations : Z) (pages : list Page) :
  (0 <= d <= 1)%Q ->
  PageRank.main fs writable argc d diffPR maxIterations = Some (Done pages) ->
  Forall (fun p => ((1 - d) / inject_Z (Z.of_nat (length pages)) <= pageRank p)%Q)
         pages /\
  (totalRank pages <= 1)%Q.
Proof. apply main_bounds. Qed.

Lemma ab_files (name : string) :
  name ∈ take MAX_URLS (fscanf_words (text ["A"; "B"])) ->
  is_Some (ab_fs (name +:+ ".txt")).
Proof.
  rewrite ab_names. intros Hin.
  apply elem_of_cons in Hin as [->|Hin]; [eexists; reflexivity|].
  apply list_elem_of_singleton in Hin as ->. eexists; reflexivity.
Qed.

Lemma main_scores_bounded_witness :
  (0 <= 17 # 20 <= 1)%Q /\
  exists pages,
    PageRank.main ab_fs true 4 (17 # 20) (1 # 10000) 1 = Some (Done pages) /\
    (totalRank pages <= 1)%Q.
Proof.
  assert (Hd : (0 <= 17 # 20 <= 1)%Q) by (split; discriminate).
  split; [exact Hd|].
  destruct (main_done ab_fs (text ["A"; "B"]) true (17 # 20) (1 # 10000) 1
              ab_collection ab_files) as (pages & E & _).
  exists pages. split; [exact E|].
  exact (proj2 (main_scores_bounded _ _ _ _ _ _ pages Hd E)).
Defined.

(** X26. When every page has a link and the out-degree of every page is the
    number of its links, the iteration keeps the sum of the scores at 1. *)
Theorem total_conserved_on_exact_graph (fuel : nat) (pages : list Page) (N : nat)
  (d diffPR : Q) (maxIterations : Z) (st : PRState) :
  length pages = N -> (0 < N <= MAX_URLS)%nat ->
  outDegrees_exact pages N -> (totalRank pages == 1)%Q ->
  calculatePageRank fuel pages N d diffPR maxIterations = Some st ->
  (totalRank (st_pages st) == 1)%Q.
Proof.
  intros Hlen [HN0 HN] Hex Hone H.
  apply calculatePageRank_result in H as (k & _ & ->); [|exact Hlen|exact HN].
  now apply iter_syncUpdate_exact.
Qed.

Lemma cycle_graph_exact : outDegrees_exact (graphOf cycle_fs) 2.
Proof.
  intros j Hj. destruct j as [|[|j]]; [| |lia]; vm_compute; split; congruence.
Qed.

Lemma total_conserved_on_exact_graph_witness :
  length (graphOf cycle_fs) = 2%nat /\ (0 < 2 <= MAX_URLS)%nat /\
  outDegrees_exact (graphOf cycle_fs) 2 /\ (totalRank (graphOf cycle_fs) == 1)%Q /\
  exists st,
    calculatePageRank 3 (graphOf cycle_fs) 2 (17 # 20) (1 # 10000) 3 = Some st /\
    (totalRank (st_pages st) == 1)%Q.
Proof.
  assert (Hl : length (graphOf cycle_fs) = 2%nat) by (vm_compute; reflexivity).
  assert (HN : (0 < 2 <= MAX_URLS)%nat) by (unfold MAX_URLS; lia).
  assert (Ht : (totalRank (graphOf cycle_fs) == 1)%Q) by (vm_compute; reflexivity).
  split; [exact Hl|]. split; [exact HN|]. split; [exact cycle_graph_exact|].
  split; [exact Ht|].
  destruct (loop_exits 2 (17 # 20) (1 # 10000) 3 3 (initialState (graphOf cycle_fs)))
    as (k & _ & E & _); [lia|simpl; lia|].
  exists (Nat.iter k (iterate 2 (17 # 20)) (initialState (graphOf cycle_fs))).
  split; [exact E|].
  exact (total_conserved_on_exact_graph 3 (graphOf cycle_fs) 2 (17 # 20) (1 # 10000) 3 _
           Hl HN cycle_graph_exact Ht E).
Defined.

End ScoreProperties.

(** ** The rows of the rank table *)

Section RowProperties.

Import CString PageRank RankProps Examples MoreProps.

(** With exact arithmetic. *)
Lemma comparePageRank_sign (a b : @Page Q) :
  ((comparePageRank a b < 0)%Z <-> (pageRank b < pageRank a)%Q) /\
  ((0 < comparePageRank a b)%Z <-> (pageRank a < pageRank b)%Q).
Proof.
  unfold comparePageRank. cbv zeta. exact_ops. change (inject_Z 0) with 0%Q.
  destruct (Qlt_bool 0 (pageRank b - pageRank a)) eqn:E1;
  destruct (Qlt_bool (pageRank b - pageRank a) 0) eqn:E2;
  q_bools; simpl Z.b2z; split; split; intros H; try lia; try lra.
Qed.

Lemma comparePageRank_le (a b : @Page Q) :
  (comparePageRank a b <= 0)%Z <-> (pageRank b <= pageRank a)%Q.
Proof.
  destruct (comparePageRank_sign a b) as (H1 & H3). split.
  - intros H. destruct (Qlt_le_dec (pageRank a) (pageRank b)) as [Hlt|Hle]; [|exact Hle].
    apply H3 in Hlt. lia.
  - intros H. destruct (Z.le_gt_cases (comparePageRank a b) 0) as [Hz|Hz]; [exact Hz|].
    apply H3 in Hz. lra.
Qed.

Lemma rows_of_equal_scores (pages rows : list (@Page Q)) (c : Q) :
  Forall (fun p => (pageRank p == c)%Q) pages -> rows ≡ₚ pages ->
  pagerankList_rows pages rows.
Proof.
  intros Hall Hp. split; [exact Hp|].
  assert (Hrows : Forall (fun p => (pageRank p == c)%Q) rows) by now rewrite Hp.
  clear Hp Hall. induction Hrows as [|x l Hx Hl IH]; constructor; [exact IH|].
  destruct Hl as [|y l Hy Hl]; constructor.
  apply comparePageRank_le. rewrite Hx, Hy. apply Qle_refl.
Qed.

(** On doubles: for scores that are not NaN, a page is not after another
    exactly when its score is at least the other's. *)
Lemma comparePageRank_ge (a b : @Page double) :
  pageRank a <> NaN -> pageRank b <> NaN ->
  (comparePageRank a b <= 0)%Z <-> Double.ge (pageRank a) (pageRank b) = true.
Proof.
  unfold comparePageRank. cbv zeta. ieee_ops. change (inject_Z 0) with 0%Q.
  destruct (pageRank a) as [x| | |], (pageRank b) as [y| | |]; intros Ha Hb;
    try congruence; simpl; try (split; [reflexivity|intros _; lia]);
    try (split; [intros H; lia|discriminate]).
  destruct (Qlt_bool 0 (y + - x)) eqn:E1; destruct (Qlt_bool (y + - x) 0) eqn:E2;
    destruct (Qlt_bool x y) eqn:E3; simpl; q_bools;
    try (split; [reflexivity|intros _; lia]);
    try (split; [intros H; lia|discriminate]);
    exfalso; lra.
Qed.

(** Also with NaN scores, one of two pages is not after the other. *)
Lemma comparePageRank_total (a b : @Page double) :
  (comparePageRank a b <= 0)%Z \/ (comparePageRank b a <= 0)%Z.
Proof.
  unfold comparePageRank. cbv zeta. ieee_ops. change (inject_Z 0) with 0%Q.
  destruct (pageRank a) as [x| | |], (pageRank b) as [y| | |]; simpl;
    try (left; lia); try (right; lia).
  destruct (Qlt_bool 0 (y + - x)) eqn:E1; destruct (Qlt_bool (y + - x) 0) eqn:E2;
    destruct (Qlt_bool 0 (x + - y)) eqn:E3; destruct (Qlt_bool (x + - y) 0) eqn:E4;
    simpl; try (left; lia); try (right; lia); q_bools; exfalso; lra.
Qed.

Lemma rows_descending (pages rows : list (@Page double)) :
  pagerankList_rows pages rows ->
  Forall (fun p => pageRank p <> NaN) pages ->
  rows ≡ₚ pages /\
  StronglySorted (fun a b => dge (pageRank a) (pageRank b) = true) rows.
Proof.
  intros [Hp Hs] Hn. split; [exact Hp|].
  assert (Hnr : Forall (fun p => pageRank p <> NaN) rows) by now rewrite Hp.
  clear Hp Hn.
  apply (Sorted_restrict _ (fun p => pageRank p <> NaN) rows Hnr) in Hs.
  assert (Hs' : Sorted (fun a b => dge (pageRank a) (pageRank b) = true) rows).
  { clear Hnr. induction Hs as [|x l Hl IH Hx]; constructor; [exact IH|].
    destruct Hx as [|y l' (Hxy & Hx & Hy)]; constructor.
    now apply comparePageRank_ge. }
  apply Sorted_StronglySorted; [|exact Hs'].
  intros x y z Hxy Hyz. ieee_ops. exact (ge_trans _ _ _ Hxy Hyz).
Qed.

(** X29. On doubles, the sort of the table has an outcome; when no score is
    a NaN, the rows written are the pages of the table by descending
    score. *)
Theorem pagerankList_rows_descend (pages : list (@Page double)) :
  (exists rows, pagerankList_rows pages rows) /\
  forall rows,
    pagerankList_rows pages rows ->
    Forall (fun p => pageRank p <> NaN) pages ->
    rows ≡ₚ pages /\
    StronglySorted (fun a b => dge (pageRank a) (pageRank b) = true) rows.
Proof.
  split.
  - apply qsort_result_exists, comparePageRank_total.
  - apply rows_descending.
Qed.

(** X30. The order of pages of equal score is left to [qsort]: for a table
    whose scores are all equal, every order of its pages is an outcome. *)
Theorem equal_scores_any_order (pages rows : list (@Page Q)) (c : Q) :
  Forall (fun p => (pageRank p == c)%Q) pages -> rows ≡ₚ pages ->
  pagerankList_rows pages rows.
Proof. apply rows_of_equal_scores. Qed.

Lemma equal_scores_any_order_witness :
  Forall (fun p => (pageRank p == 1 # 2)%Q)
         [mkPage "A" 1 (1 # 2) []; mkPage "B" 0 (2 # 4) []] /\
  [mkPage "B" 0 (2 # 4) []; mkPage "A" 1 (1 # 2) []]
  ≡ₚ [mkPage "A" 1 (1 # 2) []; mkPage "B" 0 (2 # 4) []] /\
  pagerankList_rows [mkPage "A" 1 (1 # 2) []; mkPage "B" 0 (2 # 4) []]
                    [mkPage "B" 0 (2 # 4) []; mkPage "A" 1 (1 # 2) []].
Proof.
  assert (Hall : Forall (fun p => (pageRank p == 1 # 2)%Q)
                        [mkPage "A" 1 (1 # 2) []; mkPage "B" 0 (2 # 4) []])
    by (repeat constructor).
  assert (Hp : [mkPage "B" 0 (2 # 4) []; mkPage "A" 1 (1 # 2) []]
               ≡ₚ [mkPage "A" 1 (1 # 2) []; mkPage "B" 0 (2 # 4) []])
    by apply Permutation_swap.
  split; [exact Hall|]. split; [exact Hp|].
  exact (equal_scores_any_order _ _ (1 # 2) Hall Hp).
Defined.

End RowProperties.

(** ** The tree of the index *)

Section TreeProperties.

Import CString InvertedIndex IndexProps.

Lemma insertWord_twice (t : TreeNode) (w f : string) :
  tree_ok t -> insertWord (insertWord t w f) w f = insertWord t w f.
Proof.
  intros H. apply insertWord_noop; [now apply insertWord_ok|].
  apply lists_insertWord. now left.
Qed.

Lemma insertWord_commutes (t : TreeNode) (w f w' f' : string) :
  tree_ok t ->
  printInvertedIndex (insertWord (insertWord t w f) w' f')
  = printInvertedIndex (insertWord (insertWord t w' f') w f).
Proof.
  intros H. apply index_ok_ext.
  - now apply tree_ok_index_ok, insertWord_ok, insertWord_ok.
  - now apply tree_ok_index_ok, insertWord_ok, insertWord_ok.
  - intros x y. rewrite !lists_insertWord. tauto.
Qed.

(** X3. An insertion adds the pair of its word and file name to what the
    tree lists, and nothing else, whatever the tree. *)
Theorem insertWord_adds_one_pair (root : TreeNode) (word filename w f : string) :
  lists (printInvertedIndex (insertWord root word filename)) w f
  <-> (w = word /\ f = filename) \/ lists (printInvertedIndex root) w f.
Proof. apply lists_insertWord. Qed.

(** X4. An insertion keeps the search-tree order of the words and the order
    of each file list; inserting a pair a second time changes nothing, and
    two insertions in either order print the same index. *)
Theorem insertWord_keeps_search_tree (root : TreeNode)
  (word filename word' filename' : string) :
  tree_ok root ->
  tree_ok (insertWord root word filename) /\
  insertWord (insertWord root word filename) word filename
  = insertWord root word filename /\
  printInvertedIndex (insertWord (insertWord root word filename) word' filename')
  = printInvertedIndex (insertWord (insertWord root word' filename') word filename).
Proof.
  intros H. split; [now apply insertWord_ok|].
  split; [now apply insertWord_twice|now apply insertWord_commutes].
Qed.

Lemma insertWord_keeps_search_tree_witness :
  tree_ok (insertWord NULL "dog" "b") /\
  tree_ok (insertWord (insertWord NULL "dog" "b") "cat" "a") /\
  printInvertedIndex (insertWord (insertWord (insertWord NULL "dog" "b") "cat" "a")
                                 "dog" "a")
  = printInvertedIndex (insertWord (insertWord (insertWord NULL "dog" "b") "dog" "a")
                                   "cat" "a").
Proof.
  assert (H : tree_ok (insertWord NULL "dog" "b")) by (apply insertWord_ok; exact I).
  split; [exact H|].
  destruct (insertWord_keeps_search_tree (insertWord NULL "dog" "b")
              "cat" "a" "dog" "a" H) as (H1 & _ & H3).
  split; [exact H1|exact H3].
Defined.

End TreeProperties.
